(** * banana-batch: the batch generation dispatcher

    A shallow embedding of [src/services/geminiService.ts] (the Gemini
    adapter with its proxy path, lines 1-467; the previous revision of
    the same adapter, lines 468-795; the OpenAI-compatible adapter,
    lines 796-1142; the shared types, lines 1143-1199) and of the
    provider settings hook [useProviderConfig] that feeds it
    ([src/unnamed/part_001], lines 1-161), followed by the properties of
    the dispatcher stated in the specification and by further properties
    of the same code.

    Conventions.
    - A JavaScript string is its sequence of UTF-16 code units, [list N].
      Regular expressions without the [u] flag, [trim], [includes] and
      [length] all work on code units, so this is the level at which the
      source reads strings.
    - Callbacks ([onImage], [onText], [onProgress]), [logError], the
      provider call and the backoff timer are effects: they are recorded,
      in order, in an event log carried by the state.
    - An [async] worker runs without interruption from one [await] to the
      next.  A worker is therefore a small machine whose states are its
      suspension points; a schedule says which suspended worker is
      resumed next and when the abort signal fires. *)

From Stdlib Require Import NArith ZArith String Ascii List Lia Bool.
From Stdlib Require Import DecimalString.
From stdpp Require Import base list gmap strings.
Import ListNotations.


(* ===================================================================== *)
(** * Part I: definitions *)
(* ===================================================================== *)

(** ** JavaScript strings *)

Abbreviation jsstring := (list N).

Definition lit (s : string) : jsstring :=
  map N_of_ascii (list_ascii_of_string s).

(** [`${n}`] and [n.toString()] for a non-negative integer. *)
Definition decimal (n : nat) : jsstring :=
  lit (NilEmpty.string_of_uint (Nat.to_uint n)).

(** Truthiness of a string: [!s] holds exactly for the empty string. *)
Definition truthy (s : jsstring) : bool :=
  match s with [] => false | _ :: _ => true end.

(** [a || b] on strings. *)
Definition or_else (a b : jsstring) : jsstring :=
  if truthy a then a else b.

Definition code_eqb (a b : N) : bool := N.eqb a b.

Fixpoint str_eqb (a b : jsstring) : bool :=
  match a, b with
  | [], [] => true
  | x :: a', y :: b' => code_eqb x y && str_eqb a' b'
  | _, _ => false
  end.

(** [s.startsWith(p)], and the rest of [s] after the prefix. *)
Fixpoint strip_prefix (p s : jsstring) : option jsstring :=
  match p with
  | [] => Some s
  | x :: p' =>
      match s with
      | [] => None
      | y :: s' => if code_eqb x y then strip_prefix p' s' else None
      end
  end.

Definition startsWith (s p : jsstring) : bool :=
  match strip_prefix p s with Some _ => true | None => false end.

(** [s.includes(p)]. *)
Fixpoint includes (s p : jsstring) : bool :=
  startsWith s p ||
  match s with
  | [] => false
  | _ :: s' => includes s' p
  end.

(** [s.endsWith(p)]. *)
Definition endsWith (s p : jsstring) : bool :=
  startsWith (rev s) (rev p).

(** The longest prefix whose code units satisfy [f], and what follows. *)
Fixpoint span (f : N -> bool) (s : jsstring) : jsstring * jsstring :=
  match s with
  | [] => ([], [])
  | c :: s' =>
      if f c then let '(a, b) := span f s' in (c :: a, b) else ([], s)
  end.

(** ECMAScript LineTerminator: LF, CR, LS, PS.  The regular expression
    atom [.] matches every code unit except these. *)
Definition is_line_terminator (c : N) : bool :=
  (c =? 10)%N || (c =? 13)%N || (c =? 0x2028)%N || (c =? 0x2029)%N.

(** ECMAScript WhiteSpace: TAB, VT, FF, SP, NBSP, ZWNBSP and the space
    separators of Unicode. *)
Definition is_white_space (c : N) : bool :=
  (c =? 9)%N || (c =? 11)%N || (c =? 12)%N || (c =? 32)%N || (c =? 0xA0)%N ||
  (c =? 0xFEFF)%N || (c =? 0x1680)%N || ((0x2000 <=? c)%N && (c <=? 0x200A)%N) ||
  (c =? 0x202F)%N || (c =? 0x205F)%N || (c =? 0x3000)%N.

(** What [String.prototype.trim] removes and what [\s] matches. *)
Definition is_space (c : N) : bool :=
  is_white_space c || is_line_terminator c.

Fixpoint trim_start (s : jsstring) : jsstring :=
  match s with
  | [] => []
  | c :: s' => if is_space c then trim_start s' else s
  end.

Definition trim (s : jsstring) : jsstring :=
  rev (trim_start (rev (trim_start s))).

(** [\d] and the class [[1-9]]. *)
Definition is_digit (c : N) : bool := (48 <=? c)%N && (c <=? 57)%N.
Definition is_digit19 (c : N) : bool := (49 <=? c)%N && (c <=? 57)%N.

(** The class [[A-Za-z0-9+/=]]. *)
Definition is_base64_char (c : N) : bool :=
  ((65 <=? c)%N && (c <=? 90)%N) || ((97 <=? c)%N && (c <=? 122)%N) ||
  is_digit c || (c =? 43)%N || (c =? 47)%N || (c =? 61)%N.

Definition semicolon : N := 59.
Definition slash : N := 47.
Definition colon : N := 58.

(** ** Shared types ([types.ts], lines 1143-1199) *)

Inductive ImageStatus := success | error.

Record GeneratedImage := {
  gi_id : jsstring;
  gi_data : jsstring;
  gi_mimeType : jsstring;
  gi_status : ImageStatus
}.

Record UploadedImage := {
  ui_id : jsstring;
  ui_data : jsstring;
  ui_mimeType : jsstring;
  ui_name : option jsstring
}.

Inductive Role := user | model.

Record Message := {
  msg_id : jsstring;
  msg_role : Role;
  msg_text : option jsstring;
  msg_textVariations : option (list jsstring);
  msg_images : option (list GeneratedImage);
  msg_uploadedImages : option (list UploadedImage);
  msg_selectedImageId : option jsstring;
  msg_timestamp : N;
  msg_isError : option bool
}.

(** The argument of [logError(context, error)]: the context string and
    the message of the error object. *)
Inductive ErrorClass :=
  ImageProcessingError | SafetyFilterError | ValidationError | NetworkError | ForeignError.

Record Thrown := {
  err_class : ErrorClass;
  err_message : jsstring
}.

Record Diagnostic := {
  diag_context : jsstring;
  diag_error : Thrown
}.

(** ** [extractBase64Data] (lines 19-42) *)

Record ImageInput := {
  mimeType : jsstring;
  base64Data : jsstring
}.

(** The match of [/^data:([^;]+);base64,(.+)$/] against the whole string,
    with its two capture groups.  [[^;]+] cannot cross a semicolon and
    must be followed by one, so the only split that can succeed is the one
    at the first semicolon after [data:]; [(.+)$] must then take the whole
    rest, which has to be non-empty and free of line terminators. *)
Definition match_data_uri (dataUri : jsstring) : option (jsstring * jsstring) :=
  match strip_prefix (lit "data:") dataUri with
  | None => None
  | Some r =>
      let '(m, rest) := span (fun c => negb (code_eqb c semicolon)) r in
      if truthy m then
        match strip_prefix (lit ";base64,") rest with
        | None => None
        | Some d =>
            if truthy d && forallb (fun c => negb (is_line_terminator c)) d
            then Some (m, d) else None
        end
      else None
  end.

(** [` for image ${imageId}`] when [imageId] is given and non-empty. *)
Definition for_image (imageId : option jsstring) : jsstring :=
  match imageId with
  | Some i => if truthy i then lit " for image " ++ i else []
  | None => []
  end.

Definition image_diag (msg : jsstring) : Diagnostic :=
  {| diag_context := lit "Image Processing";
     diag_error := {| err_class := ImageProcessingError; err_message := msg |} |}.

(** The result together with the diagnostics passed to [logError]. *)
Definition extractBase64Data (dataUri : jsstring) (imageId : option jsstring)
  : option ImageInput * list Diagnostic :=
  match match_data_uri dataUri with
  | None =>
      (None, [image_diag (lit "Invalid image data format" ++ for_image imageId)])
  | Some (mimeTypeFromData, data) =>
      let finalMimeType := or_else mimeTypeFromData (lit "image/png") in
      if negb (truthy data) || (length data =? 0) then
        (None, [image_diag (lit "Empty base64 data" ++ for_image imageId)])
      else
        (Some {| mimeType := finalMimeType; base64Data := data |}, [])
  end.

(** The data URI written by the worker for a returned image (line 412):
    [`data:${mimeType};base64,${inlineData.data}`]. *)
Definition data_uri (mime data : jsstring) : jsstring :=
  lit "data:" ++ mime ++ lit ";base64," ++ data.

(** A mime type as the worker writes it: a non-empty [type/subtype]
    without parameters, hence without a semicolon. *)
Definition is_mime_type (mime : jsstring) : Prop :=
  mime <> [] /\ Forall (fun c => c <> semicolon) mime.

(** A non-empty string over the base64 alphabet. *)
Definition is_base64_payload (data : jsstring) : Prop :=
  data <> [] /\ Forall (fun c => is_base64_char c = true) data.

(** ** The worker pool (lines 348-467, and again 989-1142)

    The two adapters run the same pool; they differ in the provider call
    and in how its reply is read.  An [Adapter] packages what one attempt
    contributes: the callbacks fired while the reply is read, whether the
    attempt threw, and how a thrown error is presented to [logError]. *)

Inductive Callback :=
| CbImage (img : GeneratedImage)
| CbText (t : jsstring).

Class Adapter := {
  (** attempt [attempt] (counted from 0) of slot [index]: the callbacks
      fired inside the [try] block, and the error thrown, if any *)
  attempt_result : nat -> nat -> list Callback * option Thrown;
  (** the error object handed to [logError] in the [catch] block *)
  logged_error : Thrown -> Thrown;
  (** [generateUUID()] for the error placeholder of a slot *)
  placeholder_id : nat -> jsstring
}.

Definition MAX_CONCURRENT_REQUESTS : nat := 10.
Definition MAX_RETRIES : nat := 3.

(** Everything the pool does that can be observed from outside, tagged
    with the slot ([index]) the worker was handling. *)
Inductive Event :=
| Request (index attempt : nat)
| Wait (index : nat) (ms : Z)
| LogError (index : nat) (d : Diagnostic)
| OnImage (index : nat) (img : GeneratedImage)
| OnText (index : nat) (t : jsstring)
| OnProgress (index : nat) (completed total : nat).

Definition slot_of (e : Event) : nat :=
  match e with
  | Request i _ | Wait i _ | LogError i _ | OnImage i _ | OnText i _
  | OnProgress i _ _ => i
  end.

Definition fire (index : nat) (c : Callback) : Event :=
  match c with
  | CbImage img => OnImage index img
  | CbText t => OnText index t
  end.

(** A worker between two resumptions: suspended at the provider call of
    attempt [attempt] (the counter not yet incremented), suspended in
    [delay] before attempt [attempt], or returned. *)
Inductive Worker :=
| Calling (index attempt : nat)
| Sleeping (index attempt : nat)
| Returned.

Record Pool := {
  taskQueue : list nat;
  completedCount : nat;
  aborted : bool;
  workers : list Worker;
  events : list Event
}.

Definition emit (es : list Event) (p : Pool) : Pool :=
  {| taskQueue := taskQueue p; completedCount := completedCount p;
     aborted := aborted p; workers := workers p; events := events p ++ es |}.

Definition set_queue (q : list nat) (p : Pool) : Pool :=
  {| taskQueue := q; completedCount := completedCount p;
     aborted := aborted p; workers := workers p; events := events p |}.

Definition set_completed (c : nat) (p : Pool) : Pool :=
  {| taskQueue := taskQueue p; completedCount := c;
     aborted := aborted p; workers := workers p; events := events p |}.

Definition set_workers (ws : list Worker) (p : Pool) : Pool :=
  {| taskQueue := taskQueue p; completedCount := completedCount p;
     aborted := aborted p; workers := ws; events := events p |}.

Definition set_aborted (p : Pool) : Pool :=
  {| taskQueue := taskQueue p; completedCount := completedCount p;
     aborted := true; workers := workers p; events := events p |}.

(** [`Worker ${workerId} - Image ${index + 1} Attempt ${attempt}`] *)
Definition worker_context (workerId index attempt : nat) : jsstring :=
  lit "Worker " ++ decimal workerId ++ lit " - Image " ++ decimal (index + 1)
  ++ lit " Attempt " ++ decimal attempt.

Definition error_image {adapter : Adapter} (index : nat) : GeneratedImage :=
  {| gi_id := placeholder_id index; gi_data := []; gi_mimeType := [];
     gi_status := error |}.

(** [1000 * Math.pow(2, attempt - 1)] *)
Definition waitTime (attempt : nat) : Z :=
  (1000 * 2 ^ (Z.of_nat attempt - 1))%Z.

Section Worker.
Context {adapter : Adapter}.
Variable batchSize : nat.

(** Head of the outer loop (lines 354-365): leave when the queue is
    empty or the signal is set; otherwise [shift] a slot and enter the
    retry loop, whose test [attempt <= MAX_RETRIES && !success] holds
    for [attempt = 0], and whose abort check sees the same signal, so
    the first request is issued. *)
Definition claim (p : Pool) : Pool * Worker :=
  match taskQueue p with
  | [] => (p, Returned)
  | index :: rest =>
      if aborted p then (p, Returned)
      else (emit [Request index 0] (set_queue rest p), Calling index 0)
  end.

(** After the retry loop (lines 444-458), then back to the loop head. *)
Definition finish (index : nat) (ok : bool) (p : Pool) : Pool * Worker :=
  let p1 :=
    if negb ok && negb (aborted p)
    then emit [OnImage index (error_image index)] p else p in
  let p2 :=
    if negb (aborted p1)
    then emit [OnProgress index (S (completedCount p1)) batchSize]
              (set_completed (S (completedCount p1)) p1)
    else p1 in
  claim p2.

(** The test of the retry loop with [success = false] (lines 364-365). *)
Definition retry (index attempt : nat) (p : Pool) : Pool * Worker :=
  if attempt <=? MAX_RETRIES then
    if aborted p then (p, Returned)
    else (emit [Request index attempt] p, Calling index attempt)
  else finish index false p.

(** A suspended worker continues: the provider call settles (lines
    389-441) or the timer fires. *)
Definition resume (workerId : nat) (w : Worker) (p : Pool) : Pool * Worker :=
  match w with
  | Calling index attempt =>
      let '(cbs, thrown) := attempt_result index attempt in
      let p1 := emit (map (fire index) cbs) p in
      match thrown with
      | None => finish index true p1
      | Some err =>
          let attempt' := S attempt in
          let p2 :=
            if negb (aborted p1)
            then emit [LogError index
                         {| diag_context := worker_context workerId index attempt';
                            diag_error := logged_error err |}] p1
            else p1 in
          if (attempt' <=? MAX_RETRIES) && negb (aborted p2)
          then (emit [Wait index (waitTime attempt')] p2, Sleeping index attempt')
          else retry index attempt' p2
      end
  | Sleeping index attempt => retry index attempt p
  | Returned => (p, Returned)
  end.

(** [worker(i + 1)] is called: it runs up to its first [await]. *)
Definition spawn (p : Pool) : Pool :=
  let '(p', w) := claim p in set_workers (workers p' ++ [w]) p'.

Definition numWorkers : nat := Nat.min MAX_CONCURRENT_REQUESTS batchSize.

(** Lines 348-350 and 462-464; [signal] is the state of the abort signal
    when the batch is started. *)
Definition start (signal : bool) : Pool :=
  Nat.iter numWorkers spawn
    {| taskQueue := seq 0 batchSize; completedCount := 0; aborted := signal;
       workers := []; events := [] |}.

(** What can happen next: the pending [await] of worker [w] (position
    in the list; its [workerId] is [w + 1]) settles, or the signal
    fires. *)
Inductive Tick := Resume (w : nat) | Abort.

Definition step (t : Tick) (p : Pool) : Pool :=
  match t with
  | Abort => set_aborted p
  | Resume w =>
      match workers p !! w with
      | None => p
      | Some ws =>
          let '(p', ws') := resume (S w) ws p in
          set_workers (<[w := ws']> (workers p')) p'
      end
  end.

Definition run (sched : list Tick) (p : Pool) : Pool :=
  fold_left (fun q t => step t q) sched p.

(** [await Promise.all(workers)] has resolved. *)
Definition all_returned (p : Pool) : bool :=
  forallb (fun w => match w with Returned => true | _ => false end) (workers p).

Definition is_abort (t : Tick) : bool :=
  match t with Abort => true | Resume _ => false end.

(** The position of the first worker that has not returned. *)
Fixpoint first_pending (ws : list Worker) : option nat :=
  match ws with
  | [] => None
  | Returned :: ws' => S <$> first_pending ws'
  | _ :: _ => Some 0
  end.

(** One way to run a batch to its end: always resume the first pending
    worker. *)
Fixpoint drain (fuel : nat) (p : Pool) : list Tick :=
  match fuel with
  | 0 => []
  | S fuel' =>
      match first_pending (workers p) with
      | None => []
      | Some w => Resume w :: drain fuel' (step (Resume w) p)
      end
  end.
End Worker.

(** Readings of the event log. *)
Definition slot_events (i : nat) (es : list Event) : list Event :=
  List.filter (fun e => slot_of e =? i) es.

Definition progress_of (e : Event) : option (nat * nat) :=
  match e with OnProgress _ c t => Some (c, t) | _ => None end.

Definition image_of (e : Event) : option GeneratedImage :=
  match e with OnImage _ img => Some img | _ => None end.

Definition text_of (e : Event) : option jsstring :=
  match e with OnText _ t => Some t | _ => None end.

Definition progress_calls (es : list Event) : list (nat * nat) :=
  omap progress_of es.

Definition images (es : list Event) : list GeneratedImage :=
  omap image_of es.

Definition texts (es : list Event) : list jsstring :=
  omap text_of es.

(** The requests and waits of a slot, in order. *)
Definition is_control (e : Event) : bool :=
  match e with Request _ _ | Wait _ _ => true | _ => false end.

Definition control (i : nat) (es : list Event) : list Event :=
  List.filter is_control (slot_events i es).

(** ** The life of a slot

    What the log holds for one slot is determined by how far its worker
    has come.  A [Phase] names that point; [shape] is the sequence of
    events the slot has produced when it is there. *)

Inductive Phase :=
| Unclaimed
| InFlight (w a : nat)            (* worker [w] awaits the reply of attempt [a] *)
| Backoff (w a : nat)             (* worker [w] sleeps before attempt [a] *)
| Resolved (w a c : nat)          (* done at attempt [a]; progress [c] reported *)
| Dropped (w a : nat) (in_flight : bool).
                                  (* left on cancellation, after the reply of
                                     attempt [a] or during the sleep before it *)

Definition pending (w : Worker) : bool :=
  match w with Returned => false | _ => true end.

Definition active (ws : list Worker) : nat :=
  length (List.filter pending ws).

Section Phases.
Context {adapter : Adapter}.
Variable batchSize : nat.

Definition callbacks (i a : nat) : list Event :=
  map (fire i) (fst (attempt_result i a)).

Definition fails (i a : nat) : bool :=
  match snd (attempt_result i a) with Some _ => true | None => false end.

(** The [logError] call of the [catch] block after attempt [a], made
    by the worker whose [workerId] is [wid]. *)
Definition log_entry (wid i a : nat) : list Event :=
  match snd (attempt_result i a) with
  | Some err =>
      [LogError i {| diag_context := worker_context wid i (S a);
                     diag_error := logged_error err |}]
  | None => []
  end.

(** Attempts [0 .. a-1], each one failed, logged and followed by its
    backoff wait. *)
Fixpoint failed_prefix (w i a : nat) : list Event :=
  match a with
  | 0 => []
  | S a' =>
      failed_prefix w i a'
      ++ Request i a' :: callbacks i a' ++ log_entry (S w) i a'
      ++ [Wait i (waitTime (S a'))]
  end.

(** What follows the callbacks of the last attempt of a finished slot. *)
Definition ending (w i a c : nat) : list Event :=
  if fails i a
  then log_entry (S w) i a ++ [OnImage i (error_image i); OnProgress i c batchSize]
  else [OnProgress i c batchSize].

Definition shape (ph : Phase) (i : nat) : list Event :=
  match ph with
  | Unclaimed => []
  | InFlight w a => failed_prefix w i a ++ [Request i a]
  | Backoff w a => failed_prefix w i a
  | Resolved w a c =>
      failed_prefix w i a ++ Request i a :: callbacks i a ++ ending w i a c
  | Dropped w a true => failed_prefix w i a ++ Request i a :: callbacks i a
  | Dropped w a false => failed_prefix w i a
  end.

Definition phase_ok (signal : bool) (ph : Phase) (i : nat) : Prop :=
  match ph with
  | Unclaimed => True
  | InFlight w a =>
      a <= MAX_RETRIES /\ (forall b, b < a -> fails i b = true)
  | Backoff w a =>
      1 <= a /\ a <= MAX_RETRIES /\ (forall b, b < a -> fails i b = true)
  | Resolved w a c =>
      a <= MAX_RETRIES /\ (forall b, b < a -> fails i b = true)
      /\ (fails i a = true -> a = MAX_RETRIES)
  | Dropped w a in_flight =>
      signal = true /\ a <= MAX_RETRIES /\ (forall b, b < a -> fails i b = true)
      /\ (in_flight = false -> 1 <= a)
  end.

(** The invariant that ties the log to the workers: [ph] gives the
    phase of every slot. *)
Record Core (ph : nat -> Phase) (p : Pool) : Prop := {
  core_queue : exists m, m <= batchSize /\ taskQueue p = seq m (batchSize - m)
                         /\ forall i, ph i = Unclaimed <-> m <= i;
  core_events : forall i, slot_events i (events p) = shape (ph i) i;
  core_ok : forall i, phase_ok (aborted p) (ph i) i;
  core_calling : forall w i a,
      workers p !! w = Some (Calling i a) <-> ph i = InFlight w a;
  core_sleeping : forall w i a,
      workers p !! w = Some (Sleeping i a) <-> ph i = Backoff w a
}.

(** The invariant of the counters. *)
Record Counting (p : Pool) : Prop := {
  cnt_progress :
    progress_calls (events p)
    = map (fun c => (c, batchSize)) (seq 1 (completedCount p));
  cnt_returned :
    aborted p = false ->
    (exists w, workers p !! w = Some Returned) -> taskQueue p = [];
  cnt_balance :
    aborted p = false ->
    completedCount p + active (workers p) + length (taskQueue p) = batchSize
}.

(** A bound on the resumptions still to come: each one lowers it. *)
Definition weight (w : Worker) : nat :=
  match w with
  | Calling _ a => 1 + 2 * (MAX_RETRIES - a)
  | Sleeping _ a => 2 + 2 * (MAX_RETRIES - a)
  | Returned => 0
  end.

Definition measure (p : Pool) : nat :=
  list_sum (map weight (workers p)) + 7 * length (taskQueue p).

(** The requests and waits of a slot that goes through all its
    attempts. *)
Definition retry_plan (i : nat) : list Event :=
  [Request i 0; Wait i 1000; Request i 1; Wait i 2000; Request i 2; Wait i 4000;
   Request i 3].

End Phases.

Definition upd (ph : nat -> Phase) (i : nat) (x : Phase) : nat -> Phase :=
  fun j => if Nat.eqb j i then x else ph j.

(** The worker a phase says is busy with the slot, and what that worker
    is doing. *)
Definition owner (ph : Phase) : option nat :=
  match ph with
  | InFlight w _ | Backoff w _ => Some w
  | _ => None
  end.

Definition worker_in (ph : Phase) (i : nat) : Worker :=
  match ph with
  | InFlight _ a => Calling i a
  | Backoff _ a => Sleeping i a
  | _ => Returned
  end.

Definition tagged (i : nat) (E : list Event) : Prop :=
  Forall (fun e => slot_of e = i) E.

(** A schedule in which the signal never fires. *)
Definition never_cancelled (sched : list Tick) : Prop :=
  forallb (fun t => negb (is_abort t)) sched = true.

(** The number of [onImage] and [onText] calls in a log. *)
Definition outcomes (es : list Event) : nat :=
  length (images es) + length (texts es).

(** What the pool relies on in an adapter: an attempt succeeds exactly
    when it delivered an image, and the images it delivers are marked
    successful. *)
Class Lawful (adapter : Adapter) : Prop := {
  success_has_image : forall i a,
      snd (attempt_result i a) = None <->
      exists img, In (CbImage img) (fst (attempt_result i a));
  images_successful : forall i a img,
      In (CbImage img) (fst (attempt_result i a)) -> gi_status img = success
}.

(** ** Optional fields of JSON replies *)

Definition opt_truthy (o : option jsstring) : bool :=
  match o with Some s => truthy s | None => false end.

(** [a || b] where both may be [undefined]. *)
Definition opt_or (a b : option jsstring) : option jsstring :=
  if opt_truthy a then a else b.

(** [a || 'literal'] *)
Definition opt_default (a : option jsstring) (d : jsstring) : jsstring :=
  match a with
  | Some s => if truthy s then s else d
  | None => d
  end.

Definition thrown (c : ErrorClass) (msg : string) : Thrown :=
  {| err_class := c; err_message := lit msg |}.

(** ** What the files at hand import but do not contain

    [VALIDATION_LIMITS.MAX_IMAGE_SIZE_MB], [validateApiKey] and
    [validatePrompt] come from [utils/validation].  They are parameters
    of the development: the limit is a whole number of megabytes, and a
    validator either returns or throws. *)

Class Validation := {
  MAX_IMAGE_SIZE_MB : N;
  validateApiKey : jsstring -> option Thrown;
  validatePrompt : jsstring -> option Thrown
}.

(** A computation that may throw. *)
Inductive Result (A : Type) :=
| Ok (a : A)
| Throw (e : Thrown).
Arguments Ok {A} a.
Arguments Throw {A} e.

(** [(base64Data.length * 3 / 4) / (1024 * 1024) > MAX_IMAGE_SIZE_MB].
    The product by 3 is exact for every string that fits in memory and
    the divisions are by powers of two, so the floating-point comparison
    is the comparison of [3 * length] with [MAX_IMAGE_SIZE_MB * 2^22]. *)
Definition too_large {validation : Validation} (base64Data : jsstring) : bool :=
  (MAX_IMAGE_SIZE_MB * 4194304 <? 3 * N.of_nat (length base64Data))%N.

Definition two_digits (n : nat) : jsstring :=
  if n <? 10 then lit "0" ++ decimal n else decimal n.

(** [estimatedSizeMB.toFixed(2)]: the nearest multiple of 0.01, the
    larger one on a tie. *)
Definition toFixed2 (base64Data : jsstring) : jsstring :=
  let n := N.to_nat ((300 * N.of_nat (length base64Data) + 2097152) / 4194304) in
  decimal (n / 100) ++ lit "." ++ two_digits (n mod 100).

Definition id_eqb (a : jsstring) (b : option jsstring) : bool :=
  match b with Some b' => str_eqb a b' | None => false end.

(** The guards of [collectSelectedImages] up to the selected image
    (lines 56-63): a model message with a non-empty [selectedImageId] and
    an [images] array whose first image with that id was generated
    successfully. *)
Definition selected_image (msg : Message) : option GeneratedImage :=
  match msg_role msg with
  | user => None
  | model =>
      if opt_truthy (msg_selectedImageId msg) then
        match msg_images msg with
        | None => None
        | Some imgs =>
            match List.find (fun img => id_eqb (gi_id img) (msg_selectedImageId msg)) imgs with
            | Some selectedImg =>
                match gi_status selectedImg with
                | success => Some selectedImg
                | error => None
                end
            | None => None
            end
        end
      else None
  end.

Inductive AspectRatio := Auto | R1_1 | R3_4 | R4_3 | R9_16 | R16_9.
Inductive Resolution := K1 | K2 | K4.
Inductive Provider := gemini | openai.

Definition aspect_string (a : AspectRatio) : jsstring :=
  match a with
  | Auto => lit "Auto" | R1_1 => lit "1:1" | R3_4 => lit "3:4"
  | R4_3 => lit "4:3" | R9_16 => lit "9:16" | R16_9 => lit "16:9"
  end.

Definition resolution_string (r : Resolution) : jsstring :=
  match r with K1 => lit "1K" | K2 => lit "2K" | K4 => lit "4K" end.

Record ProviderConfig := {
  provider : Provider;
  apiKey : jsstring;
  baseUrl : option jsstring;
  pc_model : option jsstring
}.

Record AppSettings := {
  batchSize : nat;
  aspectRatio : AspectRatio;
  resolution : Resolution;
  providerConfig : ProviderConfig
}.

(** ** [encodeURIComponent] *)

Definition hex_digit (n : N) : N :=
  if (n <? 10)%N then (48 + n)%N else (55 + n)%N.

Definition percent (byte : N) : jsstring :=
  [37%N; hex_digit (byte / 16); hex_digit (byte mod 16)].

Definition utf8 (cp : N) : list N :=
  if (cp <? 0x80)%N then [cp]
  else if (cp <? 0x800)%N then [0xC0 + cp / 64; 0x80 + cp mod 64]%N
  else if (cp <? 0x10000)%N then
    [0xE0 + cp / 4096; 0x80 + (cp / 64) mod 64; 0x80 + cp mod 64]%N
  else
    [0xF0 + cp / 262144; 0x80 + (cp / 4096) mod 64; 0x80 + (cp / 64) mod 64;
     0x80 + cp mod 64]%N.

(** The characters [encodeURIComponent] leaves alone:
    letters, digits and [- _ . ! ~ * ' ( )]. *)
Definition is_unreserved (c : N) : bool :=
  ((65 <=? c)%N && (c <=? 90)%N) || ((97 <=? c)%N && (c <=? 122)%N) ||
  is_digit c ||
  existsb (N.eqb c) [45; 95; 46; 33; 126; 42; 39; 40; 41]%N.

Definition is_high_surrogate (c : N) : bool := (0xD800 <=? c)%N && (c <=? 0xDBFF)%N.
Definition is_low_surrogate (c : N) : bool := (0xDC00 <=? c)%N && (c <=? 0xDFFF)%N.

(** [None] is the [URIError] raised on a lone surrogate. *)
Fixpoint encodeURIComponent (s : jsstring) : option jsstring :=
  match s with
  | [] => Some []
  | c :: s' =>
      if is_unreserved c then (c ::.) <$> encodeURIComponent s'
      else if is_low_surrogate c then None
      else if is_high_surrogate c then
        match s' with
        | d :: s'' =>
            if is_low_surrogate d then
              let cp := (0x10000 + (c - 0xD800) * 1024 + (d - 0xDC00))%N in
              (fun r => concat (map percent (utf8 cp)) ++ r) <$> encodeURIComponent s''
            else None
        | [] => None
        end
      else (fun r => concat (map percent (utf8 c)) ++ r) <$> encodeURIComponent s'
  end.

(** ** Outbound content of the Gemini API *)

(** A part of an outbound message: [{ text }], the SDK's
    [{ inlineData: { mimeType, data } }], or the raw wire form
    [{ inline_data: { mime_type, data } }] sent through a proxy. *)
Inductive OutPart :=
| TextPart (text : jsstring)
| InlineDataPart (mime data : jsstring)
| Inline_dataPart (mime data : jsstring).

Record OutContent := {
  out_role : Role;
  out_parts : list OutPart
}.

Record ImageConfig := {
  ic_aspectRatio : option jsstring;
  ic_imageSize : option jsstring
}.

(** [Object.keys(imageConfig).length > 0] *)
Definition has_keys (c : ImageConfig) : bool :=
  match ic_aspectRatio c, ic_imageSize c with
  | None, None => false
  | _, _ => true
  end.

Definition MODEL_PRO : jsstring := lit "gemini-3-pro-image-preview".

(** ** The Gemini adapter: reading a reply (lines 389-427) *)

Module Gemini.

Record InlineData := {
  inl_data : option jsstring;
  inl_mimeType : option jsstring;
  inl_mime_type : option jsstring
}.

Record Part := {
  part_inlineData : option InlineData;
  part_inline_data : option InlineData;
  part_text : option jsstring
}.

Record Content := { content_parts : option (list Part) }.

Record Candidate := {
  finishReason : option jsstring;
  finish_reason : option jsstring;
  content : option Content
}.

Record Response := { candidates : option (list Candidate) }.

(** How the awaited call settles: the promise is rejected (network or
    proxy failure, abort of an in-flight [fetch]) or resolves with a
    parsed reply. *)
Inductive Settled :=
| Rejects (e : Thrown)
| Resolves (r : Response).

(** [part.inlineData || part.inline_data], when it carries data:
    the mime type written into the result and the payload. *)
Definition image_data (part : Part) : option (jsstring * jsstring) :=
  let inlineData :=
    match part_inlineData part with
    | Some d => Some d
    | None => part_inline_data part
    end in
  match inlineData with
  | Some d =>
      if opt_truthy (inl_data d) then
        Some (opt_default (opt_or (inl_mimeType d) (inl_mime_type d)) (lit "image/png"),
              opt_default (inl_data d) [])
      else None
  | None => None
  end.

(** The loop over [content.parts] (lines 405-421): the callbacks fired
    and the final value of [foundImage].  [uuid j] is the identifier
    drawn for the part at position [j]. *)
Fixpoint read_parts (uuid : nat -> jsstring) (j : nat) (parts : list Part)
  : list Callback * bool :=
  match parts with
  | [] => ([], false)
  | part :: rest =>
      let '(cbs, found) := read_parts uuid (S j) rest in
      match image_data part with
      | Some (mime, payload) =>
          (CbImage {| gi_id := uuid j; gi_data := data_uri mime payload;
                      gi_mimeType := mime; gi_status := success |} :: cbs, true)
      | None =>
          if opt_truthy (part_text part)
          then (CbText (opt_default (part_text part) []) :: cbs, found)
          else (cbs, found)
      end
  end.

(** The texts of the parts that carry a non-empty [text]. *)
Definition part_texts (parts : list Part) : list jsstring :=
  omap (fun part => if opt_truthy (part_text part) then part_text part else None) parts.

(** [candidate.finishReason || candidate.finish_reason] is ['SAFETY']. *)
Definition blocked (candidate : Candidate) : bool :=
  str_eqb (opt_default (opt_or (finishReason candidate) (finish_reason candidate)) [])
          (lit "SAFETY").

(** The body of the [try] block once the call has settled. *)
Definition read_reply (uuid : nat -> jsstring) (s : Settled)
  : list Callback * option Thrown :=
  match s with
  | Rejects e => ([], Some e)
  | Resolves response =>
      match candidates response with
      | None | Some [] =>
          ([], Some (thrown ImageProcessingError "No candidate returned from API"))
      | Some (candidate :: _) =>
          if blocked candidate
          then ([], Some (thrown SafetyFilterError "Content blocked by safety filters"))
          else
            match content candidate with
            | None =>
                ([], Some (thrown ImageProcessingError "No content parts in response"))
            | Some c =>
                match content_parts c with
                | None =>
                    ([], Some (thrown ImageProcessingError "No content parts in response"))
                | Some parts =>
                    let '(cbs, foundImage) := read_parts uuid 0 parts in
                    (cbs, if foundImage then None
                          else Some (thrown ImageProcessingError "No image data in response"))
                end
            end
      end
  end.

(** [provider index attempt] is how the call of that attempt settles;
    [generateUUID index attempt j] is the identifier drawn for part [j]
    of its reply ([generateUUID] lives in [utils/uuid], outside the
    files at hand, and is only known to return a fresh string). *)
Definition adapter (provider : nat -> nat -> Settled)
                   (generateUUID : nat -> nat -> nat -> jsstring) : Adapter :=
  {| attempt_result := fun index attempt =>
       read_reply (generateUUID index attempt) (provider index attempt);
     logged_error := fun e => e;
     placeholder_id := fun index => generateUUID index (S MAX_RETRIES) 0 |}.


(** *** Selected images of earlier turns (lines 52-85) *)

Fixpoint collectSelectedImages {validation : Validation} (messages : list Message)
  : list ImageInput * list Diagnostic :=
  match messages with
  | [] => ([], [])
  | msg :: rest =>
      let '(selectedImages, logs) := collectSelectedImages rest in
      match selected_image msg with
      | None => (selectedImages, logs)
      | Some selectedImg =>
          match extractBase64Data (gi_data selectedImg) (Some (gi_id selectedImg)) with
          | (None, d) => (selectedImages, d ++ logs)
          | (Some imageData, d) =>
              if too_large (base64Data imageData) then
                (selectedImages,
                 d ++ image_diag (lit "Selected image " ++ gi_id selectedImg
                                  ++ lit " is too large ("
                                  ++ toFixed2 (base64Data imageData) ++ lit "MB)") :: logs)
              else
                ({| mimeType := mimeType imageData;
                    base64Data := base64Data imageData |} :: selectedImages,
                 d ++ logs)
          end
      end
  end.

(** Intentionally empty: prior text is not carried forward
    (lines 87-93). *)
Definition buildHistory (_messages : list Message) : list OutContent := [].

(** *** The proxy endpoint (lines 95-126) *)

Fixpoint drop_slashes (s : jsstring) : jsstring :=
  match s with
  | [] => []
  | c :: s' => if code_eqb c slash then drop_slashes s' else s
  end.

(** [normalized.replace(/\/+$/, '')] *)
Definition strip_trailing_slashes (s : jsstring) : jsstring :=
  rev (drop_slashes (rev s)).

(** [/\/models\/[^/]+$/.test(s)]: the text after the last slash is not
    empty and what precedes it ends with [/models/]. *)
Definition ends_with_model_name (s : jsstring) : bool :=
  let '(name, before) := span (fun c => negb (code_eqb c slash)) (rev s) in
  truthy name && startsWith before (rev (lit "/models/")).

(** [/\/v1beta$|\/v1$/.test(s)] *)
Definition ends_with_version (s : jsstring) : bool :=
  endsWith s (lit "/v1beta") || endsWith s (lit "/v1").

Definition buildGeminiEndpoint (baseUrl modelName : jsstring) : jsstring :=
  let normalized := trim baseUrl in
  if negb (truthy normalized) then []
  else
    let normalized := strip_trailing_slashes normalized in
    if includes normalized (lit ":generateContent") then normalized
    else if ends_with_model_name normalized then normalized ++ lit ":generateContent"
    else if endsWith normalized (lit "/models")
         then normalized ++ lit "/" ++ modelName ++ lit ":generateContent"
    else if ends_with_version normalized
         then normalized ++ lit "/models/" ++ modelName ++ lit ":generateContent"
    else normalized ++ lit "/v1beta/models/" ++ modelName ++ lit ":generateContent".

Definition uri_error : Thrown := thrown ForeignError "URI malformed".

Definition appendKeyParam (url apiKey : jsstring) : Result jsstring :=
  if negb (truthy apiKey) || includes url (lit "key=") then Ok url
  else
    let joiner := if includes url (lit "?") then lit "&" else lit "?" in
    match encodeURIComponent apiKey with
    | Some encoded => Ok (url ++ joiner ++ lit "key=" ++ encoded)
    | None => Throw uri_error
    end.

(** *** The proxy request (lines 128-155) *)

Record FetchRequest := {
  url : jsstring;
  method : jsstring;
  headers : list (jsstring * jsstring);
  body_contents : list OutContent;
  body_generationConfig : option ImageConfig
}.

(** The request handed to [fetch], or the error thrown before it. *)
Definition fetchGeminiGenerateContent
    (baseUrl apiKey modelName : jsstring) (contents : list OutContent)
    (imageConfig : option ImageConfig) : Result FetchRequest :=
  match appendKeyParam (buildGeminiEndpoint baseUrl modelName) apiKey with
  | Throw e => Throw e
  | Ok endpoint =>
      if negb (truthy endpoint)
      then Throw (thrown ImageProcessingError "Gemini Base URL is missing.")
      else
        Ok {| url := endpoint;
              method := lit "POST";
              headers := [ (lit "Content-Type", lit "application/json");
                           (lit "Authorization", lit "Bearer " ++ apiKey);
                           (lit "x-goog-api-key", apiKey) ];
              body_contents := contents;
              body_generationConfig :=
                match imageConfig with
                | Some c => if has_keys c then Some c else None
                | None => None
                end |}
  end.

(** *** The user message (lines 214-323) *)

(** Lines 226-247. *)
Fixpoint filter_uploads {validation : Validation} (uploadedImages : list UploadedImage)
  : list ImageInput * list Diagnostic :=
  match uploadedImages with
  | [] => ([], [])
  | img :: rest =>
      let '(inputs, logs) := filter_uploads rest in
      match extractBase64Data (ui_data img) (Some (ui_id img)) with
      | (None, d) => (inputs, d ++ logs)
      | (Some imageData, d) =>
          if too_large (base64Data imageData) then
            (inputs,
             d ++ image_diag (lit "Image " ++ ui_id img ++ lit " is too large ("
                              ++ toFixed2 (base64Data imageData) ++ lit "MB)") :: logs)
          else
            ({| mimeType := mimeType imageData;
                base64Data := base64Data imageData |} :: inputs,
             d ++ logs)
      end
  end.

(** The class [[一二三四五六七八九十\d]]. *)
Definition is_numeral (c : N) : bool :=
  existsb (N.eqb c)
    [0x4e00; 0x4e8c; 0x4e09; 0x56db; 0x4e94; 0x516d; 0x4e03; 0x516b; 0x4e5d; 0x5341]%N
  || is_digit c.

(** Case folding of the [i] flag for a pattern of ASCII letters: a code
    unit matches a letter exactly when it is that letter in either
    case (code units above 127 are never folded onto ASCII). *)
Definition upper (c : N) : N :=
  if (97 <=? c)%N && (c <=? 122)%N then (c - 32)%N else c.

Fixpoint strip_prefix_ci (p s : jsstring) : option jsstring :=
  match p with
  | [] => Some s
  | x :: p' =>
      match s with
      | [] => None
      | y :: s' => if code_eqb (upper x) (upper y) then strip_prefix_ci p' s' else None
      end
  end.

Definition starts_with_code (c : N) (s : jsstring) : bool :=
  match s with
  | d :: _ => code_eqb c d
  | [] => false
  end.

(** The four alternatives of [imageRefPattern] (lines 269-277),
    anchored at the start of [s]. *)
Definition image_ref_here (s : jsstring) : bool :=
  match s with
  | [] => false
  | c :: r =>
      (* 图[...]+ *)
      (code_eqb c 0x56fe && match r with d :: _ => is_numeral d | [] => false end)
      (* image\s*[1-9]\d* *)
      || match strip_prefix_ci (lit "image") s with
         | Some t =>
             match trim_start t with
             | d :: _ => is_digit19 d
             | [] => false
             end
         | None => false
         end
      (* 第[...]+张 *)
      || (code_eqb c 0x7b2c &&
          let '(m, rest) := span is_numeral r in
          truthy m && starts_with_code 0x5f20 rest)
      (* 第[1-9]\d*张 *)
      || (code_eqb c 0x7b2c &&
          match r with
          | d :: r' =>
              is_digit19 d &&
              let '(_, rest) := span is_digit r' in starts_with_code 0x5f20 rest
          | [] => false
          end)
  end.

(** [imageRefPattern.test(prompt)] *)
Fixpoint hasImageReference (prompt : jsstring) : bool :=
  image_ref_here prompt ||
  match prompt with
  | [] => false
  | _ :: s' => hasImageReference s'
  end.

Definition question_mark : N := 63.

(** Lines 283-287, with the string literals as they stand in the
    file. *)
Definition imageLabel (i : nat) : jsstring :=
  let num := i + 1 in
  let chineseNum :=
    or_else (nth i (repeat [question_mark] 10) []) (decimal num) in
  [question_mark] ++ chineseNum ++ repeat question_mark 2 ++ decimal num
  ++ repeat question_mark 7.

(** [labels.join(sep)] *)
Fixpoint join (sep : jsstring) (labels : list jsstring) : jsstring :=
  match labels with
  | [] => []
  | [l] => l
  | l :: rest => l ++ sep ++ join sep rest
  end.

Definition imageLabels (imageCount : nat) : jsstring :=
  join [question_mark] (map imageLabel (seq 0 imageCount)).

(** What is put in front of the prompt (lines 289-291). *)
Definition legend (imageCount : nat) : jsstring :=
  repeat question_mark 7 ++ imageLabels imageCount ++ [question_mark]
  ++ [10; 10]%N.

(** [enhancedPrompt] (lines 264-293). *)
Definition enhancePrompt (prompt : jsstring) (imageCount : nat) : jsstring :=
  if (1 <? imageCount) && hasImageReference prompt
  then legend imageCount ++ prompt
  else prompt.

Record Prepared := {
  userParts : list OutPart;
  userPartsProxy : list OutPart
}.

Definition no_valid_images : Thrown :=
  thrown ImageProcessingError
    "No valid images could be processed. Please check image format and size.".

Definition nothing_to_send : Thrown :=
  thrown ValidationError "At least one image or text prompt is required.".

(** Everything [generateImageBatchStream] does before the pool is set
    up (lines 195-323): the diagnostics logged, and the user message or
    the error the call is rejected with. *)
Definition prepare {validation : Validation} (apiKey prompt : jsstring) (history : list Message)
    (uploadedImages : option (list UploadedImage))
  : list Diagnostic * Result Prepared :=
  match validateApiKey apiKey with
  | Some e => ([], Throw e)
  | None =>
      match (if truthy prompt then validatePrompt prompt else None) with
      | Some e => ([], Throw e)
      | None =>
          let '(selectedImages, logs1) := collectSelectedImages history in
          let '(uploadedImageInputs, logs2) :=
            match uploadedImages with
            | Some ((_ :: _) as imgs) => filter_uploads imgs
            | _ => ([], [])
            end in
          let supplied :=
            match uploadedImages with
            | Some (_ :: _) => true
            | _ => false
            end in
          if supplied && (length uploadedImageInputs =? 0)
          then (logs1 ++ logs2, Throw no_valid_images)
          else
            let imageInputs := selectedImages ++ uploadedImageInputs in
            let textParts :=
              if truthy prompt
              then [TextPart (enhancePrompt prompt (length imageInputs))]
              else [] in
            let parts :=
              textParts
              ++ map (fun img => InlineDataPart (mimeType img) (base64Data img)) imageInputs in
            let partsProxy :=
              textParts
              ++ map (fun img => Inline_dataPart (mimeType img) (base64Data img)) imageInputs in
            if length parts =? 0
            then (logs1 ++ logs2, Throw nothing_to_send)
            else (logs1 ++ logs2,
                  Ok {| userParts := parts; userPartsProxy := partsProxy |})
      end
  end.

(** *** What every attempt sends (lines 326-346 and 369-387) *)

Definition imageConfig_of (settings : AppSettings) : ImageConfig :=
  {| ic_aspectRatio :=
       match aspectRatio settings with
       | Auto => None
       | a => Some (aspect_string a)
       end;
     ic_imageSize := Some (resolution_string (resolution settings)) |}.

Inductive Outbound :=
| SdkRequest (modelName : jsstring) (contents : list OutContent)
             (config : option ImageConfig)
| ProxyRequest (r : FetchRequest).

Definition proxyBaseUrl (settings : AppSettings) : jsstring :=
  match baseUrl (providerConfig settings) with
  | Some b => trim b
  | None => []
  end.

Definition outbound (apiKey : jsstring) (history : list Message)
    (settings : AppSettings) (prepared : Prepared) : Result Outbound :=
  let modelName := opt_default (pc_model (providerConfig settings)) MODEL_PRO in
  let imageConfig := imageConfig_of settings in
  if 0 <? length (proxyBaseUrl settings) then
    match fetchGeminiGenerateContent (proxyBaseUrl settings) apiKey modelName
            [{| out_role := user; out_parts := userPartsProxy prepared |}]
            (Some imageConfig) with
    | Ok r => Ok (ProxyRequest r)
    | Throw e => Throw e
    end
  else
    Ok (SdkRequest modelName
          (buildHistory history ++ [{| out_role := user; out_parts := userParts prepared |}])
          (if has_keys imageConfig then Some imageConfig else None)).

(** The whole call: rejected before any worker exists, or the pool as
    the schedule leaves it. *)
Definition generateImageBatchStream {validation : Validation}
    (provider : nat -> nat -> Settled) (generateUUID : nat -> nat -> nat -> jsstring)
    (apiKey prompt : jsstring) (history : list Message) (settings : AppSettings)
    (uploadedImages : option (list UploadedImage)) (signal : bool)
    (sched : list Tick) : list Diagnostic * Result Pool :=
  match prepare apiKey prompt history uploadedImages with
  | (logs, Throw e) => (logs, Throw e)
  | (logs, Ok _) =>
      (logs, Ok (run (adapter := adapter provider generateUUID)
                   (batchSize settings) sched (start (batchSize settings) signal)))
  end.

End Gemini.

(** ** The OpenAI-compatible adapter: reading a reply (lines 1020-1088) *)

Module OpenAI.

Inductive ImageUrl :=
| UrlString (s : jsstring)
| UrlObject (url : option jsstring).

(** An element of an array-valued [message.content]. *)
Inductive ContentPart :=
| NotAnObject
| PartObject (image_url : option ImageUrl) (text : option jsstring).

Inductive MessageContent :=
| ContentString (s : jsstring)
| ContentArray (parts : list ContentPart)
| ContentOther.

Record ChatMessage := { msg_content : option MessageContent }.

Record Choice := {
  finish_reason : option jsstring;
  message : option ChatMessage
}.

Record Completion := { choices : option (list Choice) }.

Inductive Settled :=
| Rejects (e : Thrown)
| Resolves (r : Completion).

(** [/data:image\/[^;]+;base64,[A-Za-z0-9+/=]+/] anchored at the start
    of [s]: the matched text.  As in [match_data_uri], [[^;]+] has to
    stop at the first semicolon; the final class takes as much as it
    can. *)
Definition data_uri_here (s : jsstring) : option jsstring :=
  match strip_prefix (lit "data:image/") s with
  | None => None
  | Some r =>
      let '(m, rest) := span (fun c => negb (code_eqb c semicolon)) r in
      if truthy m then
        match strip_prefix (lit ";base64,") rest with
        | None => None
        | Some d =>
            let '(payload, _) := span is_base64_char d in
            if truthy payload
            then Some (lit "data:image/" ++ m ++ lit ";base64," ++ payload)
            else None
        end
      else None
  end.

(** [content.match(...)]: the leftmost match. *)
Fixpoint find_data_uri (s : jsstring) : option jsstring :=
  match data_uri_here s with
  | Some m => Some m
  | None =>
      match s with
      | [] => None
      | _ :: s' => find_data_uri s'
      end
  end.

(** [s.split(sep)] for a one-character separator. *)
Fixpoint split (sep : N) (s : jsstring) : list jsstring :=
  match s with
  | [] => [[]]
  | c :: s' =>
      if code_eqb c sep then [] :: split sep s'
      else
        match split sep s' with
        | [] => [[c]]
        | x :: xs => (c :: x) :: xs
        end
  end.

(** [s.split(';')[0].split(':')[1]], [None] standing for [undefined]. *)
Definition mime_of_url (s : jsstring) : option jsstring :=
  nth_error (split colon (hd [] (split semicolon s))) 1.

Definition image_url_of (u : ImageUrl) : option jsstring :=
  match u with
  | UrlString s => Some s
  | UrlObject url => url
  end.

Definition image_url_truthy (u : ImageUrl) : bool :=
  match u with
  | UrlString s => truthy s
  | UrlObject _ => true
  end.

(** A part that makes the loop below call [onImage]. *)
Definition has_image (part : ContentPart) : bool :=
  match part with
  | PartObject (Some u) _ => image_url_truthy u && opt_truthy (image_url_of u)
  | _ => false
  end.

(** The text a part makes the loop below pass to [onText], if any. *)
Definition part_text (part : ContentPart) : option jsstring :=
  match part with
  | NotAnObject => None
  | PartObject image_url text =>
      if match image_url with Some u => image_url_truthy u | None => false end
      then None
      else if opt_truthy text then text else None
  end.

(** The loop over an array-valued content (lines 1059-1081). *)
Fixpoint read_parts (uuid : nat -> jsstring) (j : nat) (parts : list ContentPart)
  : list Callback * bool :=
  match parts with
  | [] => ([], false)
  | part :: rest =>
      let '(cbs, found) := read_parts uuid (S j) rest in
      match part with
      | NotAnObject => (cbs, found)
      | PartObject image_url text =>
          match image_url with
          | Some u =>
              if image_url_truthy u then
                if opt_truthy (image_url_of u) then
                  let imageUrl := opt_default (image_url_of u) [] in
                  (CbImage {| gi_id := uuid j; gi_data := imageUrl;
                              gi_mimeType := opt_default (mime_of_url imageUrl) (lit "image/png");
                              gi_status := success |} :: cbs, true)
                else (cbs, found)
              else
                if opt_truthy text
                then (CbText (opt_default text []) :: cbs, found) else (cbs, found)
          | None =>
              if opt_truthy text
              then (CbText (opt_default text []) :: cbs, found) else (cbs, found)
          end
      end
  end.

(** Lines 1036-1082: the callbacks fired for a non-empty content and
    the final value of [foundImage]. *)
Definition read_content (uuid : nat -> jsstring) (c : MessageContent)
  : list Callback * bool :=
  match c with
  | ContentString s =>
      match find_data_uri s with
      | Some uri =>
          ([CbImage {| gi_id := uuid 0; gi_data := uri;
                       gi_mimeType := opt_default (mime_of_url uri) [];
                       gi_status := success |}], true)
      | None => ([CbText s], false)
      end
  | ContentArray parts => read_parts uuid 0 parts
  | ContentOther => ([], false)
  end.

(** [!message?.content] *)
Definition content_of (m : option ChatMessage) : option MessageContent :=
  match m with
  | None => None
  | Some m' =>
      match msg_content m' with
      | Some (ContentString []) => None
      | c => c
      end
  end.

(** [choice.finish_reason === 'content_filter'] *)
Definition blocked (choice : Choice) : bool :=
  str_eqb (opt_default (finish_reason choice) []) (lit "content_filter").

Definition read_reply (uuid : nat -> jsstring) (s : Settled)
  : list Callback * option Thrown :=
  match s with
  | Rejects e => ([], Some e)
  | Resolves response =>
      match choices response with
      | None | Some [] =>
          ([], Some (thrown ImageProcessingError "No choice returned from API"))
      | Some (choice :: _) =>
          if blocked choice
          then ([], Some (thrown SafetyFilterError "Content blocked by safety filters"))
          else
            match content_of (message choice) with
            | None => ([], Some (thrown ImageProcessingError "No content in response"))
            | Some c =>
                let '(cbs, foundImage) := read_content uuid c in
                (cbs, if foundImage then None
                      else Some (thrown ImageProcessingError "No image data in response"))
            end
      end
  end.

(** The [catch] block wraps errors whose message mentions [fetch] or
    [network] into a [NetworkError] before logging (lines 1093-1108). *)
Definition classify (e : Thrown) : Thrown :=
  if includes (err_message e) (lit "fetch") || includes (err_message e) (lit "network")
  then {| err_class := NetworkError; err_message := err_message e |}
  else e.

Definition adapter (provider : nat -> nat -> Settled)
                   (generateUUID : nat -> nat -> nat -> jsstring) : Adapter :=
  {| attempt_result := fun index attempt =>
       read_reply (generateUUID index attempt) (provider index attempt);
     logged_error := classify;
     placeholder_id := fun index => generateUUID index (S MAX_RETRIES) 0 |}.


(** *** The user message (lines 815-972) *)

(** A content part of the outbound chat message:
    [{ type: 'text', text }] or
    [{ type: 'image_url', image_url: { url } }]. *)
Inductive OutPart :=
| TextOut (text : jsstring)
| ImageUrlOut (url : jsstring).

(** Lines 818-834: the same pattern as the Gemini adapter's, without
    any call of [logError]. *)
Definition extractBase64Data (dataUri : jsstring) : option ImageInput :=
  match match_data_uri dataUri with
  | None => None
  | Some (mimeTypeFromData, data) =>
      let finalMimeType := or_else mimeTypeFromData (lit "image/png") in
      if negb (truthy data) || (length data =? 0) then None
      else Some {| mimeType := finalMimeType; base64Data := data |}
  end.

(** Lines 839-878. *)
Fixpoint collectSelectedImages {validation : Validation} (messages : list Message)
  : list OutPart * list Diagnostic :=
  match messages with
  | [] => ([], [])
  | msg :: rest =>
      let '(selectedImages, logs) := collectSelectedImages rest in
      match selected_image msg with
      | None => (selectedImages, logs)
      | Some selectedImg =>
          match extractBase64Data (gi_data selectedImg) with
          | None => (selectedImages, logs)
          | Some imageData =>
              if too_large (base64Data imageData) then
                (selectedImages,
                 image_diag (lit "Selected image " ++ gi_id selectedImg
                             ++ lit " is too large ("
                             ++ toFixed2 (base64Data imageData) ++ lit "MB)") :: logs)
              else (ImageUrlOut (gi_data selectedImg) :: selectedImages, logs)
          end
      end
  end.

(** Intentionally empty: prior text is not carried forward
    (lines 880-886). *)
Definition buildHistory (_messages : list Message) : list (Role * list OutPart) := [].

(** Lines 937-965. *)
Fixpoint filter_uploads {validation : Validation} (uploadedImages : list UploadedImage)
  : list OutPart * list Diagnostic :=
  match uploadedImages with
  | [] => ([], [])
  | img :: rest =>
      let '(parts, logs) := filter_uploads rest in
      match extractBase64Data (ui_data img) with
      | None => (parts, logs)
      | Some imageData =>
          if too_large (base64Data imageData) then
            (parts,
             image_diag (lit "Image " ++ ui_id img ++ lit " is too large ("
                         ++ toFixed2 (base64Data imageData) ++ lit "MB)") :: logs)
          else (ImageUrlOut (ui_data img) :: parts, logs)
      end
  end.

Definition nothing_to_send : Thrown :=
  thrown ImageProcessingError "At least one image or text prompt is required.".

(** Everything [generateImageBatchStreamOpenAI] does before the pool is
    set up (lines 906-972): the diagnostics logged, and the content of
    the user message or the error the call is rejected with. *)
Definition prepare {validation : Validation} (apiKey prompt : jsstring) (history : list Message)
    (uploadedImages : option (list UploadedImage))
  : list Diagnostic * Result (list OutPart) :=
  match validateApiKey apiKey with
  | Some e => ([], Throw e)
  | None =>
      match (if truthy prompt then validatePrompt prompt else None) with
      | Some e => ([], Throw e)
      | None =>
          let textParts := if truthy prompt then [TextOut prompt] else [] in
          let '(selectedImages, logs1) := collectSelectedImages history in
          let '(uploaded, logs2) :=
            match uploadedImages with
            | Some ((_ :: _) as imgs) => filter_uploads imgs
            | _ => ([], [])
            end in
          let userContent := textParts ++ selectedImages ++ uploaded in
          if length userContent =? 0
          then (logs1 ++ logs2, Throw nothing_to_send)
          else (logs1 ++ logs2, Ok userContent)
      end
  end.

(** *** What every attempt sends (lines 974-987 and 1008-1018) *)

Record ExtraBody := {
  modalities : list jsstring;
  aspect_ratio : option jsstring;
  eb_resolution : option jsstring
}.

Record ChatRequest := {
  req_model : jsstring;
  req_messages : list (Role * list OutPart);
  req_extra_body : ExtraBody
}.

Definition outbound (modelName : jsstring) (history : list Message)
    (settings : AppSettings) (userContent : list OutPart) : ChatRequest :=
  {| req_model := modelName;
     req_messages := buildHistory history ++ [(user, userContent)];
     req_extra_body :=
       {| modalities := [lit "image"];
          aspect_ratio :=
            match aspectRatio settings with
            | Auto => None
            | a => Some (aspect_string a)
            end;
          eb_resolution := Some (resolution_string (resolution settings)) |} |}.

Definition generateImageBatchStreamOpenAI {validation : Validation}
    (provider : nat -> nat -> Settled) (generateUUID : nat -> nat -> nat -> jsstring)
    (apiKey prompt : jsstring) (history : list Message) (settings : AppSettings)
    (uploadedImages : option (list UploadedImage)) (signal : bool)
    (sched : list Tick) : list Diagnostic * Result Pool :=
  match prepare apiKey prompt history uploadedImages with
  | (logs, Throw e) => (logs, Throw e)
  | (logs, Ok _) =>
      (logs, Ok (run (adapter := adapter provider generateUUID)
                   (batchSize settings) sched (start (batchSize settings) signal)))
  end.

End OpenAI.

(** ** The previous revision of the Gemini adapter (lines 468-795)

    Only what it sends is needed here: it carried the selected images of
    earlier turns as separate history entries (lines 512-551) in front of
    the user message (lines 709-712). *)

Module GeminiPrev.

(** The body of the loop of [buildHistory] for one message: the parts
    collected for it. *)
Definition history_parts (msg : Message) : list OutPart * list Diagnostic :=
  match msg_role msg with
  | user => ([], [])
  | model =>
      match msg_images msg with
      | None | Some [] => ([], [])
      | Some imgs =>
          match List.find (fun img => id_eqb (gi_id img) (msg_selectedImageId msg)) imgs with
          | Some selectedImg =>
              match gi_status selectedImg with
              | success =>
                  match extractBase64Data (gi_data selectedImg) (Some (gi_id selectedImg)) with
                  | (Some imageData, d) =>
                      ([InlineDataPart (mimeType imageData) (base64Data imageData)], d)
                  | (None, d) => ([], d)
                  end
              | error => ([], [])
              end
          | None => ([], [])
          end
      end
  end.

Fixpoint buildHistory (messages : list Message) : list OutContent * list Diagnostic :=
  match messages with
  | [] => ([], [])
  | msg :: rest =>
      let '(history, logs) := buildHistory rest in
      let '(parts, d) := history_parts msg in
      if 0 <? length parts
      then ({| out_role := msg_role msg; out_parts := parts |} :: history, d ++ logs)
      else (history, d ++ logs)
  end.

(** [[...formattedHistory, { role: 'user', parts: userParts }]] *)
Definition contents (history : list Message) (userParts : list OutPart)
  : list OutContent :=
  fst (buildHistory history) ++ [{| out_role := user; out_parts := userParts |}].

End GeminiPrev.

(** ** Readings of what is sent *)

(** What the adapters read of an earlier message: its role, its images
    and which of them was selected.  Its [text] and [textVariations] are
    not part of it. *)
Definition context_of (m : Message)
  : Role * option (list GeneratedImage) * option jsstring :=
  (msg_role m, msg_images m, msg_selectedImageId m).

Definition is_user (r : Role) : bool :=
  match r with user => true | model => false end.

(** The number of user-role messages in outbound contents. *)
Definition user_messages (cs : list OutContent) : nat :=
  length (List.filter (fun c => is_user (out_role c)) cs).

(** The uploads handed to the batch, none when the argument is
    [undefined]. *)
Definition supplied (uploadedImages : option (list UploadedImage)) : list UploadedImage :=
  match uploadedImages with Some imgs => imgs | None => [] end.

(** ** Sample batches

    Concrete providers and schedules on which the statements below are
    evaluated. *)

Definition sample_uuid (i a j : nat) : jsstring :=
  lit "id-" ++ decimal i ++ lit "-" ++ decimal a ++ lit "-" ++ decimal j.

Definition image_part (payload : string) : Gemini.Part :=
  {| Gemini.part_inlineData :=
       Some {| Gemini.inl_data := Some (lit payload);
               Gemini.inl_mimeType := Some (lit "image/png");
               Gemini.inl_mime_type := None |};
     Gemini.part_inline_data := None;
     Gemini.part_text := None |}.

Definition text_part (t : string) : Gemini.Part :=
  {| Gemini.part_inlineData := None; Gemini.part_inline_data := None;
     Gemini.part_text := Some (lit t) |}.

Definition reply_of (parts : list Gemini.Part) : Gemini.Settled :=
  Gemini.Resolves
    {| Gemini.candidates :=
         Some [{| Gemini.finishReason := Some (lit "STOP");
                  Gemini.finish_reason := None;
                  Gemini.content := Some {| Gemini.content_parts := Some parts |} |}] |}.

(** Every call returns two images. *)
Definition two_images : nat -> nat -> Gemini.Settled :=
  fun _ _ => reply_of [image_part "AAAA"; image_part "BBBB"].

(** Every call returns text and no image. *)
Definition only_text : nat -> nat -> Gemini.Settled :=
  fun _ _ => reply_of [text_part "I cannot draw that."].

(** Slot 0 is refused by the safety filter every time, slot 1 fails twice
    on the network and then delivers an image, every other slot delivers
    an image at once. *)
Definition mixed : nat -> nat -> Gemini.Settled :=
  fun i a =>
    match i with
    | 0 =>
        Gemini.Resolves
          {| Gemini.candidates :=
               Some [{| Gemini.finishReason := Some (lit "SAFETY");
                        Gemini.finish_reason := None;
                        Gemini.content := None |}] |}
    | 1 =>
        if a <? 2 then Gemini.Rejects (thrown NetworkError "fetch failed")
        else reply_of [image_part "CCCC"]
    | _ => reply_of [image_part "DDDD"]
    end.

(** An environment in which every key and every prompt passes
    validation, with the limit of 20 MB the specification gives as an
    example. *)
Definition lenient : Validation :=
  {| MAX_IMAGE_SIZE_MB := 20;
     validateApiKey := fun _ => None;
     validatePrompt := fun _ => None |}.

Definition upload (id data : string) : UploadedImage :=
  {| ui_id := lit id; ui_data := lit data; ui_mimeType := lit "image/png";
     ui_name := None |}.

(** An upload whose data is not a data URI, and two that are fine. *)
Definition broken_upload : UploadedImage := upload "u1" "not-a-data-uri".
Definition first_upload : UploadedImage := upload "u2" "data:image/png;base64,AAAA".
Definition second_upload : UploadedImage := upload "u3" "data:image/jpeg;base64,BBBB".

(** An earlier model turn with one generated image, selected, and the
    given text. *)
Definition earlier_turn (text : string) : Message :=
  {| msg_id := lit "m1"; msg_role := model; msg_text := Some (lit text);
     msg_textVariations := Some [lit text];
     msg_images :=
       Some [{| gi_id := lit "g1"; gi_data := lit "data:image/png;base64,CCCC";
                gi_mimeType := lit "image/png"; gi_status := success |}];
     msg_uploadedImages := None; msg_selectedImageId := Some (lit "g1");
     msg_timestamp := 0; msg_isError := None |}.

(** The schedule that keeps resuming the first pending worker of a batch
    of [k] slots until all have returned. *)
Definition run_to_end (adapter : Adapter) (k : nat) : list Tick :=
  drain (adapter := adapter) k (measure (start k false)) (start k false).

(** ** Further readings of the event log *)

Definition is_request (e : Event) : bool :=
  match e with Request _ _ => true | _ => false end.

Definition is_wait (e : Event) : bool :=
  match e with Wait _ _ => true | _ => false end.

(** The calls of [onImage] and [onText]. *)
Definition is_callback (e : Event) : bool :=
  match e with OnImage _ _ | OnText _ _ => true | _ => false end.

(** The number of provider calls and of backoff waits in a log, and the
    time spent waiting, in milliseconds. *)
Definition requests (es : list Event) : nat :=
  length (List.filter is_request es).

Definition waits (es : list Event) : nat :=
  length (List.filter is_wait es).

Definition wait_of (e : Event) : Z :=
  match e with Wait _ ms => ms | _ => 0%Z end.

Definition waited (es : list Event) : Z :=
  fold_right Z.add 0%Z (map wait_of es).

(** The slots in the order in which they were first sent to the
    provider. *)
Definition first_request (e : Event) : option nat :=
  match e with Request i 0 => Some i | _ => None end.

Definition started (es : list Event) : list nat :=
  omap first_request es.

(** The slots started so far and the slots still queued are, together
    and in this order, the slots of the batch; a worker that sleeps has
    made at least one attempt. *)
Definition Ordered (batchSize : nat) (p : Pool) : Prop :=
  started (events p) ++ taskQueue p = seq 0 batchSize
  /\ forall w i a, workers p !! w = Some (Sleeping i a) -> 1 <= a.

(** The position of the last attempt of a slot: the first attempt that
    does not fail, or the last one allowed. *)
Fixpoint last_attempt_from {adapter : Adapter} (i a fuel : nat) : nat :=
  match fuel with
  | 0 => a
  | S fuel' => if fails i a then last_attempt_from i (S a) fuel' else a
  end.

Definition last_attempt {adapter : Adapter} (i : nat) : nat :=
  last_attempt_from i 0 MAX_RETRIES.

(** The [onImage] and [onText] calls of a slot that is worked to its
    end: those of every attempt up to the last, then the placeholder if
    the last attempt failed too. *)
Definition slot_callbacks {adapter : Adapter} (i : nat) : list Event :=
  concat (map (callbacks i) (seq 0 (S (last_attempt i))))
  ++ (if fails i (last_attempt i) then [OnImage i (error_image i)] else []).

(** ** The two spellings of the wire format *)

(** The part sent through a proxy for a part sent through the SDK
    (lines 302-317). *)
Definition proxy_form (part : OutPart) : OutPart :=
  match part with
  | InlineDataPart mime data => Inline_dataPart mime data
  | other => other
  end.

(** A reply written with the SDK's field names only, and the same
    reply with the field names of the REST interface. *)
Definition camel_inline (d : Gemini.InlineData) : bool :=
  match Gemini.inl_mime_type d with None => true | Some _ => false end.

Definition camel_part (part : Gemini.Part) : bool :=
  match Gemini.part_inline_data part with
  | Some _ => false
  | None =>
      match Gemini.part_inlineData part with
      | Some d => camel_inline d
      | None => true
      end
  end.

Definition camel_candidate (c : Gemini.Candidate) : bool :=
  match Gemini.finish_reason c with
  | Some _ => false
  | None =>
      match Gemini.content c with
      | Some {| Gemini.content_parts := Some parts |} => forallb camel_part parts
      | _ => true
      end
  end.

Definition camel_response (r : Gemini.Response) : bool :=
  match Gemini.candidates r with
  | Some cs => forallb camel_candidate cs
  | None => true
  end.

Definition snake_inline (d : Gemini.InlineData) : Gemini.InlineData :=
  {| Gemini.inl_data := Gemini.inl_data d;
     Gemini.inl_mimeType := None;
     Gemini.inl_mime_type := Gemini.inl_mimeType d |}.

Definition snake_part (part : Gemini.Part) : Gemini.Part :=
  {| Gemini.part_inlineData := None;
     Gemini.part_inline_data := snake_inline <$> Gemini.part_inlineData part;
     Gemini.part_text := Gemini.part_text part |}.

Definition snake_content (c : Gemini.Content) : Gemini.Content :=
  {| Gemini.content_parts := map snake_part <$> Gemini.content_parts c |}.

Definition snake_candidate (c : Gemini.Candidate) : Gemini.Candidate :=
  {| Gemini.finishReason := None;
     Gemini.finish_reason := Gemini.finishReason c;
     Gemini.content := snake_content <$> Gemini.content c |}.

Definition snake_response (r : Gemini.Response) : Gemini.Response :=
  {| Gemini.candidates := map snake_candidate <$> Gemini.candidates r |}.

(** ** What [imageRefPattern] describes (lines 269-277)

    The four alternatives of the pattern, as sets of strings: [图] and
    one or more numerals; [image] in either case, white space, a digit
    from 1 to 9 and further digits; [第], one or more numerals and
    [张]; [第], a number without a leading zero and [张]. *)
Inductive image_ref : jsstring -> Prop :=
| ref_figure (m : jsstring) :
    m <> [] -> forallb Gemini.is_numeral m = true ->
    image_ref (0x56fe%N :: m)
| ref_image (w sp ds : jsstring) (d : N) :
    map Gemini.upper w = map Gemini.upper (lit "image") ->
    forallb is_space sp = true ->
    is_digit19 d = true -> forallb is_digit ds = true ->
    image_ref (w ++ sp ++ d :: ds)
| ref_nth (m : jsstring) :
    m <> [] -> forallb Gemini.is_numeral m = true ->
    image_ref (0x7b2c%N :: m ++ [0x5f20%N])
| ref_nth_number (d : N) (ds : jsstring) :
    is_digit19 d = true -> forallb is_digit ds = true ->
    image_ref (0x7b2c%N :: d :: ds ++ [0x5f20%N]).

(** ** Well-formed strings *)

(** A UTF-16 code unit, and the surrogates among them. *)
Definition is_code_unit (c : N) : Prop := (c < 65536)%N.

Definition is_surrogate (c : N) : bool :=
  is_high_surrogate c || is_low_surrogate c.

(** What may appear in the result of [encodeURIComponent]: the
    characters it leaves alone and the percent sign of an escape (the
    hexadecimal digits of an escape are among the former). *)
Definition is_uri_safe (c : N) : bool :=
  is_unreserved c || (c =? 37)%N.

(** ** Provider settings ([useProviderConfig], [src/unnamed/part_001],
       lines 1-161)

    The hook keeps the provider configuration in React state and mirrors
    it in [localStorage].  A state of the model is the pair of the two;
    every updater of the hook is a function on it. *)

Module ProviderSettings.

Definition PROVIDER : string := "app_provider".
Definition GEMINI_API_KEY : string := "user_gemini_api_key".
Definition GEMINI_BASE_URL : string := "user_gemini_base_url".
Definition OPENAI_API_KEY : string := "user_openai_api_key".
Definition OPENAI_BASE_URL : string := "user_openai_base_url".
Definition OPENAI_MODEL : string := "user_openai_model".
(** The key of the Gemini model is written out where it is used. *)
Definition GEMINI_MODEL : string := "user_gemini_model".

Definition DEFAULT_OPENAI_BASE_URL : jsstring := lit "https://api.openai.com/v1".
Definition DEFAULT_OPENAI_MODEL : jsstring := lit "gemini-3-pro-image-preview".
Definition DEFAULT_GEMINI_MODEL : jsstring := lit "gemini-3-pro-image-preview".

Abbreviation Storage := (gmap string jsstring).

Record State := {
  config : ProviderConfig;
  localStorage : Storage
}.

Definition provider_string (p : Provider) : jsstring :=
  match p with gemini => lit "gemini" | openai => lit "openai" end.

(** Lines 20-25. *)
Definition getStoredGeminiBaseUrl (ls : Storage) : option jsstring :=
  match ls !! GEMINI_BASE_URL with
  | None => None
  | Some value =>
      if negb (truthy value) then None
      else
        let trimmed := trim value in
        if 0 <? length trimmed then Some trimmed else None
  end.

(** The initializer of [useState] (lines 31-54). *)
Definition initial (ls : Storage) : ProviderConfig :=
  let storedProvider := ls !! PROVIDER in
  let provider :=
    match storedProvider with
    | Some s => if str_eqb s (lit "openai") then openai else gemini
    | None => gemini
    end in
  match provider with
  | openai =>
      {| provider := openai;
         apiKey := opt_default (ls !! OPENAI_API_KEY) [];
         baseUrl := Some (opt_default (ls !! OPENAI_BASE_URL) DEFAULT_OPENAI_BASE_URL);
         pc_model := Some (opt_default (ls !! OPENAI_MODEL) DEFAULT_OPENAI_MODEL) |}
  | gemini =>
      {| provider := gemini;
         apiKey := opt_default (ls !! GEMINI_API_KEY) [];
         baseUrl := getStoredGeminiBaseUrl ls;
         pc_model := Some (opt_default (ls !! GEMINI_MODEL) DEFAULT_GEMINI_MODEL) |}
  end.

Definition mount (ls : Storage) : State :=
  {| config := initial ls; localStorage := ls |}.

(** [{ ...prev, field: value }] *)
Definition with_provider (c : ProviderConfig) (p : Provider) : ProviderConfig :=
  {| provider := p; apiKey := apiKey c; baseUrl := baseUrl c; pc_model := pc_model c |}.

Definition with_apiKey (c : ProviderConfig) (k : jsstring) : ProviderConfig :=
  {| provider := provider c; apiKey := k; baseUrl := baseUrl c; pc_model := pc_model c |}.

Definition with_baseUrl (c : ProviderConfig) (b : option jsstring) : ProviderConfig :=
  {| provider := provider c; apiKey := apiKey c; baseUrl := b; pc_model := pc_model c |}.

Definition with_model (c : ProviderConfig) (m : option jsstring) : ProviderConfig :=
  {| provider := provider c; apiKey := apiKey c; baseUrl := baseUrl c; pc_model := m |}.

(** Lines 56-79. *)
Definition updateProvider (p : Provider) (st : State) : State :=
  let prev := config st in
  let ls := localStorage st in
  let newConfig := with_provider prev p in
  let newConfig :=
    match p with
    | openai =>
        let c1 := with_apiKey newConfig (opt_default (ls !! OPENAI_API_KEY) []) in
        let c2 := with_baseUrl c1
                    (Some (opt_default (ls !! OPENAI_BASE_URL) DEFAULT_OPENAI_BASE_URL)) in
        with_model c2 (Some (opt_default (ls !! OPENAI_MODEL) DEFAULT_OPENAI_MODEL))
    | gemini =>
        let c1 := with_apiKey newConfig (opt_default (ls !! GEMINI_API_KEY) []) in
        let c2 := with_model c1
                    (Some (opt_default (ls !! GEMINI_MODEL) DEFAULT_GEMINI_MODEL)) in
        with_baseUrl c2 (getStoredGeminiBaseUrl ls)
    end in
  {| config := newConfig; localStorage := <[PROVIDER := provider_string p]> ls |}.

(** The error thrown for a key whose validation failed with something
    else than a [ValidationError] (line 113). *)
Definition invalid_key : Thrown :=
  {| err_class := ValidationError;
     err_message := lit "API Key " ++ [0x683c; 0x5f0f; 0x65e0; 0x6548]%N |}.

(** Lines 81-118: the new state, or the error thrown to the caller, in
    which case no updater has run. *)
Definition updateApiKey {validation : Validation} (key : jsstring) (st : State)
  : Result State :=
  let prev := config st in
  let ls := localStorage st in
  if negb (truthy key) then
    Ok {| config := with_apiKey prev [];
          localStorage :=
            match provider prev with
            | openai => delete OPENAI_API_KEY ls
            | gemini => delete GEMINI_API_KEY ls
            end |}
  else
    match validateApiKey key with
    | None =>
        Ok {| config := with_apiKey prev key;
              localStorage :=
                match provider prev with
                | openai => <[OPENAI_API_KEY := key]> ls
                | gemini => <[GEMINI_API_KEY := key]> ls
                end |}
    | Some err =>
        match err_class err with
        | ValidationError => Throw err
        | _ => Throw invalid_key
        end
    end.

(** Lines 120-141. *)
Definition updateBaseUrl (url : jsstring) (st : State) : State :=
  let prev := config st in
  let ls := localStorage st in
  match provider prev with
  | openai =>
      {| config := with_baseUrl prev (Some (or_else url DEFAULT_OPENAI_BASE_URL));
         localStorage := <[OPENAI_BASE_URL := or_else url DEFAULT_OPENAI_BASE_URL]> ls |}
  | gemini =>
      let trimmed := trim url in
      if length trimmed =? 0 then
        {| config := with_baseUrl prev None;
           localStorage := delete GEMINI_BASE_URL ls |}
      else
        {| config := with_baseUrl prev (Some trimmed);
           localStorage := <[GEMINI_BASE_URL := trimmed]> ls |}
  end.

(** Lines 143-154. *)
Definition updateModel (model : jsstring) (st : State) : State :=
  let prev := config st in
  let ls := localStorage st in
  {| config := with_model prev (Some model);
     localStorage :=
       match provider prev with
       | openai => <[OPENAI_MODEL := model]> ls
       | gemini => <[GEMINI_MODEL := model]> ls
       end |}.

(** What the settings panel can ask of the hook.  A key that is refused
    leaves the state as it was: the error is thrown before any updater
    is queued. *)
Inductive Action :=
| SetProvider (p : Provider)
| SetApiKey (key : jsstring)
| SetBaseUrl (url : jsstring)
| SetModel (name : jsstring).

Definition act {validation : Validation} (a : Action) (st : State) : State :=
  match a with
  | SetProvider p => updateProvider p st
  | SetApiKey key =>
      match updateApiKey key st with
      | Ok st' => st'
      | Throw _ => st
      end
  | SetBaseUrl url => updateBaseUrl url st
  | SetModel name => updateModel name st
  end.

Definition acts {validation : Validation} (l : list Action) (st : State) : State :=
  fold_left (fun s a => act a s) l st.

(** The state agrees with what a reload of the page would read from
    [localStorage]. *)
Definition synced (st : State) : Prop :=
  config st = initial (localStorage st).

Definition sets_empty_model (a : Action) : bool :=
  match a with SetModel [] => true | _ => false end.

Definition sets_provider (a : Action) : bool :=
  match a with SetProvider _ => true | _ => false end.

(** The keys under which the values of a provider are stored. *)
Definition keys_of (p : Provider) : list string :=
  match p with
  | openai => [OPENAI_API_KEY; OPENAI_BASE_URL; OPENAI_MODEL]
  | gemini => [GEMINI_API_KEY; GEMINI_BASE_URL; GEMINI_MODEL]
  end.

(** The settings handed to the adapters for a batch. *)
Definition settings_of (st : State) (k : nat) (a : AspectRatio) (r : Resolution)
  : AppSettings :=
  {| batchSize := k; aspectRatio := a; resolution := r; providerConfig := config st |}.

(** The provider a reload would select, and the configuration it would
    read for a provider. *)
Definition stored_provider (ls : Storage) : Provider :=
  match ls !! PROVIDER with
  | Some s => if str_eqb s (lit "openai") then openai else gemini
  | None => gemini
  end.

Definition stored_config (p : Provider) (ls : Storage) : ProviderConfig :=
  match p with
  | openai =>
      {| provider := openai;
         apiKey := opt_default (ls !! OPENAI_API_KEY) [];
         baseUrl := Some (opt_default (ls !! OPENAI_BASE_URL) DEFAULT_OPENAI_BASE_URL);
         pc_model := Some (opt_default (ls !! OPENAI_MODEL) DEFAULT_OPENAI_MODEL) |}
  | gemini =>
      {| provider := gemini;
         apiKey := opt_default (ls !! GEMINI_API_KEY) [];
         baseUrl := getStoredGeminiBaseUrl ls;
         pc_model := Some (opt_default (ls !! GEMINI_MODEL) DEFAULT_GEMINI_MODEL) |}
  end.

Definition model_key (p : Provider) : string :=
  match p with openai => OPENAI_MODEL | gemini => GEMINI_MODEL end.

(** The state agrees with a reload in everything but, possibly, a model
    that was set to the empty string: the reload then shows the default
    model. *)
Definition nearly_synced (st : State) : Prop :=
  provider (config st) = provider (initial (localStorage st))
  /\ apiKey (config st) = apiKey (initial (localStorage st))
  /\ baseUrl (config st) = baseUrl (initial (localStorage st))
  /\ (pc_model (config st) = pc_model (initial (localStorage st))
      \/ (pc_model (config st) = Some []
          /\ localStorage st !! model_key (provider (config st)) = Some [])).

End ProviderSettings.

(** ** Histories on which the two revisions can be compared *)

(** No message names the empty string as its selected image. *)
Definition selection_named (m : Message) : Prop :=
  msg_selectedImageId m <> Some [].

(** The selected image of the message, if it has one that can be read,
    is within the size limit. *)
Definition selection_fits {validation : Validation} (m : Message) : Prop :=
  forall img d,
    selected_image m = Some img ->
    OpenAI.extractBase64Data (gi_data img) = Some d ->
    too_large (base64Data d) = false.

(** ** Further samples *)

Definition key_with_reserved : jsstring := lit "a b&c=d".

Definition camel_reply : Gemini.Response :=
  {| Gemini.candidates :=
       Some [{| Gemini.finishReason := Some (lit "STOP");
                Gemini.finish_reason := None;
                Gemini.content :=
                  Some {| Gemini.content_parts :=
                            Some [text_part "here it is"; image_part "AAAA"] |} |}] |}.

Definition stored_gemini : ProviderSettings.Storage :=
  <[ProviderSettings.GEMINI_API_KEY := lit "g-key"]>
    (<[ProviderSettings.GEMINI_BASE_URL := lit "https://proxy.example"]> (empty : ProviderSettings.Storage)).

(* ===================================================================== *)
(** * Part II: properties *)
(* ===================================================================== *)

Example extract_png :
  extractBase64Data (lit "data:image/png;base64,iVBORw0KGgo=") None
  = (Some {| mimeType := lit "image/png"; base64Data := lit "iVBORw0KGgo=" |}, []).
Proof. reflexivity. Qed.

(** ** Strings *)

Lemma code_eqb_eq (a b : N) : code_eqb a b = true <-> a = b.
Proof. unfold code_eqb. apply N.eqb_eq. Qed.

Lemma code_eqb_refl (a : N) : code_eqb a a = true.
Proof. by apply code_eqb_eq. Qed.

Lemma code_eqb_neq (a b : N) : code_eqb a b = false <-> a <> b.
Proof. unfold code_eqb. apply N.eqb_neq. Qed.

Lemma str_eqb_eq (a b : jsstring) : str_eqb a b = true <-> a = b.
Proof.
  revert b. induction a as [|x a IH]; intros [|y b]; simpl; try easy.
  rewrite andb_true_iff, code_eqb_eq, IH. split.
  - intros [-> ->]. reflexivity.
  - intros [= -> ->]. easy.
Qed.

Lemma truthy_true (s : jsstring) : truthy s = true <-> s <> [].
Proof. destruct s; simpl; split; congruence. Qed.

Lemma strip_prefix_app (p s : jsstring) : strip_prefix p (p ++ s) = Some s.
Proof.
  induction p as [|x p IH]; simpl; [reflexivity|].
  by rewrite code_eqb_refl.
Qed.

Lemma strip_prefix_Some (p s r : jsstring) :
  strip_prefix p s = Some r -> s = p ++ r.
Proof.
  revert s. induction p as [|x p IH]; intros s; simpl.
  - by intros [= ->].
  - destruct s as [|y s]; [discriminate|].
    destruct (code_eqb x y) eqn:E; [|discriminate].
    apply code_eqb_eq in E as ->. intros Hs. by rewrite (IH _ Hs).
Qed.

Lemma startsWith_app (p s : jsstring) : startsWith (p ++ s) p = true.
Proof. unfold startsWith. by rewrite strip_prefix_app. Qed.

Lemma startsWith_true (s p : jsstring) :
  startsWith s p = true <-> exists r, s = p ++ r.
Proof.
  unfold startsWith. split.
  - destruct (strip_prefix p s) as [r|] eqn:E; [|discriminate].
    intros _. exists r. by apply strip_prefix_Some.
  - intros [r ->]. by rewrite strip_prefix_app.
Qed.

Lemma includes_true (s p : jsstring) :
  includes s p = true <-> exists a b, s = a ++ p ++ b.
Proof.
  split.
  - induction s as [|c s IH]; simpl; rewrite orb_true_iff.
    + intros [H|H]; [|discriminate].
      apply startsWith_true in H as [r ->]. by exists [], r.
    + intros [H|H].
      * apply startsWith_true in H as [r ->]. by exists [], r.
      * destruct (IH H) as (a & b & ->). by exists (c :: a), b.
  - intros (a & b & ->). induction a as [|c a IH]; simpl.
    + destruct (p ++ b) eqn:E; simpl; rewrite <- E;
        by rewrite startsWith_app.
    + by rewrite IH, orb_true_r.
Qed.


Lemma span_spec (f : N -> bool) (s a b : jsstring) :
  span f s = (a, b) ->
  s = a ++ b /\ forallb f a = true /\ (match b with [] => True | c :: _ => f c = false end).
Proof.
  revert a b. induction s as [|c s IH]; intros a b; simpl.
  - by intros [= <- <-].
  - destruct (f c) eqn:E.
    + destruct (span f s) as [a' b'] eqn:Es. intros [= <- <-].
      destruct (IH _ _ eq_refl) as (-> & Ha & Hb). simpl. by rewrite E, Ha.
    + intros [= <- <-]. simpl. by rewrite E.
Qed.

Lemma span_app (f : N -> bool) (a b : jsstring) :
  forallb f a = true ->
  (match b with [] => True | c :: _ => f c = false end) ->
  span f (a ++ b) = (a, b).
Proof.
  intros Ha Hb. induction a as [|c a IH]; simpl in *.
  - destruct b as [|c b]; simpl; [reflexivity|]. by rewrite Hb.
  - apply andb_true_iff in Ha as [-> Ha]. by rewrite (IH Ha).
Qed.

(** ** Data URIs *)

(** [match_data_uri] computes the match of the pattern: it succeeds
    exactly on the strings of the shape the pattern describes, with the
    capture groups the pattern would bind. *)
Lemma match_data_uri_Some (s m d : jsstring) :
  match_data_uri s = Some (m, d) <->
  s = lit "data:" ++ m ++ lit ";base64," ++ d
  /\ m <> [] /\ Forall (fun c => c <> semicolon) m
  /\ d <> [] /\ Forall (fun c => is_line_terminator c = false) d.
Proof.
  unfold match_data_uri. split.
  - destruct (strip_prefix (lit "data:") s) as [r|] eqn:E1; [|discriminate].
    apply strip_prefix_Some in E1 as ->.
    destruct (span _ r) as [m' rest] eqn:E2.
    apply span_spec in E2 as (-> & Hm & _).
    destruct (truthy m') eqn:E3; [|discriminate].
    destruct (strip_prefix (lit ";base64,") rest) as [d'|] eqn:E4; [|discriminate].
    apply strip_prefix_Some in E4 as ->.
    destruct (truthy d' && _) eqn:E5; [|discriminate].
    intros [= <- <-]. apply andb_true_iff in E5 as [E5 E6].
    split; [reflexivity|]. split; [by apply truthy_true|]. split.
    + apply Forall_forall. intros c Hc.
      rewrite forallb_forall in Hm. specialize (Hm c).
      rewrite negb_true_iff, code_eqb_neq in Hm. apply Hm.
      by apply list_elem_of_In.
    + split; [by apply truthy_true|].
      apply Forall_forall. intros c Hc.
      rewrite forallb_forall in E6. specialize (E6 c).
      rewrite negb_true_iff in E6. apply E6. by apply list_elem_of_In.
  - intros (-> & Hm & Hsemi & Hd & Hline).
    rewrite strip_prefix_app.
    rewrite (span_app _ m (lit ";base64," ++ d)).
    + apply truthy_true in Hm as ->. rewrite strip_prefix_app.
      apply truthy_true in Hd as ->. simpl.
      replace (forallb _ d) with true; [reflexivity|].
      symmetry. apply forallb_forall. intros c Hc.
      rewrite Forall_forall in Hline. rewrite (Hline c); [reflexivity|].
      by apply list_elem_of_In.
    + apply forallb_forall. intros c Hc.
      rewrite Forall_forall in Hsemi. apply negb_true_iff, code_eqb_neq.
      apply Hsemi. by apply list_elem_of_In.
    + reflexivity.
Qed.

Lemma base64_char_not_line_terminator (c : N) :
  is_base64_char c = true -> is_line_terminator c = false.
Proof.
  unfold is_base64_char, is_line_terminator, is_digit. intros H.
  repeat match goal with
  | |- context [(c =? ?n)%N] => destruct (N.eqb_spec c n) as [->|]; [by vm_compute in H|]
  end.
  reflexivity.
Qed.

Lemma match_data_uri_marker (s m d : jsstring) :
  match_data_uri s = Some (m, d) -> includes s (lit "base64,") = true.
Proof.
  intros H. apply match_data_uri_Some in H as (-> & _).
  apply includes_true. exists (lit "data:" ++ m ++ lit ";"), d.
  by rewrite <- !app_assoc.
Qed.

(** C8. Decoding [data:{mime};base64,{data}] gives back [(mime, data)]
    and logs nothing; a data URI with an empty payload, and any string
    without the [base64,] marker, decode to [null] with exactly one logged
    diagnostic.  The extractor is a total function: it never throws. *)
Theorem extractBase64Data_roundtrip (mime data : jsstring) (imageId : option jsstring) :
  is_mime_type mime ->
  is_base64_payload data ->
  extractBase64Data (data_uri mime data) imageId
    = (Some {| mimeType := mime; base64Data := data |}, [])
  /\ extractBase64Data (data_uri mime []) imageId
    = (None, [image_diag (lit "Invalid image data format" ++ for_image imageId)])
  /\ (forall s, includes s (lit "base64,") = false ->
        extractBase64Data s imageId
        = (None, [image_diag (lit "Invalid image data format" ++ for_image imageId)])).
Proof.
  intros [Hm Hsemi] [Hd Hb64]. split; [|split].
  - unfold extractBase64Data.
    assert (match_data_uri (data_uri mime data) = Some (mime, data)) as ->.
    { apply match_data_uri_Some. repeat split; try done.
      eapply Forall_impl; [exact Hb64|]. apply base64_char_not_line_terminator. }
    unfold or_else. apply truthy_true in Hm as ->.
    destruct data as [|c data]; [done|]. reflexivity.
  - unfold extractBase64Data.
    destruct (match_data_uri (data_uri mime [])) as [[m d]|] eqn:E; [|reflexivity].
    exfalso. apply match_data_uri_Some in E as (E & Hm' & Hsemi' & Hd' & _).
    unfold data_uri in E. apply app_inv_head in E.
    assert (span (fun c => negb (code_eqb c semicolon)) (mime ++ lit ";base64," ++ [])
            = (mime, lit ";base64," ++ [])) as E1.
    { apply span_app; [|reflexivity]. apply forallb_forall. intros c Hc.
      rewrite Forall_forall in Hsemi. apply negb_true_iff, code_eqb_neq, Hsemi.
      by apply list_elem_of_In. }
    assert (span (fun c => negb (code_eqb c semicolon)) (m ++ lit ";base64," ++ d)
            = (m, lit ";base64," ++ d)) as E2.
    { apply span_app; [|reflexivity]. apply forallb_forall. intros c Hc.
      rewrite Forall_forall in Hsemi'. apply negb_true_iff, code_eqb_neq, Hsemi'.
      by apply list_elem_of_In. }
    rewrite E in E1. rewrite E1 in E2. injection E2 as _ E2.
    symmetry in E2. contradiction.
  - intros s Hs. unfold extractBase64Data.
    destruct (match_data_uri s) as [[m d]|] eqn:E; [|reflexivity].
    apply match_data_uri_marker in E. congruence.
Qed.

Lemma extractBase64Data_roundtrip_witness :
  extractBase64Data (data_uri (lit "image/png") (lit "iVBORw0KGgo=")) None
    = (Some {| mimeType := lit "image/png"; base64Data := lit "iVBORw0KGgo=" |}, [])
  /\ extractBase64Data (data_uri (lit "image/png") []) None
    = (None, [image_diag (lit "Invalid image data format" ++ for_image None)])
  /\ (forall s, includes s (lit "base64,") = false ->
        extractBase64Data s None
        = (None, [image_diag (lit "Invalid image data format" ++ for_image None)])).
Proof.
  apply (extractBase64Data_roundtrip (lit "image/png") (lit "iVBORw0KGgo=") None).
  - split; [discriminate|]. repeat constructor; discriminate.
  - split; [discriminate|]. repeat constructor.
Defined.

(** ** The worker pool: elementary facts *)

Ltac pool :=
  cbn [aborted taskQueue completedCount workers events emit set_queue
       set_completed set_workers set_aborted negb andb orb fst snd] in *.

Section PoolFacts.
Context {adapter : Adapter}.
Variable k : nat.

Lemma finish_aborted (i : nat) (ok : bool) (p : Pool) :
  aborted p = true -> finish k i ok p = (p, Returned).
Proof.
  intros Hab. unfold finish. rewrite Hab, andb_false_r. pool.
  rewrite Hab. pool. unfold claim. rewrite Hab. by destruct (taskQueue p).
Qed.

Lemma retry_aborted (i a : nat) (p : Pool) :
  aborted p = true -> retry k i a p = (p, Returned).
Proof.
  intros Hab. unfold retry. destruct (a <=? MAX_RETRIES).
  - by rewrite Hab.
  - by apply finish_aborted.
Qed.

(** Once the signal is set, a worker that is resumed fires the
    callbacks of the reply it was waiting for, if any, and returns. *)
Lemma resume_aborted (wid : nat) (ws : Worker) (p : Pool) :
  aborted p = true ->
  resume k wid ws p
  = (match ws with Calling i a => emit (callbacks i a) p | _ => p end, Returned).
Proof.
  intros Hab. destruct ws as [i a|i a|]; unfold resume.
  - unfold callbacks. destruct (attempt_result i a) as [cbs [err|]]; pool.
    + repeat (rewrite Hab; pool). rewrite andb_false_r. by apply retry_aborted.
    + by apply finish_aborted.
  - by apply retry_aborted.
  - reflexivity.
Qed.

Lemma claim_live (p : Pool) :
  aborted p = false ->
  claim p
  = match taskQueue p with
    | [] => (p, Returned)
    | i :: rest => (emit [Request i 0] (set_queue rest p), Calling i 0)
    end.
Proof. intros Hab. unfold claim. rewrite Hab. by destruct (taskQueue p). Qed.

Lemma finish_live (i : nat) (ok : bool) (p : Pool) :
  aborted p = false ->
  finish k i ok p
  = claim (emit ((if ok then [] else [OnImage i (error_image i)])
                 ++ [OnProgress i (S (completedCount p)) k])
             (set_completed (S (completedCount p)) p)).
Proof.
  intros Hab. unfold finish. rewrite Hab, andb_true_r.
  destruct ok; pool; rewrite Hab; pool; f_equal.
  unfold emit, set_completed. pool. by rewrite <- app_assoc.
Qed.

Lemma emit_emit (E1 E2 : list Event) (p : Pool) :
  emit E2 (emit E1 p) = emit (E1 ++ E2) p.
Proof. unfold emit. pool. by rewrite app_assoc. Qed.

Lemma emit_set_completed (E : list Event) (c : nat) (p : Pool) :
  set_completed c (emit E p) = emit E (set_completed c p).
Proof. reflexivity. Qed.

(** The same for a worker that is resumed while the signal is clear. *)
Lemma resume_live (wid : nat) (ws : Worker) (p : Pool) :
  aborted p = false ->
  resume k wid ws p
  = match ws with
    | Calling i a =>
        if fails i a then
          if S a <=? MAX_RETRIES
          then (emit (callbacks i a ++ log_entry wid i a ++ [Wait i (waitTime (S a))]) p,
                Sleeping i (S a))
          else claim (emit (callbacks i a ++ log_entry wid i a
                            ++ [OnImage i (error_image i);
                                OnProgress i (S (completedCount p)) k])
                        (set_completed (S (completedCount p)) p))
        else claim (emit (callbacks i a ++ [OnProgress i (S (completedCount p)) k])
                      (set_completed (S (completedCount p)) p))
    | Sleeping i a =>
        if a <=? MAX_RETRIES then (emit [Request i a] p, Calling i a)
        else claim (emit [OnImage i (error_image i);
                          OnProgress i (S (completedCount p)) k]
                      (set_completed (S (completedCount p)) p))
    | Returned => (p, Returned)
    end.
Proof.
  intros Hab. destruct ws as [i a|i a|]; unfold resume; [| |reflexivity].
  - unfold fails, callbacks, log_entry.
    destruct (attempt_result i a) as [cbs [err|]]; pool.
    + repeat (rewrite Hab; pool). rewrite andb_true_r.
      destruct (S a <=? MAX_RETRIES) eqn:E.
      * by rewrite !emit_emit, <- ?app_assoc.
      * unfold retry. rewrite E. rewrite finish_live by (pool; done).
        pool. by rewrite ?emit_set_completed, !emit_emit, <- ?app_assoc.
    + rewrite finish_live by (pool; done). pool.
      by rewrite ?emit_set_completed, !emit_emit, <- ?app_assoc.
  - unfold retry. destruct (a <=? MAX_RETRIES); [by rewrite Hab|].
    by rewrite finish_live.
Qed.

Lemma claim_fields (p : Pool) :
  aborted p = false ->
  workers (fst (claim p)) = workers p
  /\ completedCount (fst (claim p)) = completedCount p
  /\ aborted (fst (claim p)) = false
  /\ ((taskQueue p = [] /\ snd (claim p) = Returned /\ taskQueue (fst (claim p)) = []
       /\ events (fst (claim p)) = events p)
      \/ (exists j rest, taskQueue p = j :: rest /\ snd (claim p) = Calling j 0
            /\ taskQueue (fst (claim p)) = rest
            /\ events (fst (claim p)) = events p ++ [Request j 0])).
Proof.
  intros Hab. rewrite claim_live by done.
  destruct (taskQueue p) as [|j rest] eqn:E; pool.
  - rewrite E. repeat split; try done. by left.
  - repeat split; try done. right. by exists j, rest.
Qed.

(** *** Termination *)

Lemma weight_insert (ws : list Worker) (w : nat) (x y : Worker) :
  ws !! w = Some x ->
  list_sum (map weight (<[w:=y]> ws)) + weight x
  = list_sum (map weight ws) + weight y.
Proof.
  revert w. induction ws as [|z ws IH]; intros [|w] Hw; simpl in *; try done.
  - injection Hw as ->. lia.
  - specialize (IH _ Hw). lia.
Qed.

Lemma pending_weight (ws : Worker) : pending ws = true -> 1 <= weight ws.
Proof. destruct ws; simpl; [lia|lia|discriminate]. Qed.

(** Every resumption of a worker that has not returned lowers the
    measure, whether or not the signal is set. *)
Lemma step_measure (w : nat) (ws : Worker) (p : Pool) :
  workers p !! w = Some ws ->
  pending ws = true ->
  measure (step k (Resume w) p) < measure p.
Proof.
  intros Hw Hp. unfold step. rewrite Hw.
  destruct (aborted p) eqn:Hab.
  - rewrite resume_aborted by done.
    assert (measure (set_workers (<[w:=Returned]> (workers p)) p) < measure p) as H.
    { unfold measure. pool. pose proof (weight_insert _ _ _ Returned Hw) as H.
      apply pending_weight in Hp. cbn [weight] in H. lia. }
    destruct ws; exact H.
  - rewrite resume_live by done.
    assert (forall E c,
      measure (let '(p', ws') := claim (emit E (set_completed c p)) in
               set_workers (<[w:=ws']> (workers p')) p') < measure p) as Hclaim.
    { intros E c.
      destruct (claim_fields (emit E (set_completed c p)) Hab)
        as (Hws & _ & _ & Hq).
      destruct (claim (emit E (set_completed c p))) as [p' ws']. pool.
      unfold measure. pool. rewrite Hws.
      pose proof (weight_insert _ _ _ ws' Hw) as H.
      apply pending_weight in Hp.
      destruct Hq as [(Hq & -> & -> & _)|(j & rest & Hq & -> & -> & _)];
        pool; rewrite Hq; cbn [length]; unfold weight, MAX_RETRIES in *; lia. }
    destruct ws as [i a|i a|]; [| |discriminate].
    + destruct (fails i a); [|apply Hclaim].
      destruct (Nat.leb_spec (S a) MAX_RETRIES) as [Hle|Hgt]; [|apply Hclaim].
      unfold measure. pool.
      pose proof (weight_insert _ _ _ (Sleeping i (S a)) Hw) as H.
      unfold weight, MAX_RETRIES in *. lia.
    + destruct (Nat.leb_spec a MAX_RETRIES) as [Hle|Hgt]; [|apply Hclaim].
      unfold measure. pool.
      pose proof (weight_insert _ _ _ (Calling i a) Hw) as H.
      unfold weight, MAX_RETRIES in *. lia.
Qed.

Lemma first_pending_Some (ws : list Worker) (w : nat) :
  first_pending ws = Some w ->
  exists x, ws !! w = Some x /\ pending x = true.
Proof.
  revert w. induction ws as [|x ws IH]; intros w; simpl; [done|].
  destruct x as [i a|i a|].
  - intros [= <-]. by eexists.
  - intros [= <-]. by eexists.
  - destruct (first_pending ws) as [w'|]; simpl; [|done].
    intros [= <-]. by apply IH.
Qed.

Lemma first_pending_None (ws : list Worker) :
  first_pending ws = None ->
  forallb (fun w => match w with Returned => true | _ => false end) ws = true.
Proof.
  induction ws as [|x ws IH]; simpl; [done|].
  destruct x; try done. destruct (first_pending ws); simpl; [done|]. auto.
Qed.

Lemma run_app (s1 s2 : list Tick) (p : Pool) :
  run k (s1 ++ s2) p = run k s2 (run k s1 p).
Proof. unfold run. apply fold_left_app. Qed.

(** With enough fuel, [drain] brings every worker to its [return]. *)
Lemma drain_complete (fuel : nat) (p : Pool) :
  measure p <= fuel ->
  all_returned (run k (drain k fuel p) p) = true.
Proof.
  revert p. induction fuel as [|fuel IH]; intros p Hm.
  - simpl. unfold all_returned.
    destruct (first_pending (workers p)) as [w|] eqn:E.
    + apply first_pending_Some in E as (x & Hx & Hp).
      pose proof (step_measure _ _ _ Hx Hp). lia.
    + by apply first_pending_None.
  - cbn [drain]. destruct (first_pending (workers p)) as [w|] eqn:E.
    + apply first_pending_Some in E as (x & Hx & Hp).
      pose proof (step_measure _ _ _ Hx Hp).
      change (run k (Resume w :: ?s) p) with (run k s (step k (Resume w) p)).
      apply IH. lia.
    + by apply first_pending_None.
Qed.

Lemma drain_no_abort (fuel : nat) (p : Pool) :
  forallb (fun t => negb (is_abort t)) (drain k fuel p) = true.
Proof.
  revert p. induction fuel as [|fuel IH]; intros p; simpl; [done|].
  destruct (first_pending (workers p)); simpl; [apply IH|done].
Qed.

(** *** The counters *)

Lemma progress_calls_app (a b : list Event) :
  progress_calls (a ++ b) = progress_calls a ++ progress_calls b.
Proof. apply omap_app. Qed.

Lemma progress_calls_callbacks (i a : nat) : progress_calls (callbacks i a) = [].
Proof.
  unfold callbacks. induction (fst (attempt_result i a)) as [|[img|t] l IH]; done.
Qed.

Lemma progress_calls_log_entry (w i a : nat) : progress_calls (log_entry w i a) = [].
Proof. unfold log_entry. by destruct (snd (attempt_result i a)). Qed.

Lemma active_insert (ws : list Worker) (w : nat) (x y : Worker) :
  ws !! w = Some x ->
  active (<[w:=y]> ws) + (if pending x then 1 else 0)
  = active ws + (if pending y then 1 else 0).
Proof.
  unfold active. revert w.
  induction ws as [|z ws IH]; intros [|w] Hw; simpl in *; try done.
  - injection Hw as ->. destruct (pending x), (pending y); simpl; lia.
  - specialize (IH _ Hw). destruct (pending z); simpl; lia.
Qed.

Lemma active_snoc (ws : list Worker) (x : Worker) :
  active (ws ++ [x]) = active ws + (if pending x then 1 else 0).
Proof.
  unfold active. rewrite List.filter_app, length_app. simpl.
  by destruct (pending x).
Qed.

Lemma progress_seq_S (c : nat) :
  map (fun n => (n, k)) (seq 1 (S c)) = map (fun n => (n, k)) (seq 1 c) ++ [(S c, k)].
Proof. by rewrite seq_S, map_app. Qed.

Lemma counting_initial (signal : bool) :
  Counting k {| taskQueue := seq 0 k; completedCount := 0; aborted := signal;
                workers := []; events := [] |}.
Proof.
  split; pool.
  - reflexivity.
  - by intros _ [w Hw].
  - intros _. by rewrite length_seq.
Qed.

Lemma counting_spawn (p : Pool) : Counting k p -> Counting k (spawn p).
Proof.
  intros HC. unfold spawn.
  destruct (aborted p) eqn:Hab; destruct HC as [Hpr Hret Hbal].
  - unfold claim. rewrite Hab.
    assert (Counting k (set_workers (workers p ++ [Returned]) p)) as H.
    { split; pool; [done|congruence|congruence]. }
    by destruct (taskQueue p).
  - destruct (claim_fields p Hab) as (Hws & Hc & Hab' & Hq).
    destruct (claim p) as [p' x]. pool. split; pool.
    + rewrite Hc.
      destruct Hq as [(_ & _ & _ & ->)|(j & rest & _ & _ & _ & ->)]; [done|].
      by rewrite progress_calls_app, app_nil_r.
    + intros _ [w Hw].
      destruct Hq as [(_ & _ & -> & _)|(j & rest & Hq & -> & _)]; [done|].
      rewrite Hws in Hw. apply lookup_app_Some in Hw as [Hw|[_ Hw]].
      * rewrite Hret in Hq; [done|done|by exists w].
      * by destruct (w - length (workers p)) as [|[|?]].
    + intros _. specialize (Hbal Hab). rewrite Hws, Hc, active_snoc.
      destruct Hq as [(Hq & -> & -> & _)|(j & rest & Hq & -> & -> & _)];
        rewrite Hq in Hbal; simpl in *; lia.
Qed.

Lemma counting_start (signal : bool) : Counting k (start k signal).
Proof.
  unfold start. induction (numWorkers k) as [|n IH]; simpl.
  - apply counting_initial.
  - by apply counting_spawn.
Qed.

Lemma counting_claim (p : Pool) (w : nat) (x : Worker) (E : list Event) :
  Counting k p ->
  aborted p = false ->
  workers p !! w = Some x ->
  pending x = true ->
  progress_calls E = [(S (completedCount p), k)] ->
  Counting k (let '(p', ws') := claim (emit E (set_completed (S (completedCount p)) p)) in
              set_workers (<[w:=ws']> (workers p')) p').
Proof.
  intros [Hpr Hret Hbal] Hab Hw Hp HE.
  destruct (claim_fields (emit E (set_completed (S (completedCount p)) p)) Hab)
    as (Hws & Hc & Hab' & Hq).
  destruct (claim _) as [p' y]. pool. specialize (Hbal Hab).
  pose proof (active_insert _ _ _ y Hw) as Hact. rewrite Hp in Hact.
  split; pool; rewrite ?Hws, ?Hc.
  - rewrite progress_seq_S, <- Hpr.
    destruct Hq as [(_ & _ & _ & ->)|(j & rest & _ & _ & _ & ->)];
      rewrite !progress_calls_app, HE; [done|by rewrite app_nil_r].
  - intros _ [w' Hw'].
    destruct Hq as [(_ & _ & -> & _)|(j & rest & Hq & -> & _)]; [done|].
    apply list_lookup_insert_Some in Hw' as [(_ & ? & _)|(Hne & Hw')]; [done|].
    rewrite Hret in Hq; [done|done|by exists w'].
  - intros _.
    destruct Hq as [(Hq & -> & -> & _)|(j & rest & Hq & -> & -> & _)];
      rewrite Hq in Hbal; simpl in *; lia.
Qed.

Lemma counting_stay (p : Pool) (w : nat) (x y : Worker) (E : list Event) :
  Counting k p ->
  workers p !! w = Some x ->
  pending x = pending y ->
  (aborted p = true \/ pending y = true) ->
  progress_calls E = [] ->
  Counting k (set_workers (<[w:=y]> (workers p)) (emit E p)).
Proof.
  intros [Hpr Hret Hbal] Hw Hp Hy HE.
  pose proof (active_insert _ _ _ y Hw) as Hact. rewrite Hp in Hact.
  split; pool.
  - by rewrite progress_calls_app, HE, app_nil_r.
  - intros Hab [w' Hw']. destruct Hy as [?|Hy]; [congruence|].
    apply list_lookup_insert_Some in Hw' as [(_ & Hy' & _)|(Hne & Hw')];
      [by subst|].
    apply Hret; [done|by exists w'].
  - intros Hab. specialize (Hbal Hab). destruct (pending y); lia.
Qed.

Lemma counting_cancelled (p : Pool) (ws : list Worker) (E : list Event) :
  Counting k p ->
  aborted p = true ->
  progress_calls E = [] ->
  Counting k (set_workers ws (emit E p)).
Proof.
  intros [Hpr _ _] Hab HE. split; pool; [|congruence|congruence].
  by rewrite progress_calls_app, HE, app_nil_r.
Qed.

Lemma emit_nil (p : Pool) : emit [] p = p.
Proof. destruct p. unfold emit. pool. by rewrite app_nil_r. Qed.

Lemma step_counting (t : Tick) (p : Pool) :
  Counting k p -> Counting k (step k t p).
Proof.
  intros HC. destruct t as [w|]; unfold step.
  - destruct (workers p !! w) as [x|] eqn:Hw; [|done].
    destruct (aborted p) eqn:Hab.
    + rewrite resume_aborted by done.
      destruct x as [i a|i a|].
      * apply counting_cancelled; [done|done|apply progress_calls_callbacks].
      * rewrite <- (emit_nil p) at 2. by apply counting_cancelled.
      * rewrite <- (emit_nil p) at 2. by apply counting_cancelled.
    + rewrite resume_live by done.
      destruct x as [i a|i a|].
      * destruct (fails i a).
        -- destruct (S a <=? MAX_RETRIES).
           ++ apply (counting_stay p w (Calling i a)); try done; [by right|].
              by rewrite !progress_calls_app, progress_calls_callbacks,
                progress_calls_log_entry.
           ++ apply (counting_claim p w (Calling i a)); try done.
              by rewrite !progress_calls_app, progress_calls_callbacks,
                progress_calls_log_entry.
        -- apply (counting_claim p w (Calling i a)); try done.
           by rewrite !progress_calls_app, progress_calls_callbacks.
      * destruct (a <=? MAX_RETRIES).
        -- apply (counting_stay p w (Sleeping i a)); try done. by right.
        -- by apply (counting_claim p w (Sleeping i a)).
      * rewrite list_insert_id by done. by destruct p.
  - destruct HC as [Hpr _ _]. split; pool; [done|congruence|congruence].
Qed.

Lemma run_counting (sched : list Tick) (p : Pool) :
  Counting k p -> Counting k (run k sched p).
Proof.
  revert p. induction sched as [|t s IH]; intros p HC; [done|].
  apply IH. by apply step_counting.
Qed.

Lemma step_workers_length (t : Tick) (p : Pool) :
  length (workers (step k t p)) = length (workers p).
Proof.
  destruct t as [w|]; unfold step; [|done].
  destruct (workers p !! w) as [x|] eqn:Hw; [|done].
  assert (workers (fst (resume k (S w) x p)) = workers p) as H.
  { destruct (aborted p) eqn:Hab.
    - rewrite resume_aborted by done. by destruct x.
    - rewrite resume_live by done.
      assert (forall E c, workers (fst (claim (emit E (set_completed c p)))) = workers p) as Hc.
      { intros E c. by destruct (claim_fields (emit E (set_completed c p)) Hab) as [-> _]. }
      destruct x as [i a|i a|]; [| |done].
      + destruct (fails i a); [|apply Hc]. destruct (S a <=? MAX_RETRIES); [done|apply Hc].
      + destruct (a <=? MAX_RETRIES); [done|apply Hc]. }
  destruct (resume k (S w) x p) as [p' y]. pool. by rewrite length_insert, H.
Qed.

Lemma run_workers_length (sched : list Tick) (p : Pool) :
  length (workers (run k sched p)) = length (workers p).
Proof.
  revert p. induction sched as [|t s IH]; intros p; [done|].
  simpl. by rewrite IH, step_workers_length.
Qed.

Lemma spawn_workers_length (p : Pool) :
  length (workers (spawn p)) = S (length (workers p)).
Proof.
  unfold spawn, claim. destruct (taskQueue p); [|destruct (aborted p)];
    pool; rewrite length_app; simpl; lia.
Qed.

Lemma start_workers_length (signal : bool) :
  length (workers (start k signal)) = numWorkers k.
Proof.
  unfold start. induction (numWorkers k) as [|n IH]; [done|].
  simpl. by rewrite spawn_workers_length, IH.
Qed.
End PoolFacts.

(** ** The worker pool: the log of a slot follows its phase *)

Create HintDb tagged.

Section CoreFacts.
Context {adapter : Adapter}.
Variable k : nat.

Lemma slot_events_app (i : nat) (a b : list Event) :
  slot_events i (a ++ b) = slot_events i a ++ slot_events i b.
Proof. apply List.filter_app. Qed.

Lemma slot_events_same (i : nat) (E : list Event) :
  tagged i E -> slot_events i E = E.
Proof.
  induction 1 as [|e E He _ IH]; [done|].
  unfold slot_events in *. simpl. rewrite He, Nat.eqb_refl. by f_equal.
Qed.

Lemma slot_events_other (i j : nat) (E : list Event) :
  tagged i E -> j <> i -> slot_events j E = [].
Proof.
  intros HE Hne. induction HE as [|e E He _ IH]; [done|].
  unfold slot_events in *. simpl. rewrite He.
  destruct (Nat.eqb_spec i j); [congruence|done].
Qed.

Lemma tagged_app (i : nat) (a b : list Event) :
  tagged i a -> tagged i b -> tagged i (a ++ b).
Proof. apply Forall_app_2. Qed.

Lemma tagged_callbacks (i a : nat) : tagged i (callbacks i a).
Proof.
  unfold callbacks, tagged. apply Forall_forall. intros e He.
  apply list_elem_of_In, in_map_iff in He as ([img|t] & <- & _); done.
Qed.

Lemma tagged_log_entry (w i a : nat) : tagged i (log_entry w i a).
Proof.
  unfold log_entry. destruct (snd (attempt_result i a)); repeat constructor.
Qed.

Lemma phase_ok_abort (signal : bool) (ph : Phase) (i : nat) :
  phase_ok signal ph i -> phase_ok true ph i.
Proof. destruct ph; simpl; tauto. Qed.

Lemma core_holder (ph : nat -> Phase) (p : Pool) (w i : nat) :
  Core k ph p -> owner (ph i) = Some w ->
  workers p !! w = Some (worker_in (ph i) i).
Proof.
  intros HC Ho. destruct (ph i) as [|w' a|w' a| |] eqn:E; simpl in *; try done;
    injection Ho as ->.
  - by apply HC.
  - by apply HC.
Qed.

Lemma core_owner (ph : nat -> Phase) (p : Pool) (w : nat) (x : Worker) :
  Core k ph p -> workers p !! w = Some x ->
  match x with
  | Calling j a => ph j = InFlight w a
  | Sleeping j a => ph j = Backoff w a
  | Returned => True
  end.
Proof. intros HC Hw. destruct x; [by apply HC|by apply HC|done]. Qed.

(** A worker moves its own slot forward. *)
Lemma core_update (ph : nat -> Phase) (p p' : Pool) (w i : nat)
    (E : list Event) (phase' : Phase) :
  Core k ph p ->
  owner (ph i) = Some w ->
  (owner phase' = Some w \/ owner phase' = None) ->
  phase' <> Unclaimed ->
  tagged i E ->
  shape k phase' i = shape k (ph i) i ++ E ->
  phase_ok (aborted p) phase' i ->
  taskQueue p' = taskQueue p ->
  aborted p' = aborted p ->
  workers p' = <[w := worker_in phase' i]> (workers p) ->
  events p' = events p ++ E ->
  Core k (upd ph i phase') p'.
Proof.
  intros HC Ho Ho' Hun HE Hshape Hok Hq Hab Hws Hes.
  pose proof (core_holder _ _ _ _ HC Ho) as Hw.
  assert (w < length (workers p)) as Hlen by (by eapply lookup_lt_Some).
  assert (forall j, j <> i -> owner (ph j) <> Some w) as Hothers.
  { intros j Hne Hj. pose proof (core_holder _ _ _ _ HC Hj) as Hw'.
    rewrite Hw in Hw'. injection Hw' as Hw'.
    destruct (ph i), (ph j); simpl in *; try done; congruence. }
  destruct HC as [(m & Hm & Hqueue & Hun') Hev Hoks Hcall Hsleep].
  split.
  - exists m. rewrite Hq. repeat split; try done.
    + unfold upd. destruct (Nat.eqb_spec i0 i) as [->|]; [done|]. by apply Hun'.
    + unfold upd. destruct (Nat.eqb_spec i0 i) as [->|]; [|by apply Hun'].
      intros Hmi. apply Hun' in Hmi. by rewrite Hmi in Ho.
  - intros j. rewrite Hes, slot_events_app. unfold upd.
    destruct (Nat.eqb_spec j i) as [->|Hne].
    + by rewrite Hev, slot_events_same, Hshape.
    + by rewrite (slot_events_other i j E HE Hne), app_nil_r.
  - intros j. rewrite Hab. unfold upd.
    by destruct (Nat.eqb_spec j i) as [->|Hne].
  - intros w' j b. rewrite Hws. unfold upd.
    destruct (Nat.eqb_spec j i) as [->|Hne].
    + destruct (decide (w' = w)) as [->|Hw'].
      * rewrite list_lookup_insert_eq by done. split.
        -- intros [= H]. destruct phase'; simpl in *; try done.
           destruct Ho' as [[= ->]|?]; [|done]. congruence.
        -- intros ->. done.
      * rewrite list_lookup_insert_ne by done. split.
        -- intros H. apply Hcall in H. rewrite H in Ho. simpl in Ho. congruence.
        -- intros ->. simpl in Ho'. destruct Ho' as [[= ->]|?]; done.
    + destruct (decide (w' = w)) as [->|Hw'].
      * rewrite list_lookup_insert_eq by done. split.
        -- intros [= H]. destruct phase'; simpl in *; congruence.
        -- intros H. exfalso. apply (Hothers j Hne). by rewrite H.
      * rewrite list_lookup_insert_ne by done. apply Hcall.
  - intros w' j b. rewrite Hws. unfold upd.
    destruct (Nat.eqb_spec j i) as [->|Hne].
    + destruct (decide (w' = w)) as [->|Hw'].
      * rewrite list_lookup_insert_eq by done. split.
        -- intros [= H]. destruct phase'; simpl in *; try done.
           destruct Ho' as [[= ->]|?]; [|done]. congruence.
        -- intros ->. done.
      * rewrite list_lookup_insert_ne by done. split.
        -- intros H. apply Hsleep in H. rewrite H in Ho. simpl in Ho. congruence.
        -- intros ->. simpl in Ho'. destruct Ho' as [[= ->]|?]; done.
    + destruct (decide (w' = w)) as [->|Hw'].
      * rewrite list_lookup_insert_eq by done. split.
        -- intros [= H]. destruct phase'; simpl in *; congruence.
        -- intros H. exfalso. apply (Hothers j Hne). by rewrite H.
      * rewrite list_lookup_insert_ne by done. apply Hsleep.
Qed.

(** A worker that holds no slot takes the next one, or returns. *)
Lemma core_claim (ph : nat -> Phase) (p1 p2 : Pool) (w : nat) (y : Worker) :
  Core k ph p1 ->
  workers p1 !! w = Some Returned ->
  aborted p2 = aborted p1 ->
  workers p2 = <[w:=y]> (workers p1) ->
  (y = Returned /\ taskQueue p2 = taskQueue p1 /\ events p2 = events p1)
  \/ (exists j rest, taskQueue p1 = j :: rest /\ y = Calling j 0
        /\ taskQueue p2 = rest /\ events p2 = events p1 ++ [Request j 0]) ->
  exists ph', Core k ph' p2.
Proof.
  intros HC Hw Hab Hws [(-> & Hq & Hes)|(j & rest & Hq1 & -> & Hq2 & Hes)].
  - exists ph. rewrite list_insert_id in Hws by done.
    destruct HC as [Hqueue Hev Hoks Hcall Hsleep].
    split; intros; rewrite ?Hq, ?Hes, ?Hab, ?Hws; auto.
  - assert (w < length (workers p1)) as Hlen by (by eapply lookup_lt_Some).
    assert (forall i, owner (ph i) <> Some w) as Hfree.
    { intros i Hi. pose proof (core_holder _ _ _ _ HC Hi) as Hw'.
      rewrite Hw in Hw'. destruct (ph i); simpl in *; congruence. }
    destruct HC as [(m & Hm & Hqueue & Hun) Hev Hoks Hcall Hsleep].
    rewrite Hq1 in Hqueue.
    destruct (k - m) as [|n] eqn:Hn; [done|].
    simpl in Hqueue. injection Hqueue as -> ->.
    assert (ph m = Unclaimed) as Hphm by (by apply Hun).
    exists (upd ph m (InFlight w 0)). split.
    + exists (S m). rewrite Hq2. split; [lia|]. split; [f_equal; lia|].
      intros i. unfold upd. destruct (Nat.eqb_spec i m) as [->|Hne].
      * split; [done|lia].
      * rewrite Hun. lia.
    + intros i. rewrite Hes, slot_events_app. unfold upd.
      destruct (Nat.eqb_spec i m) as [->|Hne].
      * rewrite Hev, Hphm. unfold slot_events. simpl. by rewrite Nat.eqb_refl.
      * rewrite (slot_events_other m i [Request m 0]), app_nil_r; [apply Hev| |done].
        by repeat constructor.
    + intros i. rewrite Hab. unfold upd.
      destruct (Nat.eqb_spec i m) as [->|Hne]; [|apply Hoks].
      simpl. split; [unfold MAX_RETRIES; lia|lia].
    + intros w' i b. rewrite Hws. unfold upd.
      destruct (Nat.eqb_spec i m) as [->|Hne].
      * destruct (decide (w' = w)) as [->|Hw'].
        -- rewrite list_lookup_insert_eq by done. split; congruence.
        -- rewrite list_lookup_insert_ne by done. split; [|congruence].
           intros H. apply Hcall in H. congruence.
      * destruct (decide (w' = w)) as [->|Hw'].
        -- rewrite list_lookup_insert_eq by done. split; [congruence|].
           intros H. exfalso. apply (Hfree i). by rewrite H.
        -- rewrite list_lookup_insert_ne by done. apply Hcall.
    + intros w' i b. rewrite Hws. unfold upd.
      destruct (Nat.eqb_spec i m) as [->|Hne].
      * destruct (decide (w' = w)) as [->|Hw'].
        -- rewrite list_lookup_insert_eq by done. split; congruence.
        -- rewrite list_lookup_insert_ne by done. split; [|congruence].
           intros H. apply Hsleep in H. congruence.
      * destruct (decide (w' = w)) as [->|Hw'].
        -- rewrite list_lookup_insert_eq by done. split; [congruence|].
           intros H. exfalso. apply (Hfree i). by rewrite H.
        -- rewrite list_lookup_insert_ne by done. apply Hsleep.
Qed.

Lemma core_grow (ph : nat -> Phase) (p p' : Pool) :
  Core k ph p ->
  taskQueue p' = taskQueue p ->
  aborted p' = aborted p ->
  events p' = events p ->
  workers p' = workers p ++ [Returned] ->
  Core k ph p'.
Proof.
  intros [Hqueue Hev Hoks Hcall Hsleep] Hq Hab Hes Hws.
  assert (forall w x, x <> Returned ->
            (workers p ++ [Returned]) !! w = Some x <-> workers p !! w = Some x) as Hl.
  { intros w x Hx. rewrite lookup_app_Some. split; [|tauto].
    intros [H|[_ H]]; [done|].
    destruct (w - length (workers p)) as [|[|?]]; simpl in H; congruence. }
  split; intros; rewrite ?Hq, ?Hes, ?Hab, ?Hws, ?Hl; auto.
Qed.

Lemma core_initial (signal : bool) :
  Core k (fun _ => Unclaimed)
    {| taskQueue := seq 0 k; completedCount := 0; aborted := signal;
       workers := []; events := [] |}.
Proof.
  split; pool; try done.
  exists 0. rewrite Nat.sub_0_r. repeat split; [lia|lia].
Qed.

Lemma core_spawn (ph : nat -> Phase) (p : Pool) :
  Core k ph p -> exists ph', Core k ph' (spawn p).
Proof.
  intros HC. unfold spawn.
  destruct (aborted p) eqn:Hab.
  - exists ph. unfold claim. rewrite Hab.
    assert (Core k ph (set_workers (workers p ++ [Returned]) p)) as H.
    { by apply (core_grow ph p). }
    by destruct (taskQueue p).
  - destruct (claim_fields p Hab) as (Hws & Hc & Hab' & Hq).
    destruct (claim p) as [p' y]. pool.
    apply (core_claim ph (set_workers (workers p ++ [Returned]) p) _
             (length (workers p)) y).
    + by apply (core_grow ph p).
    + pool. by rewrite lookup_app_r, Nat.sub_diag.
    + pool. congruence.
    + pool. rewrite Hws.
      rewrite insert_app_r_alt, Nat.sub_diag by done. done.
    + pool. destruct Hq as [(Hq & -> & Hq' & Hes)|(j & rest & Hq & -> & Hq' & Hes)].
      * left. repeat split; congruence.
      * right. by exists j, rest.
Qed.

Lemma core_start (signal : bool) : exists ph, Core k ph (start k signal).
Proof.
  unfold start. induction (numWorkers k) as [|n [ph IH]]; simpl.
  - eexists. apply core_initial.
  - by eapply core_spawn.
Qed.

Lemma failed_prefix_S (w i a : nat) :
  failed_prefix w i (S a)
  = failed_prefix w i a
    ++ Request i a :: callbacks i a ++ log_entry (S w) i a ++ [Wait i (waitTime (S a))].
Proof. reflexivity. Qed.

Lemma tagged_cons (i : nat) (e : Event) (E : list Event) :
  slot_of e = i -> tagged i E -> tagged i (e :: E).
Proof. by constructor. Qed.

Lemma tagged_nil (i : nat) : tagged i [].
Proof. constructor. Qed.

#[local] Hint Resolve tagged_app tagged_callbacks tagged_log_entry tagged_cons
  tagged_nil : tagged.

Lemma step_core (ph : nat -> Phase) (t : Tick) (p : Pool) :
  Core k ph p -> exists ph', Core k ph' (step k t p).
Proof.
  intros HC. destruct t as [w|]; unfold step.
  2:{ exists ph. destruct HC as [Hqueue Hev Hoks Hcall Hsleep].
      split; pool; try done. intros i. by eapply phase_ok_abort. }
  destruct (workers p !! w) as [x|] eqn:Hw; [|by exists ph].
  pose proof (core_owner _ _ _ _ HC Hw) as Hx.
  assert (w < length (workers p)) as Hlen by (by eapply lookup_lt_Some).
  destruct x as [i a|i a|].
  - (* the reply of attempt [a] has arrived *)
    pose proof (core_ok _ _ _ HC i) as Hok. rewrite Hx in Hok.
    destruct Hok as [Ha Hprev].
    assert (owner (ph i) = Some w) as Ho by (by rewrite Hx).
    destruct (aborted p) eqn:Hab.
    + rewrite resume_aborted by done.
      exists (upd ph i (Dropped w a true)).
      eapply (core_update ph p _ w i (callbacks i a)); pool; eauto with tagged.
      * rewrite Hx. simpl. by rewrite <- app_assoc.
      * rewrite Hab. simpl. repeat split; try done.
    + rewrite resume_live by done.
      assert (forall E c,
        tagged i E ->
        shape k (Resolved w a c) i = shape k (ph i) i ++ E ->
        (fails i a = true -> a = MAX_RETRIES) ->
        exists ph', Core k ph'
          (let '(p', ws') := claim (emit E (set_completed c p)) in
           set_workers (<[w:=ws']> (workers p')) p')) as Hresolve.
      { intros E c HE Hshape Hlast.
        destruct (claim_fields (emit E (set_completed c p)) Hab)
          as (Hws & Hc & Hab' & Hq).
        destruct (claim (emit E (set_completed c p))) as [p' y]. pool.
        apply (core_claim (upd ph i (Resolved w a c))
                 (set_workers (<[w:=Returned]> (workers p)) (emit E p)) _ w y).
        - eapply (core_update ph p _ w i E); pool; eauto.
          rewrite Hab. simpl. repeat split; try done.
        - pool. by rewrite list_lookup_insert_eq.
        - pool. congruence.
        - pool. by rewrite Hws, list_insert_insert_eq.
        - pool. destruct Hq as [(Hq & -> & Hq' & Hes)|(j & rest & Hq & -> & Hq' & Hes)].
          + left. repeat split; congruence.
          + right. by exists j, rest. }
      destruct (fails i a) eqn:Hf.
      * destruct (Nat.leb_spec (S a) MAX_RETRIES) as [Hle|Hgt].
        -- exists (upd ph i (Backoff w (S a))).
           eapply (core_update ph p _ w i
                     (callbacks i a ++ log_entry (S w) i a ++ [Wait i (waitTime (S a))]));
             pool; eauto.
           ++ apply tagged_app; [apply tagged_callbacks|].
              apply tagged_app; [apply tagged_log_entry|]. by repeat constructor.
           ++ rewrite Hx. simpl. by rewrite <- app_assoc.
           ++ rewrite Hab. simpl. repeat split; try lia.
              intros b Hb. destruct (decide (b = a)) as [->|]; [done|].
              apply Hprev. lia.
        -- apply Hresolve.
           ++ apply tagged_app; [apply tagged_callbacks|].
              apply tagged_app; [apply tagged_log_entry|]. by repeat constructor.
           ++ rewrite Hx. simpl. unfold ending. rewrite Hf.
              by rewrite <- !app_assoc.
           ++ intros _. lia.
      * apply Hresolve.
        -- apply tagged_app; [apply tagged_callbacks|]. by repeat constructor.
        -- rewrite Hx. simpl. unfold ending. rewrite Hf.
           by rewrite <- !app_assoc.
        -- congruence.
  - (* the backoff timer has fired *)
    pose proof (core_ok _ _ _ HC i) as Hok. rewrite Hx in Hok.
    destruct Hok as (Ha1 & Ha & Hprev).
    assert (owner (ph i) = Some w) as Ho by (by rewrite Hx).
    destruct (aborted p) eqn:Hab.
    + rewrite resume_aborted by done.
      exists (upd ph i (Dropped w a false)).
      eapply (core_update ph p _ w i []); pool; eauto with tagged.
      * rewrite Hx. simpl. by rewrite app_nil_r.
      * rewrite Hab. simpl. repeat split; try done.
      * by rewrite app_nil_r.
    + rewrite resume_live by done.
      destruct (Nat.leb_spec a MAX_RETRIES) as [Hle|Hgt]; [|lia].
      exists (upd ph i (InFlight w a)).
      eapply (core_update ph p _ w i [Request i a]); pool; eauto with tagged.
      * rewrite Hx. done.
      * by rewrite Hab.
  - (* a worker that has returned stays so *)
    exists ph. destruct (aborted p) eqn:Hab.
    + rewrite resume_aborted by done. rewrite list_insert_id by done. by destruct p.
    + rewrite resume_live by done. rewrite list_insert_id by done. by destruct p.
Qed.

Lemma run_core (ph : nat -> Phase) (sched : list Tick) (p : Pool) :
  Core k ph p -> exists ph', Core k ph' (run k sched p).
Proof.
  revert ph p. induction sched as [|t s IH]; intros ph p HC; [by exists ph|].
  destruct (step_core ph t p HC) as [ph' HC']. by apply (IH ph').
Qed.

(** Every reachable state satisfies both invariants. *)
Lemma reachable_core (signal : bool) (sched : list Tick) :
  exists ph, Core k ph (run k sched (start k signal)).
Proof. destruct (core_start signal) as [ph H]. by eapply run_core. Qed.
End CoreFacts.

(** ** The worker pool: what a finished slot has produced *)

Section SlotFacts.
Context {adapter : Adapter} {lawful : Lawful adapter}.
Variable k : nat.

Lemma images_app (a b : list Event) : images (a ++ b) = images a ++ images b.
Proof. apply omap_app. Qed.

Lemma texts_app (a b : list Event) : texts (a ++ b) = texts a ++ texts b.
Proof. apply omap_app. Qed.

Lemma images_log_entry (w i a : nat) : images (log_entry w i a) = [].
Proof. unfold log_entry. by destruct (snd (attempt_result i a)). Qed.

Lemma texts_log_entry (w i a : nat) : texts (log_entry w i a) = [].
Proof. unfold log_entry. by destruct (snd (attempt_result i a)). Qed.

Lemma in_images_callbacks (i a : nat) (img : GeneratedImage) :
  In img (images (callbacks i a)) <-> In (CbImage img) (fst (attempt_result i a)).
Proof.
  unfold callbacks, images.
  induction (fst (attempt_result i a)) as [|[img'|t] l IH]; simpl; [done| |].
  - rewrite IH. split; intros [H|H]; auto; left; congruence.
  - rewrite IH. split; [auto|]. intros [H|H]; [discriminate|done].
Qed.

(** A failed attempt has delivered no image; a successful one has
    delivered at least one, and only successful ones. *)
Lemma images_failed (i a : nat) : fails i a = true -> images (callbacks i a) = [].
Proof.
  unfold fails. intros Hf.
  destruct (images (callbacks i a)) as [|img l] eqn:E; [done|].
  assert (In img (images (callbacks i a))) as Hin by (rewrite E; by left).
  apply in_images_callbacks in Hin.
  assert (snd (attempt_result i a) = None) as H by (apply success_has_image; eauto).
  by rewrite H in Hf.
Qed.

Lemma images_succeeded (i a : nat) :
  fails i a = false ->
  images (callbacks i a) <> []
  /\ Forall (fun img => gi_status img = success) (images (callbacks i a)).
Proof.
  unfold fails. intros Hf. split.
  - destruct (snd (attempt_result i a)) eqn:E; [done|].
    apply success_has_image in E as [img Himg].
    apply in_images_callbacks in Himg. by destruct (images (callbacks i a)).
  - apply Forall_forall. intros img Himg.
    apply list_elem_of_In, in_images_callbacks in Himg.
    by eapply images_successful.
Qed.

Lemma images_failed_prefix (w i a : nat) :
  (forall b, b < a -> fails i b = true) -> images (failed_prefix w i a) = [].
Proof.
  induction a as [|a IH]; intros Hprev; [done|].
  rewrite failed_prefix_S, images_app, IH by (intros; apply Hprev; lia).
  simpl. rewrite !images_app, images_failed, images_log_entry by (apply Hprev; lia).
  done.
Qed.

Lemma images_resolved (w i a c : nat) :
  (forall b, b < a -> fails i b = true) ->
  images (shape k (Resolved w a c) i)
  = if fails i a then [error_image i] else images (callbacks i a).
Proof.
  intros Hprev. simpl. rewrite images_app, images_failed_prefix by done.
  simpl. rewrite images_app. unfold ending.
  destruct (fails i a) eqn:Hf.
  - by rewrite images_failed, images_app, images_log_entry.
  - simpl. by rewrite app_nil_r.
Qed.

Lemma progress_failed_prefix (w i a : nat) :
  progress_calls (failed_prefix w i a) = [].
Proof.
  induction a as [|a IH]; [done|].
  rewrite failed_prefix_S, progress_calls_app, IH. simpl.
  by rewrite !progress_calls_app, progress_calls_callbacks, progress_calls_log_entry.
Qed.

Lemma progress_resolved (w i a c : nat) :
  progress_calls (shape k (Resolved w a c) i) = [(c, k)].
Proof.
  simpl. rewrite progress_calls_app, progress_failed_prefix. simpl.
  rewrite progress_calls_app, progress_calls_callbacks. unfold ending.
  destruct (fails i a); [|done].
  by rewrite progress_calls_app, progress_calls_log_entry.
Qed.
End SlotFacts.

(** ** The worker pool: a batch that runs to its end *)

Section Batch.
Context {adapter : Adapter}.
Variable k : nat.

Lemma resume_signal (wid : nat) (ws : Worker) (p : Pool) :
  aborted (fst (resume k wid ws p)) = aborted p.
Proof.
  destruct (aborted p) eqn:Hab.
  - rewrite resume_aborted by done. by destruct ws.
  - rewrite resume_live by done.
    assert (forall E c, aborted (fst (claim (emit E (set_completed c p)))) = false) as Hc.
    { intros E c. by destruct (claim_fields (emit E (set_completed c p)) Hab)
        as (_ & _ & -> & _). }
    destruct ws as [i a|i a|]; [| |done].
    + destruct (fails i a); [|apply Hc]. destruct (S a <=? MAX_RETRIES); [done|apply Hc].
    + destruct (a <=? MAX_RETRIES); [done|apply Hc].
Qed.

Lemma step_signal (w : nat) (p : Pool) :
  aborted (step k (Resume w) p) = aborted p.
Proof.
  unfold step. destruct (workers p !! w) as [x|]; [|done].
  pose proof (resume_signal (S w) x p) as H.
  by destruct (resume k (S w) x p).
Qed.

Lemma run_signal (sched : list Tick) (p : Pool) :
  never_cancelled sched -> aborted (run k sched p) = aborted p.
Proof.
  unfold never_cancelled. revert p.
  induction sched as [|[w| ] s IH]; intros p Hs; [done| |done].
  change (run k (Resume w :: s) p) with (run k s (step k (Resume w) p)).
  rewrite IH by done. apply step_signal.
Qed.

Lemma spawn_signal (p : Pool) : aborted (spawn p) = aborted p.
Proof.
  unfold spawn, claim. destruct (taskQueue p); [done|].
  by destruct (aborted p) eqn:E.
Qed.

Lemma start_signal (signal : bool) : aborted (start k signal) = signal.
Proof.
  unfold start. induction (numWorkers k) as [|n IH]; [done|].
  cbn [Nat.iter nat_rect]. by rewrite spawn_signal.
Qed.

Lemma all_returned_lookup (p : Pool) (w : nat) (x : Worker) :
  all_returned p = true -> workers p !! w = Some x -> x = Returned.
Proof.
  unfold all_returned. rewrite forallb_forall. intros H Hw.
  specialize (H x). destruct x; try done;
    (discriminate H; apply list_elem_of_In; by eapply list_elem_of_lookup_2).
Qed.

Lemma all_returned_active (p : Pool) :
  all_returned p = true -> active (workers p) = 0.
Proof.
  unfold active, all_returned.
  induction (workers p) as [|x l IH]; [done|]. simpl.
  intros [Hx Hl]%andb_true_iff. destruct x; try done. by apply IH.
Qed.

(** At the end of a batch that was not cancelled every slot is
    resolved and the counter has reached the batch size. *)
Lemma batch_finished (sched : list Tick) :
  never_cancelled sched ->
  all_returned (run k sched (start k false)) = true ->
  aborted (run k sched (start k false)) = false
  /\ completedCount (run k sched (start k false)) = k
  /\ exists ph, Core k ph (run k sched (start k false))
                /\ forall i, i < k -> exists w a c, ph i = Resolved w a c.
Proof.
  intros Hs Hall. set (p := run k sched (start k false)) in *.
  assert (aborted p = false) as Hab.
  { unfold p. by rewrite run_signal, start_signal. }
  destruct (reachable_core k false sched) as [ph HC]. fold p in HC.
  pose proof (run_counting k sched _ (counting_start k false)) as HN. fold p in HN.
  assert (length (workers p) = numWorkers k) as Hlen.
  { unfold p. by rewrite run_workers_length, start_workers_length. }
  assert (active (workers p) = 0) as Hact by (by apply all_returned_active).
  pose proof (core_queue _ _ _ HC) as (m & Hm & Hq & Hun).
  assert (taskQueue p = []) as Hempty.
  { destruct (workers p) as [|x l] eqn:Hws.
    - simpl in Hlen. unfold numWorkers, MAX_CONCURRENT_REQUESTS in Hlen.
      assert (k = 0) as -> by lia. rewrite Hq. by destruct m.
    - apply (cnt_returned _ _ HN Hab). exists 0. rewrite Hws. simpl. f_equal.
      eapply (all_returned_lookup p 0); [done|]. by rewrite Hws. }
  assert (m = k) as ->.
  { rewrite Hempty in Hq. destruct (k - m) eqn:E; [lia|done]. }
  split; [done|]. split.
  - pose proof (cnt_balance _ _ HN Hab) as H. rewrite Hact, Hempty in H.
    simpl in H. lia.
  - exists ph. split; [done|]. intros i Hi.
    pose proof (core_ok _ _ _ HC i) as Hok.
    destruct (ph i) as [|w a|w a|w a c|w a fl] eqn:E.
    + apply Hun in E. lia.
    + apply (core_calling _ _ _ HC) in E.
      by apply (all_returned_lookup p w) in E.
    + apply (core_sleeping _ _ _ HC) in E.
      by apply (all_returned_lookup p w) in E.
    + by exists w, a, c.
    + simpl in Hok. destruct Hok as [Hok _]. congruence.
Qed.

(** A batch always comes to its end: whatever has happened so far, the
    pending workers can be resumed, and after finitely many
    resumptions all of them have returned. *)
Lemma batch_terminates (sched : list Tick) (signal : bool) :
  exists rest,
    never_cancelled rest
    /\ all_returned (run k (sched ++ rest) (start k signal)) = true.
Proof.
  set (p := run k sched (start k signal)).
  exists (drain k (measure p) p). split.
  - apply drain_no_abort.
  - rewrite run_app. fold p. by apply drain_complete.
Qed.
End Batch.

(** ** Both adapters are lawful *)

Lemma gemini_read_parts_images (uuid : nat -> jsstring) (j : nat) (parts : list Gemini.Part) :
  (snd (Gemini.read_parts uuid j parts) = true
   <-> exists img, In (CbImage img) (fst (Gemini.read_parts uuid j parts)))
  /\ (forall img, In (CbImage img) (fst (Gemini.read_parts uuid j parts)) ->
        gi_status img = success).
Proof.
  revert j. induction parts as [|part rest IH]; intros j; simpl.
  - split; [|done]. split; [done|]. by intros [img H].
  - destruct (IH (S j)) as [IH1 IH2].
    destruct (Gemini.read_parts uuid (S j) rest) as [cbs found]. simpl in *.
    destruct (Gemini.image_data part) as [[mime payload]|]; simpl.
    + split.
      * split; [|done]. intros _. eexists. by left.
      * intros img [[= <-]|H]; [done|]. by apply IH2.
    + destruct (opt_truthy (Gemini.part_text part)); simpl; [|done].
      split.
      * rewrite IH1. split; intros [img H]; exists img; [by right|].
        by destruct H.
      * intros img [H|H]; [discriminate|]. by apply IH2.
Qed.

Lemma gemini_lawful (provider : nat -> nat -> Gemini.Settled)
    (generateUUID : nat -> nat -> nat -> jsstring) :
  Lawful (Gemini.adapter provider generateUUID).
Proof.
  assert (forall uuid s,
    (snd (Gemini.read_reply uuid s) = None
     <-> exists img, In (CbImage img) (fst (Gemini.read_reply uuid s)))
    /\ (forall img, In (CbImage img) (fst (Gemini.read_reply uuid s)) ->
          gi_status img = success)) as H.
  { intros uuid s.
    assert (forall e : Thrown,
      (snd (@nil Callback, Some e) = None
       <-> exists img, In (CbImage img) (fst (@nil Callback, Some e)))
      /\ (forall img, In (CbImage img) (fst (@nil Callback, Some e)) ->
            gi_status img = success)) as Hfail.
    { intros e. simpl. split; [|done]. split; [done|]. by intros [img H]. }
    unfold Gemini.read_reply.
    destruct s as [e|response]; [apply Hfail|].
    destruct (Gemini.candidates response) as [[|candidate ?]|]; try apply Hfail.
    destruct (Gemini.blocked candidate); [apply Hfail|].
    destruct (Gemini.content candidate) as [c|]; [|apply Hfail].
    destruct (Gemini.content_parts c) as [parts|]; [|apply Hfail].
    destruct (gemini_read_parts_images uuid 0 parts) as [H1 H2].
    destruct (Gemini.read_parts uuid 0 parts) as [cbs found]. simpl in *.
    split; [|done]. rewrite <- H1. by destruct found. }
  split; intros i a; simpl; apply H.
Qed.

Lemma openai_read_parts_images (uuid : nat -> jsstring) (j : nat)
    (parts : list OpenAI.ContentPart) :
  (snd (OpenAI.read_parts uuid j parts) = true
   <-> exists img, In (CbImage img) (fst (OpenAI.read_parts uuid j parts)))
  /\ (forall img, In (CbImage img) (fst (OpenAI.read_parts uuid j parts)) ->
        gi_status img = success).
Proof.
  revert j. induction parts as [|part rest IH]; intros j; simpl.
  - split; [|done]. split; [done|]. by intros [img H].
  - destruct (IH (S j)) as [IH1 IH2].
    destruct (OpenAI.read_parts uuid (S j) rest) as [cbs found]. simpl in *.
    assert (forall t,
      (snd (CbText t :: cbs, found) = true
       <-> exists img, In (CbImage img) (fst (CbText t :: cbs, found)))
      /\ (forall img, In (CbImage img) (fst (CbText t :: cbs, found)) ->
            gi_status img = success)) as Htext.
    { intros t. simpl. split.
      - rewrite IH1. split; intros [img H]; exists img; [by right|]. by destruct H.
      - intros img [H|H]; [discriminate|]. by apply IH2. }
    destruct part as [|image_url text]; [done|].
    destruct image_url as [u|].
    + destruct (OpenAI.image_url_truthy u).
      * destruct (opt_truthy (OpenAI.image_url_of u)); [|done]. simpl. split.
        -- split; [|done]. intros _. eexists. by left.
        -- intros img [[= <-]|H]; [done|]. by apply IH2.
      * destruct (opt_truthy text); [apply Htext|done].
    + destruct (opt_truthy text); [apply Htext|done].
Qed.

Lemma openai_lawful (provider : nat -> nat -> OpenAI.Settled)
    (generateUUID : nat -> nat -> nat -> jsstring) :
  Lawful (OpenAI.adapter provider generateUUID).
Proof.
  assert (forall uuid s,
    (snd (OpenAI.read_reply uuid s) = None
     <-> exists img, In (CbImage img) (fst (OpenAI.read_reply uuid s)))
    /\ (forall img, In (CbImage img) (fst (OpenAI.read_reply uuid s)) ->
          gi_status img = success)) as H.
  { intros uuid s.
    assert (forall e : Thrown,
      (snd (@nil Callback, Some e) = None
       <-> exists img, In (CbImage img) (fst (@nil Callback, Some e)))
      /\ (forall img, In (CbImage img) (fst (@nil Callback, Some e)) ->
            gi_status img = success)) as Hfail.
    { intros e. simpl. split; [|done]. split; [done|]. by intros [img H]. }
    unfold OpenAI.read_reply.
    destruct s as [e|response]; [apply Hfail|].
    destruct (OpenAI.choices response) as [[|choice ?]|]; try apply Hfail.
    destruct (OpenAI.blocked choice); [apply Hfail|].
    destruct (OpenAI.content_of (OpenAI.message choice)) as [c|]; [|apply Hfail].
    assert ((snd (OpenAI.read_content uuid c) = true
             <-> exists img, In (CbImage img) (fst (OpenAI.read_content uuid c)))
            /\ (forall img, In (CbImage img) (fst (OpenAI.read_content uuid c)) ->
                  gi_status img = success)) as [H1 H2].
    { destruct c as [s|parts|]; simpl.
      - destruct (OpenAI.find_data_uri s); simpl.
        + split; [|by intros img [[= <-]|?]]. split; [|done]. intros _. eexists. by left.
        + split; [|by intros img [?|?]]. split; [done|]. by intros [img [?|?]].
      - apply openai_read_parts_images.
      - split; [|done]. split; [done|]. by intros [img ?]. }
    destruct (OpenAI.read_content uuid c) as [cbs found]. simpl in *.
    split; [|done]. rewrite <- H1. by destruct found. }
  split; intros i a; simpl; apply H.
Qed.

(** ** Progress and outcomes of a batch *)

Section Outcomes.
Context {adapter : Adapter} {lawful : Lawful adapter}.
Variable k : nat.

(** What the log of a batch that ran to its end holds for one slot. *)
Lemma finished_slot (sched : list Tick) (i : nat) :
  never_cancelled sched ->
  all_returned (run k sched (start k false)) = true ->
  i < k ->
  exists w a c,
    slot_events i (events (run k sched (start k false))) = shape k (Resolved w a c) i
    /\ a <= MAX_RETRIES
    /\ (forall b, b < a -> fails i b = true)
    /\ (fails i a = true -> a = MAX_RETRIES).
Proof.
  intros Hs Hall Hi.
  destruct (batch_finished k sched Hs Hall) as (Hab & _ & ph & HC & Hres).
  destruct (Hres i Hi) as (w & a & c & Hph). exists w, a, c.
  pose proof (core_ok _ _ _ HC i) as Hok. rewrite Hph in Hok.
  rewrite (core_events _ _ _ HC i), Hph. by destruct Hok as (? & ? & ?).
Qed.

Lemma finished_outcomes (sched : list Tick) :
  never_cancelled sched ->
  all_returned (run k sched (start k false)) = true ->
  progress_calls (events (run k sched (start k false)))
  = map (fun c => (c, k)) (seq 1 k)
  /\ (forall i, i < k ->
        length (progress_calls (slot_events i (events (run k sched (start k false))))) = 1
        /\ ((exists a, a <= MAX_RETRIES /\ fails i a = false
                /\ images (slot_events i (events (run k sched (start k false))))
                   = images (callbacks i a)
                /\ images (callbacks i a) <> []
                /\ Forall (fun img => gi_status img = success) (images (callbacks i a)))
            \/ (images (slot_events i (events (run k sched (start k false))))
                 = [error_image i]
                /\ forall a, a <= MAX_RETRIES -> fails i a = true))).
Proof.
  intros Hs Hall. split.
  - destruct (batch_finished k sched Hs Hall) as (Hab & Hc & _).
    pose proof (run_counting k sched _ (counting_start k false)) as HN.
    by rewrite (cnt_progress _ _ HN), Hc.
  - intros i Hi.
    destruct (finished_slot sched i Hs Hall Hi) as (w & a & c & -> & Ha & Hprev & Hlast).
    rewrite progress_resolved, images_resolved by done. split; [done|].
    destruct (fails i a) eqn:Hf.
    + right. split; [done|]. intros b Hb.
      specialize (Hlast eq_refl). subst a.
      destruct (decide (b = MAX_RETRIES)) as [->|]; [done|]. apply Hprev. lia.
    + left. exists a. destruct (images_succeeded i a Hf) as [? ?]. by repeat split.
Qed.

(** *** Requests and waits *)

Lemma control_app (a b : list Event) :
  List.filter is_control (a ++ b) = List.filter is_control a ++ List.filter is_control b.
Proof. apply List.filter_app. Qed.

Lemma control_callbacks (i a : nat) : List.filter is_control (callbacks i a) = [].
Proof.
  unfold callbacks. induction (fst (attempt_result i a)) as [|[img|t] l IH]; done.
Qed.

Lemma control_log_entry (wid i a : nat) : List.filter is_control (log_entry wid i a) = [].
Proof. unfold log_entry. by destruct (snd (attempt_result i a)). Qed.

Lemma control_failed_prefix (w i a : nat) :
  a <= MAX_RETRIES ->
  List.filter is_control (failed_prefix w i a) = firstn (2 * a) (retry_plan i).
Proof.
  unfold MAX_RETRIES. intros Ha.
  assert (a = 0 \/ a = 1 \/ a = 2 \/ a = 3) as [-> | [-> | [-> | ->]]] by lia;
    cbn [failed_prefix];
    repeat (rewrite ?control_app, ?control_callbacks, ?control_log_entry;
            cbn [List.filter is_control app]);
    reflexivity.
Qed.

Lemma control_ending (w i a c : nat) : List.filter is_control (ending k w i a c) = [].
Proof.
  unfold ending. destruct (fails i a); [|done].
  by rewrite control_app, control_log_entry.
Qed.

Lemma control_resolved_last (w i c : nat) :
  List.filter is_control (shape k (Resolved w MAX_RETRIES c) i) = retry_plan i.
Proof.
  cbn [shape].
  rewrite control_app, control_failed_prefix by done.
  cbn [List.filter is_control].
  by rewrite control_app, control_callbacks, control_ending.
Qed.

(** Whatever phase a slot is in, its requests and waits so far are an
    initial part of the retry plan. *)
Lemma control_shape (signal : bool) (ph : Phase) (i : nat) :
  phase_ok signal ph i ->
  exists rest, retry_plan i = List.filter is_control (shape k ph i) ++ rest.
Proof.
  assert (forall a, a <= MAX_RETRIES ->
            exists rest, retry_plan i = firstn (2 * a) (retry_plan i) ++ rest) as H1.
  { intros a _. exists (skipn (2 * a) (retry_plan i)). by rewrite firstn_skipn. }
  assert (forall a, a <= MAX_RETRIES ->
            exists rest, retry_plan i
                         = (firstn (2 * a) (retry_plan i) ++ [Request i a]) ++ rest) as H2.
  { unfold MAX_RETRIES. intros a Ha.
    assert (a = 0 \/ a = 1 \/ a = 2 \/ a = 3) as [-> | [-> | [-> | ->]]] by lia;
      eexists; reflexivity. }
  destruct ph as [|w a|w a|w a c|w a fl]; [| | | |destruct fl]; cbn [shape phase_ok].
  - intros _. by exists (retry_plan i).
  - intros [Ha _]. rewrite control_app, control_failed_prefix by done. by apply H2.
  - intros (_ & Ha & _). rewrite control_failed_prefix by done. by apply H1.
  - intros (Ha & _). rewrite control_app, control_failed_prefix by done.
    cbn [List.filter is_control].
    rewrite control_app, control_callbacks, control_ending. by apply H2.
  - intros (_ & Ha & _). rewrite control_app, control_failed_prefix by done.
    cbn [List.filter is_control].
    rewrite control_callbacks. by apply H2.
  - intros (_ & Ha & _). rewrite control_failed_prefix by done. by apply H1.
Qed.
End Outcomes.

(** C1, as amended.  A batch of [k] slots that is never cancelled always
    comes to its end, and when it has, [onProgress] has been called
    exactly [k] times, with [completed] running through 1, 2, ..., [k] and
    [total] equal to [k], once for every slot.  Every slot has ended in one
    of two ways: one of its at most four attempts succeeded and [onImage]
    was called for every image of that reply (at least one, all marked
    successful), or all its attempts failed and [onImage] was called once,
    with the error placeholder.  [onText] calls are not counted: they are
    no outcome of a slot. *)
Theorem batch_progress_and_outcomes {adapter : Adapter} {lawful : Lawful adapter}
    (k : nat) (sched : list Tick) :
  never_cancelled sched ->
  all_returned (run k sched (start k false)) = true ->
  progress_calls (events (run k sched (start k false)))
  = map (fun c => (c, k)) (seq 1 k)
  /\ (forall i, i < k ->
        length (progress_calls (slot_events i (events (run k sched (start k false))))) = 1
        /\ ((exists a, a <= MAX_RETRIES /\ fails i a = false
                /\ images (slot_events i (events (run k sched (start k false))))
                   = images (callbacks i a)
                /\ images (callbacks i a) <> []
                /\ Forall (fun img => gi_status img = success) (images (callbacks i a)))
            \/ (images (slot_events i (events (run k sched (start k false))))
                 = [error_image i]
                /\ forall a, a <= MAX_RETRIES -> fails i a = true)))
  /\ (forall before, exists rest,
        never_cancelled rest
        /\ all_returned (run k (before ++ rest) (start k false)) = true).
Proof.
  intros Hs Hall.
  destruct (finished_outcomes k sched Hs Hall) as [Hprog Hslots].
  split; [done|]. split; [done|].
  intros before. apply batch_terminates.
Qed.

Lemma batch_progress_and_outcomes_witness :
  never_cancelled (run_to_end (Gemini.adapter mixed sample_uuid) 3)
  /\ progress_calls
       (events (run (adapter := Gemini.adapter mixed sample_uuid) 3
                  (run_to_end (Gemini.adapter mixed sample_uuid) 3) (start 3 false)))
     = [(1, 3); (2, 3); (3, 3)].
Proof.
  split; [reflexivity|].
  apply (batch_progress_and_outcomes (lawful := gemini_lawful mixed sample_uuid) 3
           (run_to_end (Gemini.adapter mixed sample_uuid) 3)); reflexivity.
Defined.

(** C1 as the specification words it asks for exactly [k] [onImage] or
    [onText] outcomes, one per slot.  A reply with two images makes its
    slot call [onImage] twice; a slot that only ever receives text calls
    [onText] four times and [onImage] once. *)
Lemma one_outcome_per_slot_counterexample :
  (let p := run (adapter := Gemini.adapter two_images sample_uuid) 1 [Resume 0]
              (start 1 false) in
   all_returned p = true /\ aborted p = false
   /\ progress_calls (events p) = [(1, 1)]
   /\ length (images (slot_events 0 (events p))) = 2
   /\ outcomes (events p) <> 1)
  /\
  (let p := run (adapter := Gemini.adapter only_text sample_uuid) 1
              (run_to_end (Gemini.adapter only_text sample_uuid) 1) (start 1 false) in
   all_returned p = true /\ aborted p = false
   /\ progress_calls (events p) = [(1, 1)]
   /\ length (texts (slot_events 0 (events p))) = 4
   /\ map gi_status (images (slot_events 0 (events p))) = [error]
   /\ outcomes (events p) <> 1).
Proof. vm_compute. repeat split; discriminate. Qed.

(** C3. In a batch that is not cancelled, a slot whose four attempts all
    fail makes exactly four requests, then [onImage] is called exactly
    once for it, with the error placeholder (empty data and mime type),
    and [onProgress] exactly once.  The batch goes on: every slot,
    this one and its siblings, is reported in [onProgress] exactly once
    and has received at least one [onImage], the count reaches [k], and
    the batch comes to its end. *)
Theorem exhausted_slot {adapter : Adapter} {lawful : Lawful adapter}
    (k : nat) (sched : list Tick) (i : nat) :
  never_cancelled sched ->
  all_returned (run k sched (start k false)) = true ->
  i < k ->
  (forall a, a <= MAX_RETRIES -> fails i a = true) ->
  control i (events (run k sched (start k false))) = retry_plan i
  /\ images (slot_events i (events (run k sched (start k false)))) = [error_image i]
  /\ gi_status (error_image i) = error
  /\ gi_data (error_image i) = []
  /\ gi_mimeType (error_image i) = []
  /\ length (progress_calls (slot_events i (events (run k sched (start k false))))) = 1
  /\ (forall j, j < k ->
        length (progress_calls (slot_events j (events (run k sched (start k false))))) = 1
        /\ images (slot_events j (events (run k sched (start k false)))) <> [])
  /\ progress_calls (events (run k sched (start k false)))
     = map (fun c => (c, k)) (seq 1 k)
  /\ (forall before, exists rest,
        never_cancelled rest
        /\ all_returned (run k (before ++ rest) (start k false)) = true).
Proof.
  intros Hs Hall Hi Hfail.
  destruct (finished_outcomes k sched Hs Hall) as (Hprog & Hslots).
  destruct (finished_slot k sched i Hs Hall Hi) as (w & a & c & Hev & Ha & Hprev & Hlast).
  assert (a = MAX_RETRIES) as -> by (apply Hlast, Hfail, Ha).
  split_and!; try done.
  - unfold control. rewrite Hev. apply control_resolved_last.
  - rewrite Hev, images_resolved by done. by rewrite Hfail.
  - by rewrite Hev, progress_resolved.
  - intros j Hj. split; [by apply Hslots|].
    destruct (Hslots j Hj) as [_ [(b & _ & _ & -> & Hne & _)|[-> _]]]; done.
  - intros before. apply batch_terminates.
Qed.

Lemma exhausted_slot_witness :
  (forall a, a <= MAX_RETRIES ->
     fails (adapter := Gemini.adapter mixed sample_uuid) 0 a = true)
  /\ control 0
       (events (run (adapter := Gemini.adapter mixed sample_uuid) 3
                  (run_to_end (Gemini.adapter mixed sample_uuid) 3) (start 3 false)))
     = retry_plan 0
  /\ images
       (slot_events 0
          (events (run (adapter := Gemini.adapter mixed sample_uuid) 3
                     (run_to_end (Gemini.adapter mixed sample_uuid) 3) (start 3 false))))
     = [error_image (adapter := Gemini.adapter mixed sample_uuid) 0].
Proof.
  assert (forall a, a <= MAX_RETRIES ->
            fails (adapter := Gemini.adapter mixed sample_uuid) 0 a = true) as Hfail
    by (intros a _; reflexivity).
  split; [exact Hfail|].
  destruct (exhausted_slot (lawful := gemini_lawful mixed sample_uuid) 3
              (run_to_end (Gemini.adapter mixed sample_uuid) 3) 0)
    as (Hc & Hi & _); [reflexivity|reflexivity|lia|exact Hfail|].
  by split.
Defined.

(** ** Retries and cancellation *)

Section Cancellation.
Context {adapter : Adapter}.
Variable k : nat.

Lemma control_slot_app (j : nat) (a b : list Event) :
  control j (a ++ b) = control j a ++ control j b.
Proof. unfold control. by rewrite slot_events_app, List.filter_app. Qed.

Lemma control_of_callbacks (i j a : nat) : control j (callbacks i a) = [].
Proof.
  unfold control, slot_events, callbacks.
  induction (fst (attempt_result i a)) as [|[img|t] l IH]; simpl; [done| |];
    by destruct (i =? j).
Qed.

(** Every reachable state, cancelled or not: the requests and waits of
    a slot are an initial part of the retry plan. *)
Lemma control_reachable (signal : bool) (sched : list Tick) (i : nat) :
  exists rest,
    retry_plan i = control i (events (run k sched (start k signal))) ++ rest.
Proof.
  destruct (reachable_core k signal sched) as [ph HC].
  unfold control. rewrite (core_events _ _ _ HC i).
  eapply control_shape. apply (core_ok _ _ _ HC i).
Qed.

Lemma resume_aborted_control (wid : nat) (ws : Worker) (p : Pool) :
  aborted p = true ->
  snd (resume k wid ws p) = Returned
  /\ taskQueue (fst (resume k wid ws p)) = taskQueue p
  /\ completedCount (fst (resume k wid ws p)) = completedCount p
  /\ forall j, control j (events (fst (resume k wid ws p))) = control j (events p).
Proof.
  intros Hab. rewrite resume_aborted by done.
  destruct ws as [i a|i a|]; pool; repeat split; try done.
  intros j. by rewrite control_slot_app, control_of_callbacks, app_nil_r.
Qed.



End Cancellation.

(** C2. For every slot, whatever the schedule and whether or not the
    batch is cancelled, the requests and waits of the slot are an initial
    part of: request, wait 1000 ms, request, wait 2000 ms, request, wait
    4000 ms, request.  So there are at most four attempts, and the wait
    before the n-th retry is 1000 * 2^(n-1) ms.  A failed attempt is
    handled in the same way whatever was thrown: the error is logged and
    the worker waits and retries, or gives the slot up after the fourth
    attempt.  A worker resumed after the signal has fired returns without
    a request or a wait. *)
Theorem retry_policy {adapter : Adapter} (k : nat) (signal : bool)
    (sched : list Tick) (i : nat) :
  (exists rest,
     retry_plan i = control i (events (run k sched (start k signal))) ++ rest)
  /\ (forall n, waitTime (S n) = (1000 * 2 ^ Z.of_nat n)%Z)
  /\ (forall wid a p cbs err,
        attempt_result i a = (cbs, Some err) ->
        aborted p = false ->
        resume k wid (Calling i a) p
        = if S a <=? MAX_RETRIES
          then (emit (map (fire i) cbs
                      ++ [LogError i {| diag_context := worker_context wid i (S a);
                                        diag_error := logged_error err |};
                          Wait i (waitTime (S a))]) p,
                Sleeping i (S a))
          else claim (emit (map (fire i) cbs
                            ++ [LogError i {| diag_context := worker_context wid i (S a);
                                              diag_error := logged_error err |};
                                OnImage i (error_image i);
                                OnProgress i (S (completedCount p)) k])
                        (set_completed (S (completedCount p)) p)))
  /\ (forall wid ws p,
        aborted p = true ->
        snd (resume k wid ws p) = Returned
        /\ forall j, control j (events (fst (resume k wid ws p))) = control j (events p)).
Proof.
  split; [apply control_reachable|]. split; [|split].
  - intros n. unfold waitTime. do 2 f_equal. lia.
  - intros wid a p cbs err Hres Hab. rewrite resume_live by done.
    unfold fails, callbacks, log_entry. rewrite Hres. simpl.
    by destruct (a <=? 2).
  - intros wid ws p Hab.
    destruct (resume_aborted_control k wid ws p Hab) as (? & _ & _ & ?). by split.
Qed.

Lemma retry_policy_witness :
  control 1
    (events (run (adapter := Gemini.adapter mixed sample_uuid) 3
               (run_to_end (Gemini.adapter mixed sample_uuid) 3) (start 3 false)))
  = [Request 1 0; Wait 1 1000; Request 1 1; Wait 1 2000; Request 1 2]
  /\ exists rest,
       retry_plan 1
       = control 1
           (events (run (adapter := Gemini.adapter mixed sample_uuid) 3
                      (run_to_end (Gemini.adapter mixed sample_uuid) 3) (start 3 false)))
         ++ rest.
Proof.
  split; [reflexivity|].
  apply (retry_policy (adapter := Gemini.adapter mixed sample_uuid) 3 false
           (run_to_end (Gemini.adapter mixed sample_uuid) 3) 1).
Defined.



(** ** Replies without an image *)

Lemma gemini_text_only (uuid : nat -> jsstring) (j : nat) (parts : list Gemini.Part) :
  Forall (fun part => Gemini.image_data part = None) parts ->
  Gemini.read_parts uuid j parts = (map CbText (Gemini.part_texts parts), false).
Proof.
  intros H. revert j. induction H as [|part rest Hpart _ IH]; intros j; [done|].
  simpl. rewrite IH, Hpart. unfold Gemini.part_texts. simpl.
  destruct (Gemini.part_text part) as [t|]; simpl; [|done].
  by destruct (truthy t).
Qed.

Lemma openai_text_only (uuid : nat -> jsstring) (j : nat) (parts : list OpenAI.ContentPart) :
  Forall (fun part => OpenAI.has_image part = false) parts ->
  OpenAI.read_parts uuid j parts = (map CbText (omap OpenAI.part_text parts), false).
Proof.
  intros H. revert j. induction H as [|part rest Hpart _ IH]; intros j; [done|].
  simpl. rewrite IH. destruct part as [|[u|] text]; simpl in *; [done| |].
  - destruct (OpenAI.image_url_truthy u); simpl in *.
    + by rewrite Hpart.
    + destruct text as [t|]; simpl; [|done]. by destruct (truthy t).
  - destruct text as [t|]; simpl; [|done]. by destruct (truthy t).
Qed.

Section TextOnly.
Context {adapter : Adapter}.
Variable k : nat.

Lemma texts_callbacks (i a : nat) (ts : list jsstring) (err : option Thrown) :
  attempt_result i a = (map CbText ts, err) -> texts (callbacks i a) = ts.
Proof.
  unfold callbacks. intros ->. simpl. induction ts as [|t ts IH]; [done|].
  simpl. unfold texts in *. simpl. by rewrite IH.
Qed.

Lemma texts_resolved_last (w i c : nat) :
  texts (shape k (Resolved w MAX_RETRIES c) i)
  = texts (callbacks i 0) ++ texts (callbacks i 1) ++ texts (callbacks i 2)
    ++ texts (callbacks i 3).
Proof.
  unfold MAX_RETRIES. cbn [shape failed_prefix]. unfold ending.
  repeat (rewrite ?texts_app, ?texts_log_entry;
          cbn [texts omap text_of app list_omap]).
  destruct (fails i 3);
    repeat (rewrite ?texts_app, ?texts_log_entry;
            cbn [texts omap text_of app list_omap]);
    by rewrite ?app_nil_r, <- ?app_assoc.
Qed.
End TextOnly.

(** C9. A reply that carries text parts and no image makes the worker
    call [onText] for every text part, in order, and then throw
    [No image data in response]: the attempt counts as failed, first in
    the Gemini adapter, then in the OpenAI-compatible one for a string
    body and for an array body.  Hence a slot whose four attempts all
    return only text has called [onText] for the texts of all four
    replies and ends with the error placeholder as its only [onImage];
    and in both adapters an attempt succeeds only if it called
    [onImage]. *)
Theorem text_only_attempts :
  (forall uuid response candidate rest c parts,
     Gemini.candidates response = Some (candidate :: rest) ->
     Gemini.blocked candidate = false ->
     Gemini.content candidate = Some c ->
     Gemini.content_parts c = Some parts ->
     Forall (fun part => Gemini.image_data part = None) parts ->
     Gemini.read_reply uuid (Gemini.Resolves response)
     = (map CbText (Gemini.part_texts parts),
        Some (thrown ImageProcessingError "No image data in response")))
  /\ (forall uuid response choice rest s,
        OpenAI.choices response = Some (choice :: rest) ->
        OpenAI.blocked choice = false ->
        OpenAI.content_of (OpenAI.message choice) = Some (OpenAI.ContentString s) ->
        OpenAI.find_data_uri s = None ->
        OpenAI.read_reply uuid (OpenAI.Resolves response)
        = ([CbText s], Some (thrown ImageProcessingError "No image data in response")))
  /\ (forall uuid response choice rest parts,
        OpenAI.choices response = Some (choice :: rest) ->
        OpenAI.blocked choice = false ->
        OpenAI.content_of (OpenAI.message choice) = Some (OpenAI.ContentArray parts) ->
        Forall (fun part => OpenAI.has_image part = false) parts ->
        OpenAI.read_reply uuid (OpenAI.Resolves response)
        = (map CbText (omap OpenAI.part_text parts),
           Some (thrown ImageProcessingError "No image data in response")))
  /\ (forall (adapter : Adapter) (lawful : Lawful adapter) k sched i
             (ts : nat -> list jsstring) (err : nat -> Thrown),
        never_cancelled sched ->
        all_returned (run k sched (start k false)) = true ->
        i < k ->
        (forall a, a <= MAX_RETRIES -> attempt_result i a = (map CbText (ts a), Some (err a))) ->
        texts (slot_events i (events (run k sched (start k false))))
        = ts 0 ++ ts 1 ++ ts 2 ++ ts 3
        /\ images (slot_events i (events (run k sched (start k false))))
           = [error_image i]
        /\ gi_status (error_image i) = error)
  /\ (forall provider generateUUID i a,
        snd (attempt_result (Adapter := Gemini.adapter provider generateUUID) i a) = None ->
        exists img,
          In (CbImage img)
             (fst (attempt_result (Adapter := Gemini.adapter provider generateUUID) i a)))
  /\ (forall provider generateUUID i a,
        snd (attempt_result (Adapter := OpenAI.adapter provider generateUUID) i a) = None ->
        exists img,
          In (CbImage img)
             (fst (attempt_result (Adapter := OpenAI.adapter provider generateUUID) i a))).
Proof.
  repeat split.
  - intros uuid response candidate rest c parts Hc Hb Hcontent Hparts Hno.
    unfold Gemini.read_reply. by rewrite Hc, Hb, Hcontent, Hparts, gemini_text_only.
  - intros uuid response choice rest s Hc Hb Hcontent Hno.
    unfold OpenAI.read_reply.
    rewrite Hc, Hb, Hcontent. simpl. by rewrite Hno.
  - intros uuid response choice rest parts Hc Hb Hcontent Hno.
    unfold OpenAI.read_reply. rewrite Hc, Hb, Hcontent. simpl.
    by rewrite openai_text_only.
  - destruct (finished_slot k sched i H H0 H1) as (w & a & c & Hev & Ha & Hprev & Hlast).
    assert (forall b, b <= MAX_RETRIES -> fails i b = true) as Hfail.
    { intros b Hb. unfold fails. by rewrite (H2 b Hb). }
    assert (a = MAX_RETRIES) as -> by (apply Hlast, Hfail, Ha).
    rewrite Hev, texts_resolved_last.
    unfold MAX_RETRIES in H2.
    by rewrite !(texts_callbacks _ _ (ts _) (Some (err _))) by (apply H2; lia).
  - destruct (finished_slot k sched i H H0 H1) as (w & a & c & Hev & Ha & Hprev & Hlast).
    assert (forall b, b <= MAX_RETRIES -> fails i b = true) as Hfail.
    { intros b Hb. unfold fails. by rewrite (H2 b Hb). }
    assert (a = MAX_RETRIES) as -> by (apply Hlast, Hfail, Ha).
    rewrite Hev, images_resolved by done. by rewrite Hfail.
  - intros provider generateUUID i a.
    apply (success_has_image (Lawful := gemini_lawful provider generateUUID)).
  - intros provider generateUUID i a.
    apply (success_has_image (Lawful := openai_lawful provider generateUUID)).
Qed.

Lemma text_only_attempts_witness :
  texts (slot_events 0
           (events (run (adapter := Gemini.adapter only_text sample_uuid) 1
                      (run_to_end (Gemini.adapter only_text sample_uuid) 1)
                      (start 1 false))))
  = [lit "I cannot draw that."; lit "I cannot draw that.";
     lit "I cannot draw that."; lit "I cannot draw that."]
  /\ images (slot_events 0
               (events (run (adapter := Gemini.adapter only_text sample_uuid) 1
                          (run_to_end (Gemini.adapter only_text sample_uuid) 1)
                          (start 1 false))))
     = [error_image (adapter := Gemini.adapter only_text sample_uuid) 0].
Proof.
  destruct text_only_attempts as (_ & _ & _ & Hslot & _).
  destruct (Hslot (Gemini.adapter only_text sample_uuid)
              (gemini_lawful only_text sample_uuid) 1
              (run_to_end (Gemini.adapter only_text sample_uuid) 1) 0
              (fun _ => [lit "I cannot draw that."])
              (fun _ => thrown ImageProcessingError "No image data in response"))
    as (Ht & Hi & _); [reflexivity|reflexivity|lia|by intros a _|].
  by split.
Defined.

(** ** The proxy endpoint *)

Lemma last_rev (s : jsstring) : last (rev s) = head s.
Proof. destruct s as [|c s]; [done|]. simpl. apply last_snoc. Qed.

Lemma trim_start_spec (s : jsstring) :
  exists lead,
    s = lead ++ trim_start s
    /\ forallb is_space lead = true
    /\ (forall c, head (trim_start s) = Some c -> is_space c = false).
Proof.
  induction s as [|c s (lead & Hs & Hlead & Hhead)]; simpl.
  - by exists [].
  - destruct (is_space c) eqn:E.
    + exists (c :: lead). simpl. rewrite E, Hlead. split; [by f_equal|done].
    + exists []. split; [done|]. split; [done|]. by intros ? [= <-].
Qed.

(** [trim] removes white space, and only white space, from both ends,
    and leaves none there. *)
Lemma trim_spec (s : jsstring) :
  exists lead trail,
    s = lead ++ trim s ++ trail
    /\ forallb is_space lead = true
    /\ forallb is_space trail = true
    /\ (forall c, head (trim s) = Some c -> is_space c = false)
    /\ (forall c, last (trim s) = Some c -> is_space c = false).
Proof.
  unfold trim.
  destruct (trim_start_spec s) as (lead & Hs & Hlead & Hhead).
  destruct (trim_start_spec (rev (trim_start s))) as (trail & Hr & Htrail & Hlast).
  exists lead, (rev trail). split; [|split; [done|split; [|split]]].
  - rewrite Hs at 1. f_equal.
    rewrite <- (rev_involutive (trim_start s)), Hr at 1. by rewrite rev_app_distr.
  - rewrite forallb_forall in *. intros c Hc. apply Htrail. by apply in_rev.
  - intros c Hc.
    destruct (trim_start (rev (trim_start s))) as [|d r] eqn:E; [done|].
    (* the first code unit of the result is the first one of [trim_start s] *)
    assert (trim_start s = rev (d :: r) ++ rev trail) as Ht.
    { rewrite <- (rev_involutive (trim_start s)), Hr. by rewrite rev_app_distr. }
    apply Hhead. rewrite Ht.
    destruct (rev (d :: r)) as [|e l] eqn:El.
    { apply (f_equal (@length N)) in El. rewrite length_rev in El. done. }
    simpl in *. done.
  - intros c Hc. apply Hlast. rewrite last_rev in Hc. done.
Qed.

Lemma drop_slashes_spec (s : jsstring) :
  exists n,
    s = repeat slash n ++ Gemini.drop_slashes s
    /\ head (Gemini.drop_slashes s) <> Some slash.
Proof.
  induction s as [|c s (n & Hs & Hhead)]; simpl.
  - by exists 0.
  - destruct (code_eqb c slash) eqn:E.
    + apply code_eqb_eq in E as ->. exists (S n). simpl. split; [by f_equal|done].
    + exists 0. split; [done|]. simpl. apply code_eqb_neq in E. congruence.
Qed.

(** [strip_trailing_slashes] removes the slashes at the end, all of
    them and nothing else. *)
Lemma strip_trailing_slashes_spec (s : jsstring) :
  exists n,
    s = Gemini.strip_trailing_slashes s ++ repeat slash n
    /\ last (Gemini.strip_trailing_slashes s) <> Some slash.
Proof.
  unfold Gemini.strip_trailing_slashes.
  destruct (drop_slashes_spec (rev s)) as (n & Hs & Hhead).
  exists n. split.
  - rewrite <- (rev_involutive s), Hs at 1.
    rewrite rev_app_distr. f_equal.
    clear. induction n as [|n IH]; [done|]. simpl. rewrite IH.
    clear. induction n as [|n IH]; [done|]. simpl. by f_equal.
  - by rewrite last_rev.
Qed.






(** ** What is sent: earlier messages *)

Lemma selected_image_context (m1 m2 : Message) :
  context_of m1 = context_of m2 -> selected_image m1 = selected_image m2.
Proof. unfold context_of, selected_image. by intros [= -> -> ->]. Qed.

Lemma gemini_collect_context {validation : Validation} (h1 h2 : list Message) :
  map context_of h1 = map context_of h2 ->
  Gemini.collectSelectedImages h1 = Gemini.collectSelectedImages h2.
Proof.
  revert h2. induction h1 as [|m1 h1 IH]; intros [|m2 h2]; try done.
  simpl. intros [= Hr Hi Hs Hh].
  assert (context_of m1 = context_of m2) as Hm by (unfold context_of; congruence).
  by rewrite (IH h2 Hh), (selected_image_context m1 m2 Hm).
Qed.

Lemma openai_collect_context {validation : Validation} (h1 h2 : list Message) :
  map context_of h1 = map context_of h2 ->
  OpenAI.collectSelectedImages h1 = OpenAI.collectSelectedImages h2.
Proof.
  revert h2. induction h1 as [|m1 h1 IH]; intros [|m2 h2]; try done.
  simpl. intros [= Hr Hi Hs Hh].
  assert (context_of m1 = context_of m2) as Hm by (unfold context_of; congruence).
  by rewrite (IH h2 Hh), (selected_image_context m1 m2 Hm).
Qed.

Lemma prev_history_context (h1 h2 : list Message) :
  map context_of h1 = map context_of h2 ->
  GeminiPrev.buildHistory h1 = GeminiPrev.buildHistory h2.
Proof.
  revert h2. induction h1 as [|m1 h1 IH]; intros [|m2 h2]; try done.
  simpl. intros [= Hr Hi Hs Hh]. rewrite (IH h2 Hh).
  unfold GeminiPrev.history_parts. by rewrite Hr, Hi, Hs.
Qed.

Lemma prev_history_roles (h : list Message) :
  user_messages (fst (GeminiPrev.buildHistory h)) = 0.
Proof.
  unfold user_messages. induction h as [|m h IH]; [done|]. simpl.
  destruct (GeminiPrev.buildHistory h) as [history logs]. simpl in IH.
  destruct (GeminiPrev.history_parts m) as [parts d] eqn:E.
  destruct (0 <? length parts) eqn:El; [|done]. simpl.
  unfold GeminiPrev.history_parts in E.
  destruct (msg_role m); [|done]. injection E as <- _. done.
Qed.

(** C10. Two histories whose messages have the same roles, images and
    selected image ids (so they may differ in every [text] and
    [textVariations]) lead to the same user message, the same diagnostics
    and the same outbound request, in the Gemini adapter, in its previous
    revision and in the OpenAI-compatible adapter; and what is sent holds
    exactly one user-role message, the current one. *)
Theorem prior_text_not_sent {validation : Validation} (h1 h2 : list Message) :
  map context_of h1 = map context_of h2 ->
  (forall apiKey prompt uploadedImages,
     Gemini.prepare apiKey prompt h1 uploadedImages
     = Gemini.prepare apiKey prompt h2 uploadedImages)
  /\ (forall apiKey settings prepared,
        Gemini.outbound apiKey h1 settings prepared
        = Gemini.outbound apiKey h2 settings prepared)
  /\ (forall apiKey prompt uploadedImages,
        OpenAI.prepare apiKey prompt h1 uploadedImages
        = OpenAI.prepare apiKey prompt h2 uploadedImages)
  /\ (forall modelName settings userContent,
        OpenAI.outbound modelName h1 settings userContent
        = OpenAI.outbound modelName h2 settings userContent)
  /\ (forall userParts,
        GeminiPrev.contents h1 userParts = GeminiPrev.contents h2 userParts)
  /\ (forall apiKey settings prepared modelName contents config,
        Gemini.outbound apiKey h1 settings prepared
        = Ok (Gemini.SdkRequest modelName contents config) ->
        user_messages contents = 1)
  /\ (forall apiKey settings prepared r,
        Gemini.outbound apiKey h1 settings prepared = Ok (Gemini.ProxyRequest r) ->
        user_messages (Gemini.body_contents r) = 1)
  /\ (forall modelName settings userContent,
        map fst (OpenAI.req_messages (OpenAI.outbound modelName h1 settings userContent))
        = [user])
  /\ (forall userParts, user_messages (GeminiPrev.contents h1 userParts) = 1).
Proof.
  intros Hctx. repeat split.
  - intros. unfold Gemini.prepare. by rewrite (gemini_collect_context h1 h2).
  - intros. unfold OpenAI.prepare. by rewrite (openai_collect_context h1 h2).
  - intros. unfold GeminiPrev.contents. by rewrite (prev_history_context h1 h2).
  - intros apiKey settings prepared modelName contents config.
    unfold Gemini.outbound.
    destruct (0 <? length (Gemini.proxyBaseUrl settings)).
    + by destruct (Gemini.fetchGeminiGenerateContent _ _ _ _ _).
    + by intros [= _ <- _].
  - intros apiKey settings prepared r. unfold Gemini.outbound.
    destruct (0 <? length (Gemini.proxyBaseUrl settings)); [|done].
    destruct (Gemini.fetchGeminiGenerateContent _ _ _ _ _) as [r'|e] eqn:E; [|done].
    intros [= <-]. unfold Gemini.fetchGeminiGenerateContent in E.
    destruct (Gemini.appendKeyParam _ _) as [u|?]; [|done].
    destruct (negb (truthy u)); [done|]. by injection E as <-.
  - intros userParts. unfold GeminiPrev.contents, user_messages.
    rewrite List.filter_app, length_app. fold (user_messages (fst (GeminiPrev.buildHistory h1))).
    by rewrite prev_history_roles.
Qed.

Lemma prior_text_not_sent_witness :
  map context_of [earlier_turn "a red fox, oil painting"]
  = map context_of [earlier_turn "secret"]
  /\ Gemini.prepare (validation := lenient) (lit "key") (lit "make it blue")
       [earlier_turn "a red fox, oil painting"] None
     = Gemini.prepare (validation := lenient) (lit "key") (lit "make it blue")
         [earlier_turn "secret"] None.
Proof.
  split; [reflexivity|].
  apply (prior_text_not_sent (validation := lenient) [earlier_turn "a red fox, oil painting"]
           [earlier_turn "secret"]).
  reflexivity.
Defined.

(** ** What is sent: uploads and the prompt *)

Section Preflight.
Context {validation : Validation}.


(** When the validators let the key and the prompt pass, the Gemini
    adapter rejects the call before the pool exists exactly when uploads
    were supplied and none of them survives, or when there is no prompt,
    no selected image and no upload. *)
Lemma gemini_prepare_rejects (apiKey prompt : jsstring) (history : list Message)
    (uploadedImages : option (list UploadedImage)) :
  validateApiKey apiKey = None ->
  validatePrompt prompt = None ->
  (exists e, snd (Gemini.prepare apiKey prompt history uploadedImages) = Throw e)
  <-> (supplied uploadedImages <> []
       /\ fst (Gemini.filter_uploads (supplied uploadedImages)) = [])
      \/ (prompt = [] /\ fst (Gemini.collectSelectedImages history) = []
          /\ supplied uploadedImages = []).
Proof.
  intros Hkey Hprompt. unfold Gemini.prepare. rewrite Hkey.
  assert ((if truthy prompt then validatePrompt prompt else None) = None) as ->
    by (by destruct (truthy prompt)).
  destruct (Gemini.collectSelectedImages history) as [selected logs1].
  assert (forall (imgs : list ImageInput) (f : ImageInput -> OutPart) (t : OutPart),
            (length ((if truthy prompt then [t] else []) ++ map f imgs) =? 0)
            = negb (truthy prompt) && (length imgs =? 0)) as Hparts.
  { intros imgs f t. by destruct prompt, imgs. }
  assert (forall (logs : list Diagnostic) (r : Gemini.Prepared),
            (exists e, snd (if negb (truthy prompt) && (length (selected ++ []) =? 0)
                            then (logs, Throw Gemini.nothing_to_send)
                            else (logs, Ok r)) = Throw e)
            <-> (prompt = [] /\ selected = [])) as Hnone.
  { intros logs r. rewrite app_nil_r.
    destruct prompt, selected; simpl; split;
      try (intros [e He]; done); try (intros [? ?]; done); eauto. }
  destruct uploadedImages as [[|img rest]|]; cbn [supplied fst].
  - cbn beta iota. cbn [andb]. rewrite Hparts, Hnone.
    split; [intros [? ?]; by right|]. by intros [[? _]|(? & ? & _)].
  - destruct (Gemini.filter_uploads (img :: rest)) as [inputs logs2].
    cbn beta iota. cbn [andb fst].
    destruct inputs as [|x inputs]; cbn [length Nat.eqb].
    + split; [intros _; by left|]. by eauto.
    + rewrite Hparts, length_app. cbn [length].
      replace (length selected + S (length inputs) =? 0) with false
        by (symmetry; apply Nat.eqb_neq; lia).
      rewrite andb_false_r.
      split; [by intros [e He]|]. by intros [[_ ?]|(_ & _ & ?)].
  - cbn beta iota. cbn [andb]. rewrite Hparts, Hnone.
    split; [intros [? ?]; by right|]. by intros [[? _]|(? & ? & _)].
Qed.

(** The text the Gemini adapter sends is the prompt, with the legend in
    front of it exactly when more than one image is sent along and the
    prompt refers to an image by number; it depends on the images only
    through their number. *)
Lemma gemini_prompt_text (apiKey prompt : jsstring) (history : list Message)
    (uploadedImages : option (list UploadedImage)) (logs : list Diagnostic)
    (prepared : Gemini.Prepared) :
  Gemini.prepare apiKey prompt history uploadedImages = (logs, Ok prepared) ->
  prompt <> [] ->
  exists imageInputs,
    Gemini.userParts prepared
    = TextPart (Gemini.enhancePrompt prompt (length imageInputs))
      :: map (fun img => InlineDataPart (mimeType img) (base64Data img)) imageInputs.
Proof.
  unfold Gemini.prepare. intros Hprep Hprompt.
  destruct (validateApiKey apiKey); [done|].
  destruct (if truthy prompt then validatePrompt prompt else None); [done|].
  destruct (Gemini.collectSelectedImages history) as [selected logs1].
  destruct (match uploadedImages with Some ((_ :: _) as imgs) => _ | _ => _ end)
    as [inputs logs2].
  destruct (_ && _); [done|].
  apply truthy_true in Hprompt. rewrite Hprompt in Hprep. simpl in Hprep.
  injection Hprep as _ <-. by exists (selected ++ inputs).
Qed.

(** The OpenAI-compatible adapter rejects the call only when nothing at
    all is left to send; uploads that do not survive are no reason. *)
Lemma openai_prepare_rejects (apiKey prompt : jsstring) (history : list Message)
    (uploadedImages : option (list UploadedImage)) :
  validateApiKey apiKey = None ->
  validatePrompt prompt = None ->
  (exists e, snd (OpenAI.prepare apiKey prompt history uploadedImages) = Throw e)
  <-> (prompt = [] /\ fst (OpenAI.collectSelectedImages history) = []
       /\ fst (OpenAI.filter_uploads (supplied uploadedImages)) = []).
Proof.
  intros Hkey Hprompt. unfold OpenAI.prepare. rewrite Hkey.
  assert ((if truthy prompt then validatePrompt prompt else None) = None) as ->
    by (by destruct (truthy prompt)).
  destruct (OpenAI.collectSelectedImages history) as [selected logs1].
  assert (match uploadedImages with
          | Some ((_ :: _) as imgs) => OpenAI.filter_uploads imgs
          | _ => ([], [])
          end = OpenAI.filter_uploads (supplied uploadedImages)) as ->
    by (by destruct uploadedImages as [[|? ?]|]).
  destruct (OpenAI.filter_uploads (supplied uploadedImages)) as [uploaded logs2].
  cbn [fst].
  destruct prompt, selected, uploaded; simpl; split;
    try (intros [e He]; done); try (intros (? & ? & ?); done); eauto.
Qed.

(** A call the Gemini adapter rejects never gets a pool. *)
Lemma gemini_rejected_without_pool provider generateUUID apiKey prompt history
    settings uploadedImages signal sched logs e :
  Gemini.prepare apiKey prompt history uploadedImages = (logs, Throw e) ->
  Gemini.generateImageBatchStream provider generateUUID apiKey prompt history settings
    uploadedImages signal sched
  = (logs, Throw e).
Proof. unfold Gemini.generateImageBatchStream. by intros ->. Qed.

Lemma gemini_enhancePrompt_cases (prompt : jsstring) (n : nat) :
  (1 < n -> Gemini.hasImageReference prompt = true ->
   Gemini.enhancePrompt prompt n = Gemini.legend n ++ prompt)
  /\ (n <= 1 -> Gemini.enhancePrompt prompt n = prompt)
  /\ (Gemini.hasImageReference prompt = false -> Gemini.enhancePrompt prompt n = prompt).
Proof.
  unfold Gemini.enhancePrompt. repeat split.
  - intros Hn ->. apply Nat.ltb_lt in Hn. by rewrite Hn.
  - intros Hn. destruct (Nat.ltb_spec 1 n); [lia|done].
  - intros ->. by rewrite andb_false_r.
Qed.
End Preflight.

(** C5, at the input that separates the two adapters: one upload whose
    data is not a data URI, together with a prompt.  The Gemini adapter
    logs the dropped upload and rejects the call; the OpenAI-compatible
    adapter logs nothing and accepts the call with the prompt alone. *)
Theorem openai_accepts_batch_without_valid_uploads :
  OpenAI.prepare (validation := lenient) (lit "key") (lit "a cat") [] (Some [broken_upload])
  = ([], Ok [OpenAI.TextOut (lit "a cat")])
  /\ Gemini.prepare (validation := lenient) (lit "key") (lit "a cat") [] (Some [broken_upload])
     = ([image_diag (lit "Invalid image data format for image u1")],
        Throw Gemini.no_valid_images).
Proof. split; reflexivity. Qed.

(** C6, at the input that separates the two adapters: two uploads and a
    prompt that refers to them by number.  The Gemini adapter puts its
    legend in front of the prompt; the OpenAI-compatible adapter sends the
    prompt as it is. *)
Theorem openai_sends_prompt_without_legend :
  OpenAI.prepare (validation := lenient) (lit "key") (lit "put image 1 on image 2") []
    (Some [first_upload; second_upload])
  = ([], Ok [OpenAI.TextOut (lit "put image 1 on image 2");
             OpenAI.ImageUrlOut (ui_data first_upload);
             OpenAI.ImageUrlOut (ui_data second_upload)])
  /\ Gemini.prepare (validation := lenient) (lit "key") (lit "put image 1 on image 2") []
       (Some [first_upload; second_upload])
     = ([], Ok {| Gemini.userParts :=
                    [TextPart (Gemini.legend 2 ++ lit "put image 1 on image 2");
                     InlineDataPart (lit "image/png") (lit "AAAA");
                     InlineDataPart (lit "image/jpeg") (lit "BBBB")];
                  Gemini.userPartsProxy :=
                    [TextPart (Gemini.legend 2 ++ lit "put image 1 on image 2");
                     Inline_dataPart (lit "image/png") (lit "AAAA");
                     Inline_dataPart (lit "image/jpeg") (lit "BBBB")] |})
  /\ Gemini.legend 2
     = lit "???????????1????????????2????????" ++ [10; 10]%N.
Proof. repeat split; reflexivity. Qed.

(* ===================================================================== *)
(** * Part III: further properties of the same code *)
(* ===================================================================== *)

(** ** The worker pool: bounds that hold in every state *)

Section PoolBounds.
Context {adapter : Adapter}.
Variable k : nat.

Lemma claim_completed (p : Pool) :
  completedCount (fst (claim p)) = completedCount p.
Proof. unfold claim. destruct (taskQueue p); [done|]. by destruct (aborted p). Qed.

Lemma spawn_completed (p : Pool) : completedCount (spawn p) = completedCount p.
Proof.
  unfold spawn. pose proof (claim_completed p) as H.
  by destruct (claim p).
Qed.

Lemma start_completed (signal : bool) : completedCount (start k signal) = 0.
Proof.
  unfold start. induction (numWorkers k) as [|n IH]; [done|].
  cbn [Nat.iter nat_rect]. by rewrite spawn_completed.
Qed.

Lemma resume_aborted_fields (wid : nat) (x : Worker) (p : Pool) :
  aborted p = true ->
  snd (resume k wid x p) = Returned
  /\ workers (fst (resume k wid x p)) = workers p
  /\ completedCount (fst (resume k wid x p)) = completedCount p
  /\ taskQueue (fst (resume k wid x p)) = taskQueue p
  /\ aborted (fst (resume k wid x p)) = true.
Proof.
  intros Hab. rewrite resume_aborted by done. by destruct x.
Qed.

Lemma step_aborted_fields (t : Tick) (p : Pool) :
  aborted p = true ->
  aborted (step k t p) = true
  /\ completedCount (step k t p) = completedCount p
  /\ taskQueue (step k t p) = taskQueue p
  /\ workers (step k t p)
     = match t with Resume w => <[w := Returned]> (workers p) | Abort => workers p end.
Proof.
  intros Hab. destruct t as [w|]; unfold step; [|done].
  destruct (workers p !! w) as [x|] eqn:Hw.
  - destruct (resume_aborted_fields (S w) x p Hab) as (Hy & Hws & Hc & Hq & Ha).
    destruct (resume k (S w) x p) as [p' y]. pool. subst y. by rewrite Hws.
  - split_and!; try done. symmetry. apply list_insert_ge.
    by apply lookup_ge_None.
Qed.

Lemma step_completed_le (t : Tick) (p : Pool) :
  Counting k p -> completedCount p <= k -> completedCount (step k t p) <= k.
Proof.
  intros HN Hle. destruct (aborted p) eqn:Hab.
  - by destruct (step_aborted_fields t p Hab) as (_ & -> & _).
  - destruct t as [w|]; [|done].
    pose proof (step_counting k (Resume w) p HN) as HN'.
    pose proof (cnt_balance _ _ HN') as Hb. rewrite step_signal in Hb.
    specialize (Hb Hab). lia.
Qed.

Lemma run_completed_le (sched : list Tick) (p : Pool) :
  Counting k p -> completedCount p <= k -> completedCount (run k sched p) <= k.
Proof.
  revert p. induction sched as [|t s IH]; intros p HN Hle; [done|].
  change (run k (t :: s) p) with (run k s (step k t p)).
  apply IH; [by apply step_counting|by apply step_completed_le].
Qed.

Lemma active_le_length (ws : list Worker) : active ws <= length ws.
Proof. unfold active. apply List.filter_length_le. Qed.
End PoolBounds.

(** X1.  In every state a batch can reach, cancelled or not, the calls of
    [onProgress] made so far are exactly (1, k), (2, k), ..., (c, k),
    where [c] is the current value of [completedCount], and [c] never
    exceeds the batch size: progress never skips, repeats or overshoots. *)
Theorem progress_in_every_state {adapter : Adapter} (k : nat) (signal : bool)
    (sched : list Tick) :
  progress_calls (events (run k sched (start k signal)))
  = map (fun c => (c, k)) (seq 1 (completedCount (run k sched (start k signal))))
  /\ completedCount (run k sched (start k signal)) <= k.
Proof.
  pose proof (counting_start k signal) as HN. split.
  - by apply (cnt_progress _ _ (run_counting k sched _ HN)).
  - apply run_completed_le; [done|]. rewrite start_completed. lia.
Qed.

(** X2.  A batch runs min(10, k) workers, whatever the schedule, so at
    most ten provider calls or backoff waits are pending at any time;
    and as long as the batch is not cancelled every slot is either
    finished, held by exactly one pending worker, or still in the
    queue. *)
Theorem concurrency_bound {adapter : Adapter} (k : nat) (signal : bool)
    (sched : list Tick) :
  length (workers (run k sched (start k signal))) = Nat.min MAX_CONCURRENT_REQUESTS k
  /\ active (workers (run k sched (start k signal))) <= MAX_CONCURRENT_REQUESTS
  /\ active (workers (run k sched (start k signal))) <= k
  /\ (aborted (run k sched (start k signal)) = false ->
      completedCount (run k sched (start k signal))
      + active (workers (run k sched (start k signal)))
      + length (taskQueue (run k sched (start k signal))) = k).
Proof.
  assert (length (workers (run k sched (start k signal)))
          = Nat.min MAX_CONCURRENT_REQUESTS k) as Hlen.
  { by rewrite run_workers_length, start_workers_length. }
  pose proof (active_le_length (workers (run k sched (start k signal)))) as Hact.
  split_and!; [done|lia|lia|].
  apply (cnt_balance _ _ (run_counting k sched _ (counting_start k signal))).
Qed.

(** ** The worker pool: how a batch starts *)

Section PoolStart.
Context {adapter : Adapter}.
Variable k : nat.

Lemma claim_cancelled (p : Pool) : aborted p = true -> claim p = (p, Returned).
Proof. intros Hab. unfold claim. rewrite Hab. by destruct (taskQueue p). Qed.

Lemma iter_spawn_cancelled (n : nat) :
  Nat.iter n spawn
    {| taskQueue := seq 0 k; completedCount := 0; aborted := true;
       workers := []; events := [] |}
  = {| taskQueue := seq 0 k; completedCount := 0; aborted := true;
       workers := repeat Returned n; events := [] |}.
Proof.
  induction n as [|n IH]; [done|].
  rewrite Nat.iter_succ, IH. unfold spawn.
  rewrite claim_cancelled by done. unfold set_workers. pool.
  f_equal. by rewrite <- repeat_cons.
Qed.

Lemma iter_spawn_live (n : nat) :
  n <= k ->
  Nat.iter n spawn
    {| taskQueue := seq 0 k; completedCount := 0; aborted := false;
       workers := []; events := [] |}
  = {| taskQueue := seq n (k - n); completedCount := 0; aborted := false;
       workers := map (fun i => Calling i 0) (seq 0 n);
       events := map (fun i => Request i 0) (seq 0 n) |}.
Proof.
  induction n as [|n IH]; intros Hn.
  - simpl. by rewrite Nat.sub_0_r.
  - rewrite Nat.iter_succ, IH by lia. rewrite !seq_S, !map_app.
    unfold spawn, claim. pool.
    replace (k - n) with (S (k - S n)) by lia. cbn [seq]. pool.
    unfold set_workers, emit, set_queue. by pool.
Qed.

Lemma step_idle (t : Tick) (p : Pool) :
  all_returned p = true ->
  all_returned (step k t p) = true
  /\ events (step k t p) = events p
  /\ completedCount (step k t p) = completedCount p
  /\ taskQueue (step k t p) = taskQueue p.
Proof.
  intros Hall. destruct t as [w|]; unfold step; [|done].
  destruct (workers p !! w) as [x|] eqn:Hw; [|done].
  assert (x = Returned) as -> by (by eapply all_returned_lookup).
  cbn [resume]. unfold all_returned, set_workers. pool.
  by rewrite list_insert_id.
Qed.

Lemma run_idle (sched : list Tick) (p : Pool) :
  all_returned p = true ->
  all_returned (run k sched p) = true
  /\ events (run k sched p) = events p
  /\ completedCount (run k sched p) = completedCount p
  /\ taskQueue (run k sched p) = taskQueue p.
Proof.
  revert p. induction sched as [|t s IH]; intros p Hall; [done|].
  change (run k (t :: s) p) with (run k s (step k t p)).
  destruct (step_idle t p Hall) as (H1 & H2 & H3 & H4).
  destruct (IH _ H1) as (? & ? & ? & ?). split_and!; congruence.
Qed.
End PoolStart.

(** X3.  A batch that is started with the abort signal already set, or
    with a batch size of zero, sends no request and calls no callback,
    whatever happens afterwards: every worker has returned at once, the
    queue is untouched and the progress counter stays at zero. *)
Theorem nothing_to_run {adapter : Adapter} (k : nat) (signal : bool)
    (sched : list Tick) :
  signal = true \/ k = 0 ->
  events (run k sched (start k signal)) = []
  /\ all_returned (run k sched (start k signal)) = true
  /\ completedCount (run k sched (start k signal)) = 0
  /\ taskQueue (run k sched (start k signal)) = seq 0 k.
Proof.
  intros H.
  assert (all_returned (start k signal) = true /\ events (start k signal) = []
          /\ completedCount (start k signal) = 0
          /\ taskQueue (start k signal) = seq 0 k) as (Ha & He & Hc & Hq).
  { destruct H as [->| ->].
    - unfold start. rewrite iter_spawn_cancelled. split_and!; try done.
      unfold all_returned. pool. by induction (numWorkers k).
    - by destruct signal. }
  destruct (run_idle k sched _ Ha) as (? & ? & ? & ?).
  split_and!; congruence.
Qed.

Lemma nothing_to_run_witness :
  events (run (adapter := Gemini.adapter two_images sample_uuid) 3
            [Resume 0; Abort; Resume 1] (start 3 true)) = []
  /\ events (run (adapter := Gemini.adapter two_images sample_uuid) 0
               [Resume 0] (start 0 false)) = [].
Proof.
  split.
  - apply (nothing_to_run (adapter := Gemini.adapter two_images sample_uuid) 3 true
             [Resume 0; Abort; Resume 1]). by left.
  - apply (nothing_to_run (adapter := Gemini.adapter two_images sample_uuid) 0 false
             [Resume 0]). by right.
Defined.

(** X4.  A batch that is not cancelled at the start sends its first
    min(10, k) requests at once, for the slots 0, 1, 2, ... in this
    order, one per worker; the remaining slots wait in the queue, in
    order, and nothing else has happened yet. *)
Theorem start_requests {adapter : Adapter} (k : nat) :
  start k false
  = {| taskQueue := seq (Nat.min MAX_CONCURRENT_REQUESTS k)
                        (k - Nat.min MAX_CONCURRENT_REQUESTS k);
       completedCount := 0;
       aborted := false;
       workers := map (fun i => Calling i 0) (seq 0 (Nat.min MAX_CONCURRENT_REQUESTS k));
       events := map (fun i => Request i 0) (seq 0 (Nat.min MAX_CONCURRENT_REQUESTS k)) |}.
Proof. unfold start, numWorkers. apply iter_spawn_live. lia. Qed.

(** ** The worker pool: the cost of a batch *)

Lemma filter_request_control (l : list Event) :
  List.filter is_request (List.filter is_control l) = List.filter is_request l.
Proof.
  induction l as [|e l IH]; [done|]. destruct e; simpl; by rewrite ?IH.
Qed.

Lemma filter_wait_control (l : list Event) :
  List.filter is_wait (List.filter is_control l) = List.filter is_wait l.
Proof.
  induction l as [|e l IH]; [done|]. destruct e; simpl; by rewrite ?IH.
Qed.

Lemma waited_control (l : list Event) :
  waited (List.filter is_control l) = waited l.
Proof.
  unfold waited. induction l as [|e l IH]; [done|].
  destruct e; simpl; rewrite ?IH; lia.
Qed.

Lemma waited_app (a b : list Event) : waited (a ++ b) = (waited a + waited b)%Z.
Proof.
  unfold waited. induction a as [|e a IH]; [done|]. simpl. rewrite IH. lia.
Qed.

Lemma waited_nonneg (l : list Event) :
  Forall (fun e => (0 <= wait_of e)%Z) l -> (0 <= waited l)%Z.
Proof.
  unfold waited. induction 1 as [|e l He _ IH]; simpl; lia.
Qed.

Lemma count_split (f g : Event -> bool) (l : list Event) :
  length (List.filter f l)
  = length (List.filter f (List.filter g l))
    + length (List.filter f (List.filter (fun e => negb (g e)) l)).
Proof.
  induction l as [|e l IH]; [done|].
  simpl. destruct (g e), (f e) eqn:Hf; simpl; rewrite ?Hf; simpl; lia.
Qed.

Lemma count_narrow (f g h : Event -> bool) (l : list Event) :
  length (List.filter f (List.filter g (List.filter h l)))
  <= length (List.filter f (List.filter g l)).
Proof.
  induction l as [|e l IH]; [done|].
  simpl. destruct (h e), (g e) eqn:Hg, (f e) eqn:Hf; simpl;
    rewrite ?Hg; simpl; rewrite ?Hf; simpl; lia.
Qed.

(** A bound on what every slot contributes bounds the whole log. *)
Lemma count_by_slot (f : Event -> bool) (B k : nat) (es : list Event) :
  Forall (fun e => slot_of e < k) es ->
  (forall i, length (List.filter f (slot_events i es)) <= B) ->
  length (List.filter f es) <= B * k.
Proof.
  revert es. induction k as [|k IH]; intros es Hall Hb.
  - destruct es as [|e es]; [simpl; lia|]. inversion Hall; lia.
  - rewrite (count_split f (fun e => slot_of e =? k)).
    pose proof (Hb k) as Hk. unfold slot_events in Hk.
    assert (length (List.filter f (List.filter (fun e => negb (slot_of e =? k)) es))
            <= B * k) as Hrest.
    { apply IH.
      - clear Hb Hk. induction Hall as [|e l He _ IHl]; [constructor|].
        simpl. destruct (slot_of e =? k) eqn:E; simpl; [done|].
        constructor; [|done]. apply Nat.eqb_neq in E. lia.
      - intros i. unfold slot_events.
        etransitivity; [apply count_narrow|]. apply Hb. }
    nia.
Qed.

Section PoolCost.
Context {adapter : Adapter}.
Variable k : nat.

Lemma slots_below (ph : nat -> Phase) (p : Pool) :
  Core k ph p -> Forall (fun e => slot_of e < k) (events p).
Proof.
  intros HC. apply List.Forall_forall. intros e He.
  destruct (Nat.lt_ge_cases (slot_of e) k) as [|Hge]; [done|]. exfalso.
  destruct (core_queue _ _ _ HC) as (m & Hm & _ & Hun).
  assert (ph (slot_of e) = Unclaimed) as Hph by (apply Hun; lia).
  pose proof (core_events _ _ _ HC (slot_of e)) as Hev. rewrite Hph in Hev.
  assert (In e (slot_events (slot_of e) (events p))) as Hin.
  { unfold slot_events. apply List.filter_In. split; [done|]. apply Nat.eqb_refl. }
  by rewrite Hev in Hin.
Qed.

Lemma slot_budget (signal : bool) (sched : list Tick) (i : nat) :
  requests (slot_events i (events (run k sched (start k signal)))) <= MAX_RETRIES + 1
  /\ waits (slot_events i (events (run k sched (start k signal)))) <= MAX_RETRIES
  /\ (waited (slot_events i (events (run k sched (start k signal)))) <= 7000)%Z.
Proof.
  destruct (control_reachable k signal sched i) as [rest Hrest].
  set (es := events (run k sched (start k signal))) in *.
  unfold control in Hrest. unfold requests, waits.
  rewrite <- (filter_request_control (slot_events i es)).
  rewrite <- (filter_wait_control (slot_events i es)).
  rewrite <- (waited_control (slot_events i es)).
  set (c := List.filter is_control (slot_events i es)) in *.
  split_and!.
  - apply (f_equal (fun l => length (List.filter is_request l))) in Hrest.
    rewrite List.filter_app, length_app in Hrest. simpl in Hrest.
    unfold MAX_RETRIES. lia.
  - apply (f_equal (fun l => length (List.filter is_wait l))) in Hrest.
    rewrite List.filter_app, length_app in Hrest. simpl in Hrest.
    unfold MAX_RETRIES. lia.
  - assert (Forall (fun e => (0 <= wait_of e)%Z) (retry_plan i)) as Hpos.
    { unfold retry_plan. repeat constructor; simpl; lia. }
    rewrite Hrest in Hpos. apply Forall_app in Hpos as [_ Hpos].
    apply waited_nonneg in Hpos.
    apply (f_equal waited) in Hrest. rewrite waited_app in Hrest.
    change (waited (retry_plan i)) with 7000%Z in Hrest. lia.
Qed.
End PoolCost.

(** X5.  Whatever the schedule and whenever the batch is cancelled, a
    slot is sent to the provider at most four times, waits at most
    three times and for at most seven seconds in all; a batch of [k]
    slots therefore never makes more than 4k provider calls nor more
    than 3k backoff waits. *)
Theorem request_budget {adapter : Adapter} (k : nat) (signal : bool)
    (sched : list Tick) :
  (forall i,
     requests (slot_events i (events (run k sched (start k signal)))) <= MAX_RETRIES + 1
     /\ waits (slot_events i (events (run k sched (start k signal)))) <= MAX_RETRIES
     /\ (waited (slot_events i (events (run k sched (start k signal)))) <= 7000)%Z)
  /\ requests (events (run k sched (start k signal))) <= (MAX_RETRIES + 1) * k
  /\ waits (events (run k sched (start k signal))) <= MAX_RETRIES * k.
Proof.
  destruct (reachable_core k signal sched) as [ph HC].
  pose proof (slots_below k ph _ HC) as Hbelow.
  split_and!.
  - intros i. apply slot_budget.
  - apply count_by_slot; [done|]. intros i. apply (slot_budget k signal sched i).
  - apply count_by_slot; [done|]. intros i. apply (slot_budget k signal sched i).
Qed.

(** ** The worker pool: what a slot delivers does not depend on the schedule *)

Section SlotCallbacks.
Context {adapter : Adapter}.
Variable k : nat.

Lemma callback_callbacks (i a : nat) :
  List.filter is_callback (callbacks i a) = callbacks i a.
Proof.
  unfold callbacks. induction (fst (attempt_result i a)) as [|c l IH]; [done|].
  destruct c; simpl; by rewrite IH.
Qed.

Lemma callback_log_entry (w i a : nat) :
  List.filter is_callback (log_entry w i a) = [].
Proof. unfold log_entry. by destruct (snd (attempt_result i a)). Qed.

Lemma callback_failed_prefix (w i a : nat) :
  List.filter is_callback (failed_prefix w i a)
  = concat (map (callbacks i) (seq 0 a)).
Proof.
  induction a as [|a IH]; [done|].
  rewrite failed_prefix_S, seq_S, map_app, concat_app.
  rewrite List.filter_app, IH. f_equal. simpl.
  rewrite !List.filter_app, callback_callbacks, callback_log_entry. simpl.
  by rewrite !app_nil_r.
Qed.

Lemma callback_resolved (w i a c : nat) :
  List.filter is_callback (shape k (Resolved w a c) i)
  = concat (map (callbacks i) (seq 0 (S a)))
    ++ (if fails i a then [OnImage i (error_image i)] else []).
Proof.
  cbn [shape]. rewrite seq_S, map_app, concat_app.
  rewrite List.filter_app, callback_failed_prefix, <- app_assoc. f_equal.
  simpl. rewrite List.filter_app, callback_callbacks, app_nil_r. f_equal.
  unfold ending. destruct (fails i a); [|done].
  by rewrite List.filter_app, callback_log_entry.
Qed.

Lemma last_attempt_from_spec (i a fuel a0 : nat) :
  a0 + fuel = MAX_RETRIES ->
  a0 <= a -> a <= MAX_RETRIES ->
  (forall b, a0 <= b -> b < a -> fails i b = true) ->
  (fails i a = true -> a = MAX_RETRIES) ->
  last_attempt_from i a0 fuel = a.
Proof.
  revert a0. induction fuel as [|fuel IH]; intros a0 Hsum Hlo Hhi Hpre Hlast.
  - simpl. lia.
  - simpl. destruct (fails i a0) eqn:Hf.
    + destruct (Nat.eq_dec a0 a) as [->|Hne].
      * specialize (Hlast Hf). lia.
      * apply IH; [lia|lia|done| |done]. intros b Hb1 Hb2. apply Hpre; lia.
    + destruct (Nat.eq_dec a0 a) as [->|Hne]; [done|].
      rewrite Hpre in Hf by lia. done.
Qed.
End SlotCallbacks.

(** X6.  In a batch that ran to its end without being cancelled, the
    sequence of [onImage] and [onText] calls made for a slot is fixed by
    the replies of the provider alone: the callbacks of every attempt
    up to the first that succeeded (or the fourth), followed by the
    error placeholder when that attempt failed too.  The schedule, the
    worker that took the slot and the other slots have no influence. *)
Theorem slot_callbacks_fixed {adapter : Adapter} (k : nat) (sched : list Tick) (i : nat) :
  never_cancelled sched ->
  all_returned (run k sched (start k false)) = true ->
  i < k ->
  List.filter is_callback (slot_events i (events (run k sched (start k false))))
  = slot_callbacks i.
Proof.
  intros Hs Hall Hi.
  destruct (finished_slot k sched i Hs Hall Hi) as (w & a & c & -> & Ha & Hpre & Hlast).
  rewrite callback_resolved. unfold slot_callbacks, last_attempt.
  rewrite (last_attempt_from_spec i a MAX_RETRIES 0); try done; try lia.
  intros b _ Hb. by apply Hpre.
Qed.

Lemma slot_callbacks_fixed_witness :
  List.filter is_callback
    (slot_events 1
       (events (run (adapter := Gemini.adapter mixed sample_uuid) 3
                  (run_to_end (Gemini.adapter mixed sample_uuid) 3) (start 3 false))))
  = slot_callbacks (adapter := Gemini.adapter mixed sample_uuid) 1
  /\ List.filter is_callback
       (slot_events 1
          (events (run (adapter := Gemini.adapter mixed sample_uuid) 3
                     [Resume 2; Resume 1; Resume 1; Resume 0; Resume 1; Resume 0;
                      Resume 1; Resume 0; Resume 0; Resume 0; Resume 0; Resume 1;
                      Resume 0; Resume 0]
                     (start 3 false))))
     = slot_callbacks (adapter := Gemini.adapter mixed sample_uuid) 1.
Proof.
  split.
  - apply (slot_callbacks_fixed (adapter := Gemini.adapter mixed sample_uuid) 3
             (run_to_end (Gemini.adapter mixed sample_uuid) 3) 1);
      [reflexivity|reflexivity|lia].
  - apply (slot_callbacks_fixed (adapter := Gemini.adapter mixed sample_uuid) 3
             [Resume 2; Resume 1; Resume 1; Resume 0; Resume 1; Resume 0;
              Resume 1; Resume 0; Resume 0; Resume 0; Resume 0; Resume 1;
              Resume 0; Resume 0] 1);
      [reflexivity|reflexivity|lia].
Defined.

(** ** The worker pool: a cancelled batch settles *)

Section PoolSettles.
Context {adapter : Adapter}.
Variable k : nat.

Lemma requests_callbacks (i a : nat) : List.filter is_request (callbacks i a) = [].
Proof.
  unfold callbacks. induction (fst (attempt_result i a)) as [|c l IH]; [done|].
  by destruct c.
Qed.

Lemma step_aborted_requests (t : Tick) (p : Pool) :
  aborted p = true -> requests (events (step k t p)) = requests (events p).
Proof.
  intros Hab. destruct t as [w|]; unfold step; [|done].
  destruct (workers p !! w) as [x|]; [|done].
  rewrite resume_aborted by done. pool. destruct x as [i a|i a|]; pool; try done.
  unfold requests. by rewrite List.filter_app, requests_callbacks, app_nil_r.
Qed.

Lemma sweep (p : Pool) (n : nat) :
  aborted p = true ->
  n <= length (workers p) ->
  aborted (run k (map Resume (seq 0 n)) p) = true
  /\ length (workers (run k (map Resume (seq 0 n)) p)) = length (workers p)
  /\ completedCount (run k (map Resume (seq 0 n)) p) = completedCount p
  /\ taskQueue (run k (map Resume (seq 0 n)) p) = taskQueue p
  /\ requests (events (run k (map Resume (seq 0 n)) p)) = requests (events p)
  /\ forall w, w < n -> workers (run k (map Resume (seq 0 n)) p) !! w = Some Returned.
Proof.
  intros Hab. induction n as [|n IH]; intros Hn.
  - split_and!; try done. intros w Hw. lia.
  - destruct IH as (Ha & Hl & Hc & Hq & Hr & Hw); [lia|].
    rewrite seq_S, map_app, run_app. change (0 + n) with n.
    set (q := run k (map Resume (seq 0 n)) p) in *.
    change (run k (map Resume [n]) q) with (step k (Resume n) q).
    destruct (step_aborted_fields k (Resume n) q Ha) as (Ha' & Hc' & Hq' & Hws).
    rewrite Hws. split_and!; try congruence.
    + by rewrite length_insert.
    + by rewrite step_aborted_requests.
    + intros w Hlt. destruct (Nat.eq_dec w n) as [->|Hne].
      * apply list_lookup_insert_eq. lia.
      * rewrite list_lookup_insert_ne by done. apply Hw. lia.
Qed.

Lemma all_returned_intro (p : Pool) :
  (forall w, w < length (workers p) -> workers p !! w = Some Returned) ->
  all_returned p = true.
Proof.
  intros H. unfold all_returned. apply forallb_forall. intros x Hx.
  apply list_elem_of_In, list_elem_of_lookup in Hx as [w Hw].
  rewrite H in Hw by (by eapply lookup_lt_Some). by injection Hw as <-.
Qed.
End PoolSettles.

(** X7.  Once the abort signal has fired, resuming every worker once is
    enough for the batch to settle: all workers have returned, so the
    promise of the batch resolves, and on the way no request was sent,
    no slot was taken from the queue and the progress counter did not
    move. *)
Theorem cancelled_batch_settles {adapter : Adapter} (k : nat) (signal : bool)
    (before : list Tick) :
  all_returned
    (run k (map Resume (seq 0 (Nat.min MAX_CONCURRENT_REQUESTS k)))
       (step k Abort (run k before (start k signal)))) = true
  /\ requests (events (run k (map Resume (seq 0 (Nat.min MAX_CONCURRENT_REQUESTS k)))
                         (step k Abort (run k before (start k signal)))))
     = requests (events (run k before (start k signal)))
  /\ taskQueue (run k (map Resume (seq 0 (Nat.min MAX_CONCURRENT_REQUESTS k)))
                  (step k Abort (run k before (start k signal))))
     = taskQueue (run k before (start k signal))
  /\ completedCount (run k (map Resume (seq 0 (Nat.min MAX_CONCURRENT_REQUESTS k)))
                       (step k Abort (run k before (start k signal))))
     = completedCount (run k before (start k signal)).
Proof.
  set (p := run k before (start k signal)).
  assert (length (workers (step k Abort p)) = Nat.min MAX_CONCURRENT_REQUESTS k) as Hlen.
  { unfold p. by rewrite step_workers_length, run_workers_length, start_workers_length. }
  destruct (sweep k (step k Abort p) (Nat.min MAX_CONCURRENT_REQUESTS k))
    as (Ha & Hl & Hc & Hq & Hr & Hw); [done|lia|].
  split_and!; try done.
  apply all_returned_intro. intros w Hlt. apply Hw. lia.
Qed.

(** ** Data URIs read back *)

(** X8.  [extractBase64Data] accepts a string exactly when the string is
    the data URI of the mime type and payload it returns: the accepted
    string can be rebuilt from the result, the mime type is never empty
    (so the fallback to [image/png] is never taken) and the payload is
    never empty (so the second error is never logged); nothing is logged
    on success and exactly one diagnostic on failure.  The copy of the
    function in the OpenAI adapter returns the same result, without
    logging. *)
Theorem extractBase64Data_sound (dataUri : jsstring) (imageId : option jsstring) :
  match extractBase64Data dataUri imageId with
  | (Some r, logs) =>
      logs = []
      /\ dataUri = data_uri (mimeType r) (base64Data r)
      /\ mimeType r <> [] /\ Forall (fun c => c <> semicolon) (mimeType r)
      /\ base64Data r <> []
      /\ Forall (fun c => is_line_terminator c = false) (base64Data r)
  | (None, logs) =>
      logs = [image_diag (lit "Invalid image data format" ++ for_image imageId)]
  end
  /\ OpenAI.extractBase64Data dataUri = fst (extractBase64Data dataUri imageId).
Proof.
  unfold extractBase64Data, OpenAI.extractBase64Data.
  destruct (match_data_uri dataUri) as [[m d]|] eqn:E; [|done].
  apply match_data_uri_Some in E as (-> & Hm & Hms & Hd & Hds).
  destruct d as [|c d]; [done|]. destruct m as [|c' m]; [done|].
  cbn [truthy negb orb length Nat.eqb or_else mimeType base64Data fst].
  by split_and!.
Qed.

(** ** The key in the query string *)

Lemma hex_digit_unreserved (n : N) :
  (n < 16)%N -> is_unreserved (hex_digit n) = true.
Proof.
  intros H. destruct n as [|p]; [reflexivity|].
  do 4 (try destruct p as [p|p|]); try reflexivity; lia.
Qed.

Lemma percent_safe (b : N) :
  (b < 256)%N -> forallb is_uri_safe (percent b) = true.
Proof.
  intros H. unfold percent. cbn [forallb].
  assert (b / 16 < 16)%N by (apply N.Div0.div_lt_upper_bound; lia).
  assert (b mod 16 < 16)%N by (apply N.mod_lt; lia).
  unfold is_uri_safe at 2 3. rewrite !hex_digit_unreserved by done. done.
Qed.

Lemma escapes_safe (bs : list N) :
  Forall (fun b => (b < 256)%N) bs ->
  forallb is_uri_safe (concat (map percent bs)) = true.
Proof.
  induction 1 as [|b bs Hb _ IH]; [done|].
  cbn [map concat]. rewrite forallb_app, percent_safe by done. done.
Qed.

Lemma utf8_bytes (cp : N) :
  (cp < 0x110000)%N -> Forall (fun b => (b < 256)%N) (utf8 cp).
Proof.
  intros H. unfold utf8.
  destruct (cp <? 0x80)%N eqn:E1; [apply N.ltb_lt in E1; repeat constructor; lia|].
  destruct (cp <? 0x800)%N eqn:E2.
  { apply N.ltb_lt in E2. repeat constructor.
    - assert (cp / 64 < 32)%N by (apply N.Div0.div_lt_upper_bound; lia). lia.
    - assert (cp mod 64 < 64)%N by (apply N.mod_lt; lia). lia. }
  destruct (cp <? 0x10000)%N eqn:E3.
  { apply N.ltb_lt in E3. repeat constructor.
    - assert (cp / 4096 < 16)%N by (apply N.Div0.div_lt_upper_bound; lia). lia.
    - assert ((cp / 64) mod 64 < 64)%N by (apply N.mod_lt; lia). lia.
    - assert (cp mod 64 < 64)%N by (apply N.mod_lt; lia). lia. }
  repeat constructor.
  - assert (cp / 262144 < 5)%N by (apply N.Div0.div_lt_upper_bound; lia). lia.
  - assert ((cp / 4096) mod 64 < 64)%N by (apply N.mod_lt; lia). lia.
  - assert ((cp / 64) mod 64 < 64)%N by (apply N.mod_lt; lia). lia.
  - assert (cp mod 64 < 64)%N by (apply N.mod_lt; lia). lia.
Qed.

Lemma encodeURIComponent_safe_upto (n : nat) (s r : jsstring) :
  length s <= n ->
  Forall is_code_unit s ->
  encodeURIComponent s = Some r ->
  forallb is_uri_safe r = true.
Proof.
  revert s r. induction n as [|n IH]; intros s r Hlen Hcu He.
  { destruct s; [|simpl in Hlen; lia]. by injection He as <-. }
  destruct s as [|c s]; [by injection He as <-|].
  apply Forall_cons in Hcu as [Hc Hcu]. simpl in Hlen.
  cbn [encodeURIComponent] in He.
  destruct (is_unreserved c) eqn:Hu.
  { destruct (encodeURIComponent s) as [r'|] eqn:Hs; [|done].
    injection He as <-. cbn [forallb]. unfold is_uri_safe at 1. rewrite Hu.
    apply (IH s); [lia|done|done]. }
  destruct (is_low_surrogate c) eqn:Hlo; [done|].
  destruct (is_high_surrogate c) eqn:Hhi.
  - destruct s as [|d s']; [done|].
    apply Forall_cons in Hcu as [Hd Hcu]. simpl in Hlen.
    destruct (is_low_surrogate d) eqn:Hd'; [|done].
    destruct (encodeURIComponent s') as [r'|] eqn:Hs; [|done].
    injection He as <-. rewrite forallb_app. apply andb_true_iff. split.
    + apply escapes_safe, utf8_bytes.
      unfold is_high_surrogate, is_low_surrogate in *.
      apply andb_true_iff in Hhi as [H1 H2]. apply andb_true_iff in Hd' as [H3 H4].
      apply N.leb_le in H1, H2, H3, H4. lia.
    + apply (IH s'); [lia|done|done].
  - destruct (encodeURIComponent s) as [r'|] eqn:Hs; [|done].
    injection He as <-. rewrite forallb_app. apply andb_true_iff. split.
    + apply escapes_safe, utf8_bytes. unfold is_code_unit in Hc. lia.
    + apply (IH s); [lia|done|done].
Qed.

Lemma encodeURIComponent_total (s : jsstring) :
  forallb (fun c => negb (is_surrogate c)) s = true ->
  exists r, encodeURIComponent s = Some r.
Proof.
  induction s as [|c s IH]; [by exists []|].
  cbn [forallb]. intros [Hc Hs]%andb_true_iff. destruct (IH Hs) as [r Hr].
  unfold is_surrogate in Hc. apply negb_true_iff, orb_false_iff in Hc as [Hhi Hlo].
  cbn [encodeURIComponent]. rewrite Hr, Hhi, Hlo.
  destruct (is_unreserved c); simpl; eauto.
Qed.

(** X9.  The API key cannot break out of its query parameter.  For a key
    made of UTF-16 code units, whatever [encodeURIComponent] returns
    consists of unreserved characters and percent escapes only (no
    ampersand, equals sign, question mark, hash, slash or space); it
    returns a result for every key without surrogates; and the URL
    [appendKeyParam] builds for a non-empty key is the given URL, a
    joiner, [key=] and that encoded key. *)
Theorem api_key_is_escaped (apiKey : jsstring) :
  Forall is_code_unit apiKey ->
  (forall r, encodeURIComponent apiKey = Some r -> forallb is_uri_safe r = true)
  /\ (forallb (fun c => negb (is_surrogate c)) apiKey = true ->
      exists r, encodeURIComponent apiKey = Some r)
  /\ (forall url r,
        apiKey <> [] ->
        includes url (lit "key=") = false ->
        Gemini.appendKeyParam url apiKey = Ok r ->
        exists encoded,
          r = url ++ (if includes url (lit "?") then lit "&" else lit "?")
                  ++ lit "key=" ++ encoded
          /\ forallb is_uri_safe encoded = true).
Proof.
  intros Hcu.
  assert (forall r, encodeURIComponent apiKey = Some r -> forallb is_uri_safe r = true)
    as Hsafe.
  { intros r. by apply (encodeURIComponent_safe_upto (length apiKey)). }
  split_and!; [done|apply encodeURIComponent_total|].
  intros url r Hne Hkey. unfold Gemini.appendKeyParam. rewrite Hkey.
  apply truthy_true in Hne. rewrite Hne. cbn [negb orb].
  destruct (encodeURIComponent apiKey) as [enc|] eqn:He; [|done].
  intros [= <-]. exists enc. split; [done|]. by apply Hsafe.
Qed.

Lemma api_key_is_escaped_witness :
  encodeURIComponent key_with_reserved = Some (lit "a%20b%26c%3Dd")
  /\ forallb is_uri_safe (lit "a%20b%26c%3Dd") = true.
Proof.
  split; [reflexivity|].
  refine (proj1 (api_key_is_escaped key_with_reserved _) (lit "a%20b%26c%3Dd") _);
    [|reflexivity].
  repeat (constructor; [reflexivity|]). constructor.
Defined.

(** ** The proxy endpoint, once more *)

Lemma head_rev (s : jsstring) : head (rev s) = last s.
Proof. rewrite <- (rev_involutive s) at 2. by rewrite last_rev. Qed.

Lemma trim_start_fixed (s : jsstring) :
  (forall c, head s = Some c -> is_space c = false) -> trim_start s = s.
Proof. destruct s as [|c s]; [done|]. intros H. simpl. by rewrite (H c). Qed.

Lemma trim_fixed (s : jsstring) :
  (forall c, head s = Some c -> is_space c = false) ->
  (forall c, last s = Some c -> is_space c = false) ->
  trim s = s.
Proof.
  intros Hh Hl. unfold trim. rewrite (trim_start_fixed s) by done.
  rewrite trim_start_fixed; [apply rev_involutive|].
  intros c. rewrite head_rev. apply Hl.
Qed.

Lemma trim_trim (s : jsstring) : trim (trim s) = trim s.
Proof.
  destruct (trim_spec s) as (_ & _ & _ & _ & _ & Hh & Hl). by apply trim_fixed.
Qed.

Lemma strip_trailing_slashes_fixed (s : jsstring) :
  last s <> Some slash -> Gemini.strip_trailing_slashes s = s.
Proof.
  intros H. unfold Gemini.strip_trailing_slashes.
  rewrite <- head_rev in H. destruct (rev s) as [|c t] eqn:E.
  - simpl. by rewrite <- (rev_involutive s), E.
  - simpl in *. destruct (code_eqb c slash) eqn:Ec.
    + apply code_eqb_eq in Ec. congruence.
    + by rewrite <- E, rev_involutive.
Qed.

Lemma last_generateContent (s : jsstring) :
  last (s ++ lit ":generateContent") = Some 116%N.
Proof.
  change (lit ":generateContent") with (lit ":generateConten" ++ [116%N]).
  by rewrite app_assoc, last_snoc.
Qed.

(** A string that ends with [:generateContent] and does not start
    with white space is an endpoint already. *)
Lemma endpoint_fixed (s modelName : jsstring) :
  (forall c, head (s ++ lit ":generateContent") = Some c -> is_space c = false) ->
  Gemini.buildGeminiEndpoint (s ++ lit ":generateContent") modelName
  = s ++ lit ":generateContent".
Proof.
  intros Hh. unfold Gemini.buildGeminiEndpoint.
  rewrite trim_fixed; [|done|].
  2:{ intros c. rewrite last_generateContent. by intros [= <-]. }
  assert (truthy (s ++ lit ":generateContent") = true) as ->.
  { apply truthy_true. by destruct s. }
  cbn [negb]. rewrite strip_trailing_slashes_fixed.
  2:{ by rewrite last_generateContent. }
  assert (includes (s ++ lit ":generateContent") (lit ":generateContent") = true) as ->.
  { apply includes_true. exists s, []. by rewrite app_nil_r. }
  done.
Qed.

Lemma normalized_head (baseUrl : jsstring) (c : N) :
  head (Gemini.strip_trailing_slashes (trim baseUrl)) = Some c -> is_space c = false.
Proof.
  destruct (trim_spec baseUrl) as (_ & _ & _ & _ & _ & Hh & _).
  destruct (strip_trailing_slashes_spec (trim baseUrl)) as (n & Hn & _).
  intros H. apply Hh. rewrite Hn.
  by destruct (Gemini.strip_trailing_slashes (trim baseUrl)).
Qed.

Lemma endpoint_cases (baseUrl modelName : jsstring) :
  trim baseUrl <> [] ->
  let normalized := Gemini.strip_trailing_slashes (trim baseUrl) in
  (includes normalized (lit ":generateContent") = true
   /\ Gemini.buildGeminiEndpoint baseUrl modelName = normalized)
  \/ (includes normalized (lit ":generateContent") = false
      /\ exists tail,
           Gemini.buildGeminiEndpoint baseUrl modelName
           = normalized ++ tail ++ lit ":generateContent"
           /\ (normalized = [] -> head tail = Some slash)).
Proof.
  intros Hne normalized. unfold Gemini.buildGeminiEndpoint.
  apply truthy_true in Hne. rewrite Hne. cbn [negb]. fold normalized.
  destruct (includes normalized (lit ":generateContent")) eqn:Hinc; [by left|].
  right. split; [done|].
  destruct (Gemini.ends_with_model_name normalized) eqn:Hm.
  { exists []. split; [done|]. intros ->. done. }
  destruct (endsWith normalized (lit "/models")) eqn:He.
  { exists (lit "/" ++ modelName). split; [by rewrite <- !app_assoc|done]. }
  destruct (Gemini.ends_with_version normalized).
  { exists (lit "/models/" ++ modelName). split; [by rewrite <- !app_assoc|done]. }
  exists (lit "/v1beta/models/" ++ modelName). split; [by rewrite <- !app_assoc|done].
Qed.

Lemma endpoint_nonempty (baseUrl modelName : jsstring) :
  trim baseUrl <> [] -> Gemini.buildGeminiEndpoint baseUrl modelName <> [].
Proof.
  intros Hne.
  destruct (endpoint_cases baseUrl modelName Hne) as [[Hinc ->]|(_ & tail & -> & _)].
  - intros E. by rewrite E in Hinc.
  - intros E. apply app_eq_nil in E as [_ E]. by apply app_eq_nil in E as [_ E].
Qed.

(** X10.  For a base URL that is not blank the endpoint is never empty,
    starts with the normalized base URL and contains
    [:generateContent]; for a blank one it is empty.  Unless the base
    URL already contained [:generateContent], the endpoint is a fixed
    point: given back as a base URL, with any model name, it is returned
    unchanged. *)
Theorem gemini_endpoint_shape (baseUrl modelName : jsstring) :
  (trim baseUrl = [] -> Gemini.buildGeminiEndpoint baseUrl modelName = [])
  /\ (trim baseUrl <> [] ->
      Gemini.buildGeminiEndpoint baseUrl modelName <> []
      /\ includes (Gemini.buildGeminiEndpoint baseUrl modelName)
                  (lit ":generateContent") = true
      /\ startsWith (Gemini.buildGeminiEndpoint baseUrl modelName)
                    (Gemini.strip_trailing_slashes (trim baseUrl)) = true)
  /\ (trim baseUrl <> [] ->
      includes (Gemini.strip_trailing_slashes (trim baseUrl))
               (lit ":generateContent") = false ->
      forall otherModel,
        Gemini.buildGeminiEndpoint (Gemini.buildGeminiEndpoint baseUrl modelName)
                                   otherModel
        = Gemini.buildGeminiEndpoint baseUrl modelName).
Proof.
  split_and!.
  - intros E. unfold Gemini.buildGeminiEndpoint. by rewrite E.
  - intros Hne. split; [by apply endpoint_nonempty|].
    destruct (endpoint_cases baseUrl modelName Hne) as [[Hinc ->]|(_ & tail & -> & _)].
    + split; [done|]. apply startsWith_true. exists []. by rewrite app_nil_r.
    + split.
      * apply includes_true.
        exists (Gemini.strip_trailing_slashes (trim baseUrl) ++ tail), [].
        by rewrite app_nil_r, <- app_assoc.
      * apply startsWith_true. by eexists.
  - intros Hne Hinc otherModel.
    destruct (endpoint_cases baseUrl modelName Hne) as [[Hinc' _]|(_ & tail & -> & Htail)];
      [congruence|].
    rewrite app_assoc. apply endpoint_fixed. rewrite <- app_assoc.
    intros c Hc.
    destruct (Gemini.strip_trailing_slashes (trim baseUrl)) as [|c' n'] eqn:En.
    + specialize (Htail eq_refl). simpl in Hc.
      destruct tail as [|t tail']; [done|]. simpl in *.
      injection Htail as ->. by injection Hc as <-.
    + apply (normalized_head baseUrl). rewrite En. simpl in *. done.
Qed.

Lemma gemini_endpoint_shape_witness :
  Gemini.buildGeminiEndpoint
    (Gemini.buildGeminiEndpoint (lit " https://proxy.example/v1/ ") (lit "gemini-x"))
    (lit "another-model")
  = lit "https://proxy.example/v1/models/gemini-x:generateContent".
Proof.
  refine (eq_trans
            (proj2 (proj2 (gemini_endpoint_shape (lit " https://proxy.example/v1/ ")
                             (lit "gemini-x"))) _ _ (lit "another-model")) _);
    [discriminate|reflexivity|reflexivity].
Defined.

(** X11.  [appendKeyParam] adds the key at most once: applied again to
    its own result, with the same key, it changes nothing; the result
    always starts with the URL it was given, and for a non-empty key it
    always carries a [key=] parameter. *)
Theorem appendKeyParam_once (url apiKey r : jsstring) :
  Gemini.appendKeyParam url apiKey = Ok r ->
  Gemini.appendKeyParam r apiKey = Ok r
  /\ startsWith r url = true
  /\ (apiKey <> [] -> includes r (lit "key=") = true).
Proof.
  unfold Gemini.appendKeyParam.
  destruct (truthy apiKey) eqn:Hk; cbn [negb orb].
  2:{ intros [= <-]. split_and!; [done| |].
      - apply startsWith_true. exists []. by rewrite app_nil_r.
      - intros Hne. apply truthy_true in Hne. congruence. }
  destruct (includes url (lit "key=")) eqn:Hinc.
  { intros [= <-]. rewrite Hinc. split_and!; [done| |done].
    apply startsWith_true. exists []. by rewrite app_nil_r. }
  destruct (encodeURIComponent apiKey) as [enc|]; [|done].
  set (u := url ++ (if includes url (lit "?") then lit "&" else lit "?")
            ++ lit "key=" ++ enc).
  intros [= <-].
  assert (includes u (lit "key=") = true) as Hnow.
  { apply includes_true.
    exists (url ++ (if includes url (lit "?") then lit "&" else lit "?")), enc.
    unfold u. by rewrite <- app_assoc. }
  rewrite Hnow. split_and!; [done| |done].
  apply startsWith_true. by eexists.
Qed.

Lemma appendKeyParam_once_witness :
  Gemini.appendKeyParam (lit "https://proxy.example/x?alt=json&key=abc") (lit "abc")
  = Ok (lit "https://proxy.example/x?alt=json&key=abc").
Proof.
  apply (appendKeyParam_once (lit "https://proxy.example/x?alt=json") (lit "abc")).
  reflexivity.
Defined.

Lemma proxyBaseUrl_trimmed (settings : AppSettings) :
  0 < length (Gemini.proxyBaseUrl settings) ->
  trim (Gemini.proxyBaseUrl settings) <> [].
Proof.
  unfold Gemini.proxyBaseUrl.
  destruct (baseUrl (providerConfig settings)) as [b|]; [|simpl; lia].
  rewrite trim_trim. destruct (trim b); [simpl; lia|done].
Qed.

Lemma outbound_failure (key : jsstring) (history : list Message)
    (settings : AppSettings) (prepared : Gemini.Prepared) (e : Thrown) :
  Gemini.outbound key history settings prepared = Throw e ->
  e = Gemini.uri_error /\ encodeURIComponent key = None.
Proof.
  unfold Gemini.outbound.
  destruct (0 <? length (Gemini.proxyBaseUrl settings)) eqn:Hlen; [|done].
  apply Nat.ltb_lt, proxyBaseUrl_trimmed in Hlen.
  set (modelName' := opt_default (pc_model (providerConfig settings)) MODEL_PRO).
  pose proof (endpoint_nonempty _ modelName' Hlen) as Hend.
  unfold Gemini.fetchGeminiGenerateContent, Gemini.appendKeyParam.
  destruct (negb (truthy key) || includes _ (lit "key=")) eqn:Hc.
  - destruct (Gemini.buildGeminiEndpoint _ modelName') eqn:E; [done|]. done.
  - destruct (encodeURIComponent key) as [enc|]; [|by intros [= <-]].
    destruct (Gemini.buildGeminiEndpoint _ modelName') eqn:E; [done|]. done.
Qed.

(** X12.  The request is refused with [Gemini Base URL is missing.]
    exactly when the base URL is blank and the key is empty: the test is
    made after the key has been appended, so a blank base URL with a key
    is sent to the relative URL made of the query string alone.  In a
    batch the proxy path is taken only for a base URL that is not blank,
    so there the only error raised before the network is the [URIError]
    of a key that cannot be encoded. *)
Theorem gemini_missing_base_url (baseUrl apiKey modelName : jsstring)
    (contents : list OutContent) (imageConfig : option ImageConfig) :
  (Gemini.fetchGeminiGenerateContent baseUrl apiKey modelName contents imageConfig
   = Throw (thrown ImageProcessingError "Gemini Base URL is missing.")
   <-> trim baseUrl = [] /\ apiKey = [])
  /\ (forall encoded,
        trim baseUrl = [] -> apiKey <> [] ->
        encodeURIComponent apiKey = Some encoded ->
        exists r,
          Gemini.fetchGeminiGenerateContent baseUrl apiKey modelName contents imageConfig
          = Ok r
          /\ Gemini.url r = lit "?key=" ++ encoded)
  /\ (forall history settings prepared e,
        Gemini.outbound apiKey history settings prepared = Throw e ->
        e = Gemini.uri_error /\ encodeURIComponent apiKey = None).
Proof.
  split_and!.
  - unfold Gemini.fetchGeminiGenerateContent, Gemini.appendKeyParam. split.
    + destruct (truthy apiKey) eqn:Hk; cbn [negb orb].
      * destruct (includes _ (lit "key=")) eqn:Hinc.
        -- destruct (truthy (Gemini.buildGeminiEndpoint baseUrl modelName)) eqn:Ht;
             cbn [negb]; [done|].
           destruct (Gemini.buildGeminiEndpoint baseUrl modelName); [done|done].
        -- destruct (encodeURIComponent apiKey) as [enc|]; [|done].
           destruct (includes _ (lit "?")); by destruct (Gemini.buildGeminiEndpoint _ _).
      * destruct (truthy (Gemini.buildGeminiEndpoint baseUrl modelName)) eqn:Ht;
          cbn [negb]; [done|]. intros _.
        split; [|by destruct apiKey].
        destruct (trim baseUrl) as [|c t] eqn:E; [done|]. exfalso.
        apply (endpoint_nonempty baseUrl modelName); [by rewrite E|].
        by destruct (Gemini.buildGeminiEndpoint baseUrl modelName).
    + intros [Hb ->]. unfold Gemini.buildGeminiEndpoint. by rewrite Hb.
  - intros encoded Hb Hne He.
    unfold Gemini.fetchGeminiGenerateContent, Gemini.appendKeyParam,
      Gemini.buildGeminiEndpoint.
    rewrite Hb. apply truthy_true in Hne. rewrite Hne, He. cbn. eauto.
  - apply outbound_failure.
Qed.

Lemma gemini_missing_base_url_witness :
  exists r,
    Gemini.fetchGeminiGenerateContent (lit "  ") (lit "k1") (lit "m") [] None = Ok r
    /\ Gemini.url r = lit "?key=" ++ lit "k1".
Proof.
  apply (proj1 (proj2 (gemini_missing_base_url (lit "  ") (lit "k1") (lit "m") [] None))
           (lit "k1")); [reflexivity|discriminate|reflexivity].
Defined.

(** ** Provider settings and their persistence *)

Section SettingsFacts.
Import ProviderSettings.
Context {validation : Validation}.

Lemma initial_stored (ls : Storage) :
  initial ls = stored_config (stored_provider ls) ls.
Proof. unfold initial, stored_provider. by destruct (ls !! PROVIDER) as [s|]; [destruct (str_eqb s _)|]. Qed.

Lemma updateProvider_config (p : Provider) (st : State) :
  config (updateProvider p st) = stored_config p (localStorage st).
Proof. by destruct p. Qed.

Lemma stored_provider_insert (p : Provider) (ls : Storage) :
  stored_provider (<[PROVIDER := provider_string p]> ls) = p.
Proof.
  unfold stored_provider.
  rewrite lookup_insert_eq.
  by destruct p.
Qed.

Lemma stored_provider_other (key : string) (v : jsstring) (ls : Storage) :
  key <> PROVIDER ->
  stored_provider (<[key := v]> ls) = stored_provider ls
  /\ stored_provider (delete key ls) = stored_provider ls.
Proof.
  intros Hne. unfold stored_provider.
  by rewrite lookup_insert_ne, lookup_delete_ne.
Qed.

Lemma getStoredGeminiBaseUrl_other (key : string) (v : jsstring) (ls : Storage) :
  key <> GEMINI_BASE_URL ->
  getStoredGeminiBaseUrl (<[key := v]> ls) = getStoredGeminiBaseUrl ls
  /\ getStoredGeminiBaseUrl (delete key ls) = getStoredGeminiBaseUrl ls.
Proof.
  intros Hne. unfold getStoredGeminiBaseUrl.
  by rewrite lookup_insert_ne, lookup_delete_ne.
Qed.

Lemma getStoredGeminiBaseUrl_set (url : jsstring) (ls : Storage) :
  getStoredGeminiBaseUrl (<[GEMINI_BASE_URL := trim url]> ls)
  = if length (trim url) =? 0 then None else Some (trim url).
Proof.
  unfold getStoredGeminiBaseUrl. rewrite lookup_insert_eq, trim_trim.
  by destruct (trim url).
Qed.

Lemma getStoredGeminiBaseUrl_spec (ls : Storage) (b : jsstring) :
  getStoredGeminiBaseUrl ls = Some b -> b <> [] /\ trim b = b.
Proof.
  unfold getStoredGeminiBaseUrl. destruct (ls !! GEMINI_BASE_URL) as [v|]; [|done].
  destruct (truthy v); [|done]. cbn [negb].
  destruct (trim v) as [|c t] eqn:E; [done|]. cbn. intros [= <-].
  split; [done|]. by rewrite <- E, trim_trim.
Qed.

Lemma stored_config_other (p : Provider) (key : string) (v : jsstring) (ls : Storage) :
  ~ In key (keys_of p) ->
  stored_config p (<[key := v]> ls) = stored_config p ls
  /\ stored_config p (delete key ls) = stored_config p ls.
Proof.
  intros Hne. unfold stored_config, getStoredGeminiBaseUrl.
  destruct p; simpl in Hne;
    rewrite !lookup_insert_ne, !lookup_delete_ne by (intros ->; tauto); done.
Qed.

Lemma provider_stored_config (p : Provider) (ls : Storage) :
  provider (stored_config p ls) = p.
Proof. by destruct p. Qed.

Lemma opt_default_or_else (u d : jsstring) :
  d <> [] -> opt_default (Some (or_else u d)) d = or_else u d.
Proof. intros Hd. destruct u; [by destruct d|done]. Qed.

Lemma config_eq (c1 c2 : ProviderConfig) :
  provider c1 = provider c2 -> apiKey c1 = apiKey c2 ->
  baseUrl c1 = baseUrl c2 -> pc_model c1 = pc_model c2 -> c1 = c2.
Proof. destruct c1, c2. simpl. congruence. Qed.

Lemma nearly_synced_act (a : Action) (st : State) :
  nearly_synced st ->
  nearly_synced (act a st)
  /\ (sets_empty_model a = false ->
      pc_model (config st) = pc_model (initial (localStorage st)) ->
      pc_model (config (act a st)) = pc_model (initial (localStorage (act a st)))).
Proof.
  destruct st as [c ls]. unfold nearly_synced. cbn [config localStorage].
  rewrite !initial_stored. intros (Hp & Hk & Hb & Hm).
  rewrite provider_stored_config in Hp. rewrite Hp in Hm.
  destruct a as [p|key|url|name]; cbn [act].
  - unfold updateProvider. cbn [config localStorage].
    rewrite ?initial_stored, stored_provider_insert.
    destruct (stored_config_other p PROVIDER (provider_string p) ls) as [-> _].
    { destruct p; simpl; intuition discriminate. }
    destruct p; cbn; split_and!; try done; by left.
  - unfold updateApiKey. cbn [config localStorage].
    destruct (truthy key) eqn:Hkey; cbn [negb].
    + destruct (validateApiKey key) as [e|].
      { assert (match err_class e with
                | ValidationError => Throw e
                | _ => Throw invalid_key
                end = (Throw (match err_class e with
                              | ValidationError => e
                              | _ => invalid_key
                              end) : Result State)) as -> by (by destruct (err_class e)).
        cbn [config localStorage]. rewrite ?initial_stored, provider_stored_config.
        intuition congruence. }
      cbn [config localStorage with_apiKey provider apiKey baseUrl pc_model].
      rewrite ?initial_stored, Hp.
      destruct (stored_provider ls) eqn:Hq; rewrite ?Hq in *;
        [destruct (stored_provider_other GEMINI_API_KEY key ls) as [-> _]; [done|]
        |destruct (stored_provider_other OPENAI_API_KEY key ls) as [-> _]; [done|]];
        rewrite Hq; unfold stored_config, getStoredGeminiBaseUrl, model_key in *;
        cbn [provider apiKey baseUrl pc_model] in *; rewrite ?Hp;
        rewrite ?lookup_insert_eq, ?lookup_insert_ne by done;
        cbn [opt_default]; rewrite Hkey; intuition congruence.
    + cbn [config localStorage with_apiKey provider apiKey baseUrl pc_model].
      rewrite ?initial_stored, Hp.
      destruct (stored_provider ls) eqn:Hq; rewrite ?Hq in *;
        [destruct (stored_provider_other GEMINI_API_KEY key ls) as [_ ->]; [done|]
        |destruct (stored_provider_other OPENAI_API_KEY key ls) as [_ ->]; [done|]];
        rewrite Hq; unfold stored_config, getStoredGeminiBaseUrl, model_key in *;
        cbn [provider apiKey baseUrl pc_model] in *; rewrite ?Hp;
        rewrite ?lookup_delete_eq, ?lookup_delete_ne by done;
        cbn [opt_default]; intuition congruence.
  - unfold updateBaseUrl. cbv zeta. cbn [config localStorage]. rewrite Hp.
    destruct (stored_provider ls) eqn:Hq; rewrite ?Hq in *.
    + destruct (length (trim url) =? 0) eqn:Hlen;
        cbn [config localStorage with_baseUrl provider apiKey baseUrl pc_model];
        rewrite ?initial_stored;
        [destruct (stored_provider_other GEMINI_BASE_URL url ls) as [_ ->]; [done|]
        |destruct (stored_provider_other GEMINI_BASE_URL (trim url) ls) as [-> _]; [done|]];
        rewrite Hq; unfold stored_config, model_key in *;
        cbn [provider apiKey baseUrl pc_model] in *; rewrite ?Hp.
      * unfold getStoredGeminiBaseUrl.
        rewrite ?lookup_delete_eq, ?lookup_delete_ne by done. intuition congruence.
      * rewrite getStoredGeminiBaseUrl_set, Hlen.
        rewrite ?lookup_insert_ne by done. intuition congruence.
    + cbn [config localStorage with_baseUrl provider apiKey baseUrl pc_model].
      rewrite ?initial_stored.
      destruct (stored_provider_other OPENAI_BASE_URL
                  (or_else url DEFAULT_OPENAI_BASE_URL) ls) as [-> _]; [done|].
      rewrite Hq. unfold stored_config, model_key in *.
      cbn [provider apiKey baseUrl pc_model] in *; rewrite ?Hp.
      rewrite ?lookup_insert_eq, ?lookup_insert_ne by done.
      rewrite opt_default_or_else by done. intuition congruence.
  - unfold updateModel. cbv zeta. cbn [config localStorage]. rewrite Hp.
    cbn [config localStorage with_model provider apiKey baseUrl pc_model].
    rewrite ?initial_stored.
    destruct (stored_provider ls) eqn:Hq; rewrite ?Hq in *;
      [destruct (stored_provider_other GEMINI_MODEL name ls) as [-> _]; [done|]
      |destruct (stored_provider_other OPENAI_MODEL name ls) as [-> _]; [done|]];
      rewrite Hq; unfold stored_config, getStoredGeminiBaseUrl, model_key in *;
      cbn [provider apiKey baseUrl pc_model] in *; rewrite ?Hp;
      rewrite ?lookup_insert_eq, ?lookup_insert_ne by done;
      (destruct name as [|ch name']; cbn [opt_default truthy sets_empty_model];
       [split_and!; try done; by right|split_and!; try done; by left]).
Qed.

Lemma nearly_synced_acts (l : list Action) (st : State) :
  nearly_synced st ->
  nearly_synced (acts l st)
  /\ (forallb (fun a => negb (sets_empty_model a)) l = true ->
      pc_model (config st) = pc_model (initial (localStorage st)) ->
      pc_model (config (acts l st)) = pc_model (initial (localStorage (acts l st)))).
Proof.
  revert st. induction l as [|a l IH]; intros st Hst; [done|].
  destruct (nearly_synced_act a st Hst) as [H1 H2].
  destruct (IH _ H1) as [H3 H4]. split; [done|].
  cbn [forallb]. intros [Ha Hl]%andb_true_iff Hm.
  apply H4; [done|]. apply H2; [|done]. by apply negb_true_iff.
Qed.

Lemma nearly_synced_mount (ls : Storage) : nearly_synced (mount ls).
Proof. unfold nearly_synced, mount. cbn. split_and!; try done. by left. Qed.

Lemma stored_base_url (p : Provider) (ls : Storage) :
  match baseUrl (stored_config p ls) with
  | None => p = gemini
  | Some b => b <> [] /\ (p = gemini -> trim b = b)
  end.
Proof.
  destruct p; cbn [stored_config baseUrl].
  - destruct (getStoredGeminiBaseUrl ls) as [b|] eqn:E; [|done].
    apply getStoredGeminiBaseUrl_spec in E as [? ?]. done.
  - split; [|done]. destruct (ls !! OPENAI_BASE_URL) as [[|c v]|]; done.
Qed.

Lemma sent_model (st : State) :
  nearly_synced st ->
  opt_default (pc_model (config st)) MODEL_PRO
  = opt_default (pc_model (initial (localStorage st))) MODEL_PRO.
Proof.
  intros (Hp & _ & _ & [->|[Hm Hs]]); [done|].
  rewrite Hm. rewrite initial_stored in *. rewrite provider_stored_config in Hp.
  rewrite Hp in Hs. destruct (stored_provider (localStorage st));
    unfold stored_config, model_key in *; cbn [pc_model]; by rewrite Hs.
Qed.

Lemma act_keeps_other (p : Provider) (a : Action) (st : State) :
  sets_provider a = false ->
  provider (config st) <> p ->
  provider (config (act a st)) = provider (config st)
  /\ stored_config p (localStorage (act a st)) = stored_config p (localStorage st).
Proof.
  destruct st as [c ls]. cbn [config localStorage]. intros Ha Hne.
  destruct a as [q|key|url|name]; [done| | |]; cbn [act].
  - unfold updateApiKey. cbv zeta. cbn [config localStorage].
    destruct (truthy key); cbn [negb].
    + destruct (validateApiKey key) as [e|]; [by destruct (err_class e)|].
      cbn [config localStorage with_apiKey provider]. split; [done|].
      destruct (provider c), p; try done;
        by apply stored_config_other; simpl; intuition discriminate.
    + cbn [config localStorage with_apiKey provider]. split; [done|].
      destruct (provider c), p; try done;
        by apply (stored_config_other _ _ []); simpl; intuition discriminate.
  - unfold updateBaseUrl. cbv zeta. cbn [config localStorage].
    destruct (provider c) eqn:Hc, p; try done.
    + destruct (length (trim url) =? 0);
        cbn [config localStorage with_baseUrl provider]; (split; [done|]).
      * by apply (stored_config_other _ _ []); simpl; intuition discriminate.
      * by apply stored_config_other; simpl; intuition discriminate.
    + cbn [config localStorage with_baseUrl provider]. split; [done|].
      by apply stored_config_other; simpl; intuition discriminate.
  - unfold updateModel. cbv zeta. cbn [config localStorage with_model provider].
    split; [done|].
    destruct (provider c), p; try done;
      by apply stored_config_other; simpl; intuition discriminate.
Qed.

Lemma acts_keep_other (p : Provider) (l : list Action) (st : State) :
  forallb (fun a => negb (sets_provider a)) l = true ->
  provider (config st) <> p ->
  provider (config (acts l st)) = provider (config st)
  /\ stored_config p (localStorage (acts l st)) = stored_config p (localStorage st).
Proof.
  revert st. induction l as [|a l IH]; intros st Hl Hne; [done|].
  cbn [forallb] in Hl. apply andb_true_iff in Hl as [Ha Hl].
  apply negb_true_iff in Ha.
  destruct (act_keeps_other p a st Ha Hne) as [H1 H2].
  destruct (IH (act a st) Hl) as [H3 H4]; [congruence|].
  change (acts (a :: l) st) with (acts l (act a st)). split; congruence.
Qed.
End SettingsFacts.

(** X13.  What the hook holds in React state is what a reload of the
    page would read back from [localStorage].  After any sequence of
    updates of the provider, the key, the base URL and the model,
    starting from any stored content: the provider, the key and the base
    URL in state are those a reload would show, and the request the
    Gemini adapter builds from the state is the one it would build after
    a reload; if no update set the model to the empty string, the whole
    configuration is the one a reload would show.  (A model set to the
    empty string stays empty in state, while a reload shows the default
    model; the adapter sends the default in both cases.) *)
Theorem settings_survive_reload {validation : Validation}
    (ls : ProviderSettings.Storage) (actions : list ProviderSettings.Action) :
  ProviderSettings.nearly_synced
    (ProviderSettings.acts actions (ProviderSettings.mount ls))
  /\ (forallb (fun a => negb (ProviderSettings.sets_empty_model a)) actions = true ->
      ProviderSettings.synced
        (ProviderSettings.acts actions (ProviderSettings.mount ls)))
  /\ (forall key history k a r prepared,
        Gemini.outbound key history
          (ProviderSettings.settings_of
             (ProviderSettings.acts actions (ProviderSettings.mount ls)) k a r)
          prepared
        = Gemini.outbound key history
            (ProviderSettings.settings_of
               (ProviderSettings.mount
                  (ProviderSettings.localStorage
                     (ProviderSettings.acts actions (ProviderSettings.mount ls))))
               k a r)
            prepared).
Proof.
  destruct (nearly_synced_acts actions _ (nearly_synced_mount ls)) as [Hn Hm].
  split; [done|]. split.
  - intros Hl. unfold ProviderSettings.synced.
    destruct Hn as (Hp & Hk & Hb & _). apply config_eq; try done. by apply Hm.
  - intros key history k a r prepared.
    pose proof (sent_model _ Hn) as Hs. destruct Hn as (_ & _ & Hb & _).
    set (st := ProviderSettings.acts actions (ProviderSettings.mount ls)) in *.
    unfold Gemini.outbound, Gemini.proxyBaseUrl, ProviderSettings.settings_of,
      ProviderSettings.mount.
    cbn [providerConfig ProviderSettings.config aspectRatio resolution batchSize].
    unfold Gemini.imageConfig_of. cbn [aspectRatio resolution].
    by rewrite Hb, Hs.
Qed.

Lemma settings_survive_reload_witness :
  ProviderSettings.synced
    (ProviderSettings.acts (validation := lenient)
       [ProviderSettings.SetBaseUrl (lit "  https://proxy.example/  ");
        ProviderSettings.SetProvider openai;
        ProviderSettings.SetApiKey (lit "o-key");
        ProviderSettings.SetModel (lit "gpt-4o");
        ProviderSettings.SetProvider gemini]
       (ProviderSettings.mount stored_gemini)).
Proof.
  apply (settings_survive_reload (validation := lenient) stored_gemini
           [ProviderSettings.SetBaseUrl (lit "  https://proxy.example/  ");
            ProviderSettings.SetProvider openai;
            ProviderSettings.SetApiKey (lit "o-key");
            ProviderSettings.SetModel (lit "gpt-4o");
            ProviderSettings.SetProvider gemini]).
  reflexivity.
Defined.

(** X14.  The base URL the hook hands to the adapters is never blank:
    in every state it can reach the base URL is either absent, which
    happens for the Gemini provider only, or a non-empty string, and for
    the Gemini provider a string without white space at either end.  The
    Gemini adapter therefore goes through the proxy exactly when a base
    URL is present, and uses it as it is. *)
Theorem stored_base_url_never_blank {validation : Validation}
    (ls : ProviderSettings.Storage) (actions : list ProviderSettings.Action) :
  match baseUrl (ProviderSettings.config
                   (ProviderSettings.acts actions (ProviderSettings.mount ls))) with
  | None =>
      provider (ProviderSettings.config
                  (ProviderSettings.acts actions (ProviderSettings.mount ls))) = gemini
      /\ forall k a r,
           Gemini.proxyBaseUrl
             (ProviderSettings.settings_of
                (ProviderSettings.acts actions (ProviderSettings.mount ls)) k a r) = []
  | Some b =>
      b <> []
      /\ (provider (ProviderSettings.config
                      (ProviderSettings.acts actions (ProviderSettings.mount ls))) = gemini ->
          forall k a r,
            Gemini.proxyBaseUrl
              (ProviderSettings.settings_of
                 (ProviderSettings.acts actions (ProviderSettings.mount ls)) k a r) = b)
  end.
Proof.
  destruct (nearly_synced_acts actions _ (nearly_synced_mount ls)) as [(Hp & _ & Hb & _) _].
  set (st := ProviderSettings.acts actions (ProviderSettings.mount ls)) in *.
  rewrite initial_stored in Hp, Hb. rewrite provider_stored_config in Hp.
  pose proof (stored_base_url (ProviderSettings.stored_provider
                                 (ProviderSettings.localStorage st))
                (ProviderSettings.localStorage st)) as H.
  rewrite <- Hb, <- Hp in H.
  unfold Gemini.proxyBaseUrl, ProviderSettings.settings_of. cbn [providerConfig].
  destruct (baseUrl (ProviderSettings.config st)) as [b|]; [|done].
  destruct H as [Hne Htrim]. split; [done|]. intros Hg k a r. by apply Htrim.
Qed.

(** X15.  The values of one provider are kept while the other is in
    use.  From a state that agrees with [localStorage], switching to the
    other provider, changing its key, base URL and model in any way, and
    switching back gives the configuration back as it was. *)
Theorem provider_switch_restores {validation : Validation}
    (st : ProviderSettings.State) (other : Provider)
    (actions : list ProviderSettings.Action) :
  ProviderSettings.synced st ->
  other <> provider (ProviderSettings.config st) ->
  forallb (fun a => negb (ProviderSettings.sets_provider a)) actions = true ->
  ProviderSettings.config
    (ProviderSettings.updateProvider (provider (ProviderSettings.config st))
       (ProviderSettings.acts actions (ProviderSettings.updateProvider other st)))
  = ProviderSettings.config st.
Proof.
  intros Hs Hne Hl. set (p := provider (ProviderSettings.config st)) in *.
  rewrite updateProvider_config.
  destruct (acts_keep_other p actions (ProviderSettings.updateProvider other st) Hl)
    as [_ ->].
  { rewrite updateProvider_config, provider_stored_config. done. }
  unfold ProviderSettings.updateProvider. cbn [ProviderSettings.localStorage].
  destruct (stored_config_other p ProviderSettings.PROVIDER
              (ProviderSettings.provider_string other)
              (ProviderSettings.localStorage st)) as [-> _].
  { destruct p; simpl; intuition discriminate. }
  unfold ProviderSettings.synced in Hs. rewrite initial_stored in Hs.
  assert (p = ProviderSettings.stored_provider (ProviderSettings.localStorage st)) as ->.
  { unfold p. by rewrite Hs, provider_stored_config. }
  done.
Qed.

Lemma provider_switch_restores_witness :
  ProviderSettings.config
    (ProviderSettings.updateProvider gemini
       (ProviderSettings.acts (validation := lenient)
          [ProviderSettings.SetApiKey (lit "o-key");
           ProviderSettings.SetBaseUrl (lit "https://api.example/v1");
           ProviderSettings.SetModel (lit "gpt-4o")]
          (ProviderSettings.updateProvider openai (ProviderSettings.mount stored_gemini))))
  = ProviderSettings.config (ProviderSettings.mount stored_gemini).
Proof.
  apply (provider_switch_restores (validation := lenient)
           (ProviderSettings.mount stored_gemini) openai
           [ProviderSettings.SetApiKey (lit "o-key");
            ProviderSettings.SetBaseUrl (lit "https://api.example/v1");
            ProviderSettings.SetModel (lit "gpt-4o")]);
    [reflexivity|discriminate|reflexivity].
Defined.

(** ** When a prompt is taken to mention an image *)

Lemma forallb_all (f : N -> bool) (l : jsstring) :
  forallb f l = true <-> Forall (fun c => f c = true) l.
Proof.
  induction l as [|c l IH]; simpl.
  - split; [constructor|done].
  - rewrite andb_true_iff, IH. split; [intros [? ?]; by constructor|by inversion 1].
Qed.

Lemma digit19_digit (c : N) : is_digit19 c = true -> is_digit c = true.
Proof. unfold is_digit19, is_digit. rewrite !andb_true_iff, !N.leb_le. lia. Qed.

Lemma digit_numeral (c : N) : is_digit c = true -> Gemini.is_numeral c = true.
Proof. unfold Gemini.is_numeral. intros ->. apply orb_true_r. Qed.

Lemma digit_not_space (c : N) : is_digit c = true -> is_space c = false.
Proof.
  unfold is_digit. rewrite andb_true_iff, !N.leb_le. intros [H1 H2].
  unfold is_space, is_white_space, is_line_terminator.
  assert ((0x2000 <=? c)%N = false) as -> by (apply N.leb_gt; lia).
  repeat match goal with
  | |- context [(c =? ?n)%N] => destruct (N.eqb_spec c n) as [->|]; [lia|]
  end.
  reflexivity.
Qed.

Lemma strip_prefix_ci_Some (p s t : jsstring) :
  Gemini.strip_prefix_ci p s = Some t ->
  exists w, s = w ++ t /\ map Gemini.upper w = map Gemini.upper p.
Proof.
  revert s. induction p as [|x p IH]; intros s; simpl.
  - intros [= ->]. by exists [].
  - destruct s as [|y s]; [done|].
    destruct (code_eqb (Gemini.upper x) (Gemini.upper y)) eqn:E; [|done].
    apply code_eqb_eq in E. intros H. destruct (IH _ H) as (w & -> & Hw).
    exists (y :: w). simpl. by rewrite Hw, E.
Qed.

Lemma strip_prefix_ci_app (w p t : jsstring) :
  map Gemini.upper w = map Gemini.upper p ->
  Gemini.strip_prefix_ci p (w ++ t) = Some t.
Proof.
  revert w. induction p as [|x p IH]; intros w Hw.
  - by destruct w.
  - destruct w as [|y w]; [done|]. simpl in *. injection Hw as Hy Hw.
    rewrite Hy, code_eqb_refl. by apply IH.
Qed.

Lemma trim_start_app (sp t : jsstring) :
  forallb is_space sp = true -> trim_start (sp ++ t) = trim_start t.
Proof.
  induction sp as [|c sp IH]; [done|]. simpl.
  intros [-> H]%andb_true_iff. by apply IH.
Qed.

Lemma image_ref_here_sound (s : jsstring) :
  Gemini.image_ref_here s = true ->
  exists x b, s = x ++ b /\ image_ref x.
Proof.
  destruct s as [|c r]; [done|]. unfold Gemini.image_ref_here.
  intros H. apply orb_true_iff in H as [H|H];
    [apply orb_true_iff in H as [H|H]; [apply orb_true_iff in H as [H|H]|]|].
  - apply andb_true_iff in H as [Hc Hd]. apply code_eqb_eq in Hc as ->.
    destruct r as [|d r]; [done|].
    exists [0x56fe%N; d], r. split; [done|]. apply ref_figure; [done|].
    simpl. by rewrite Hd.
  - destruct (Gemini.strip_prefix_ci (lit "image") (c :: r)) as [t|] eqn:E; [|done].
    apply strip_prefix_ci_Some in E as (w & Hs & Hw).
    destruct (trim_start_spec t) as (lead & Ht & Hlead & _).
    destruct (trim_start t) as [|d rest] eqn:Et; [done|].
    exists (w ++ lead ++ [d]), rest. split.
    + rewrite Hs, Ht, <- !app_assoc. done.
    + by apply ref_image.
  - apply andb_true_iff in H as [Hc H]. apply code_eqb_eq in Hc as ->.
    destruct (span Gemini.is_numeral r) as [m rest] eqn:E.
    apply span_spec in E as (-> & Hm & _).
    apply andb_true_iff in H as [Hne H].
    destruct rest as [|z rest]; [done|]. cbn [Gemini.starts_with_code] in H.
    apply code_eqb_eq in H as <-.
    exists (0x7b2c%N :: m ++ [0x5f20%N]), rest. split.
    + simpl. by rewrite <- app_assoc.
    + apply ref_nth; [by apply truthy_true|done].
  - apply andb_true_iff in H as [Hc H]. apply code_eqb_eq in Hc as ->.
    destruct r as [|d r]; [done|]. apply andb_true_iff in H as [Hd H].
    destruct (span is_digit r) as [ds rest] eqn:E.
    apply span_spec in E as (-> & Hds & _).
    destruct rest as [|z rest]; [done|]. cbn [Gemini.starts_with_code] in H.
    apply code_eqb_eq in H as <-.
    exists (0x7b2c%N :: d :: ds ++ [0x5f20%N]), rest. split.
    + simpl. by rewrite <- app_assoc.
    + by apply ref_nth_number.
Qed.

Lemma image_ref_here_complete (x b : jsstring) :
  image_ref x -> Gemini.image_ref_here (x ++ b) = true.
Proof.
  intros [m Hm Hnum|w sp ds d Hw Hsp Hd Hds|m Hm Hnum|d ds Hd Hds].
  - destruct m as [|d m]; [done|]. simpl in Hnum.
    apply andb_true_iff in Hnum as [Hd _].
    cbn [app]. unfold Gemini.image_ref_here. by rewrite code_eqb_refl, Hd.
  - destruct w as [|c w]; [done|].
    assert (Gemini.strip_prefix_ci (lit "image") (((c :: w) ++ sp ++ d :: ds) ++ b)
            = Some (sp ++ d :: ds ++ b)) as E.
    { rewrite <- !app_assoc. by apply strip_prefix_ci_app. }
    cbn [app] in *. unfold Gemini.image_ref_here. rewrite E.
    rewrite trim_start_app by done. cbn [trim_start].
    rewrite (digit_not_space d) by (by apply digit19_digit). rewrite Hd.
    by rewrite orb_true_r.
  - cbn [app]. unfold Gemini.image_ref_here. rewrite code_eqb_refl.
    rewrite <- app_assoc. rewrite (span_app _ m ([0x5f20%N] ++ b)) by done.
    apply truthy_true in Hm. rewrite Hm. cbn. by rewrite orb_true_r.
  - cbn [app]. unfold Gemini.image_ref_here. rewrite code_eqb_refl, Hd.
    rewrite <- app_assoc. rewrite (span_app _ ds ([0x5f20%N] ++ b)) by done.
    cbn. by rewrite !orb_true_r.
Qed.

Lemma hasImageReference_unfold (s : jsstring) :
  Gemini.hasImageReference s
  = Gemini.image_ref_here s
    || match s with [] => false | _ :: s' => Gemini.hasImageReference s' end.
Proof. by destruct s. Qed.

Lemma image_ref_numeral (x : jsstring) :
  image_ref x -> exists c, In c x /\ Gemini.is_numeral c = true.
Proof.
  intros [m Hm Hnum|w sp ds d Hw Hsp Hd Hds|m Hm Hnum|d ds Hd Hds].
  - destruct m as [|d m]; [done|]. simpl in Hnum.
    apply andb_true_iff in Hnum as [Hd _]. exists d. split; [|done]. simpl. tauto.
  - exists d. split.
    + apply in_or_app. right. apply in_or_app. right. simpl. tauto.
    + by apply digit_numeral, digit19_digit.
  - destruct m as [|d m]; [done|]. simpl in Hnum.
    apply andb_true_iff in Hnum as [Hd _]. exists d. split; [|done]. simpl. tauto.
  - exists d. split; [simpl; tauto|]. by apply digit_numeral, digit19_digit.
Qed.

Lemma hasImageReference_sound (prompt : jsstring) :
  Gemini.hasImageReference prompt = true ->
  exists a x b, prompt = a ++ x ++ b /\ image_ref x.
Proof.
  induction prompt as [|c s IH].
  - intros H. rewrite hasImageReference_unfold, orb_false_r in H.
    destruct (image_ref_here_sound _ H) as (x & b & Hs & Hx). by exists [], x, b.
  - rewrite hasImageReference_unfold. intros [H|H]%orb_true_iff.
    + destruct (image_ref_here_sound _ H) as (x & b & Hs & Hx). by exists [], x, b.
    + destruct (IH H) as (a & x & b & -> & Hx). by exists (c :: a), x, b.
Qed.

(** X16.  The pattern with which the Gemini adapter decides whether a
    prompt mentions an image by number accepts a prompt exactly when the
    prompt contains one of: [图] followed by numerals; the word [image],
    in any mix of upper and lower case, optional white space and a
    number that does not start with zero; [第], numerals and [张]. *)
Theorem image_reference_detected (prompt : jsstring) :
  Gemini.hasImageReference prompt = true
  <-> exists a x b, prompt = a ++ x ++ b /\ image_ref x.
Proof.
  split; [apply hasImageReference_sound|].
  - intros (a & x & b & -> & Hx). induction a as [|c a IH].
    + rewrite hasImageReference_unfold. cbn [app].
      by rewrite image_ref_here_complete.
    + rewrite hasImageReference_unfold. cbn [app]. rewrite IH. apply orb_true_r.
Qed.

(** X17.  A prompt without any digit or Chinese numeral never gets the
    legend: whatever images go with it, the text part the Gemini adapter
    sends is the prompt itself, unchanged. *)
Theorem no_numeral_no_legend {validation : Validation} (prompt : jsstring) :
  Forall (fun c => Gemini.is_numeral c = false) prompt ->
  Gemini.hasImageReference prompt = false
  /\ (forall n, Gemini.enhancePrompt prompt n = prompt)
  /\ (forall key history uploadedImages logs prepared,
        prompt <> [] ->
        Gemini.prepare key prompt history uploadedImages = (logs, Ok prepared) ->
        head (Gemini.userParts prepared) = Some (TextPart prompt)).
Proof.
  intros Hnone.
  assert (Gemini.hasImageReference prompt = false) as Hno.
  { destruct (Gemini.hasImageReference prompt) eqn:E; [|done]. exfalso.
    destruct (hasImageReference_sound prompt E) as (a & x & b & -> & Hx).
    destruct (image_ref_numeral x Hx) as (c & Hc & Hnum).
    rewrite List.Forall_forall in Hnone. rewrite Hnone in Hnum; [done|].
    apply in_or_app. right. apply in_or_app. by left. }
  assert (forall n, Gemini.enhancePrompt prompt n = prompt) as Hsame.
  { intros n. unfold Gemini.enhancePrompt. by rewrite Hno, andb_false_r. }
  split_and!; [done|done|].
  intros key history uploadedImages logs prepared Hne Hprep.
  destruct (gemini_prompt_text key prompt history uploadedImages logs prepared Hprep Hne)
    as (imgs & ->).
  cbn [head]. by rewrite Hsame.
Qed.

Lemma no_numeral_no_legend_witness :
  Gemini.prepare (validation := lenient) (lit "key") (lit "blend these images") []
    (Some [first_upload; second_upload])
  = ([], Ok {| Gemini.userParts :=
                 [TextPart (lit "blend these images");
                  InlineDataPart (lit "image/png") (lit "AAAA");
                  InlineDataPart (lit "image/jpeg") (lit "BBBB")];
               Gemini.userPartsProxy :=
                 [TextPart (lit "blend these images");
                  Inline_dataPart (lit "image/png") (lit "AAAA");
                  Inline_dataPart (lit "image/jpeg") (lit "BBBB")] |})
  /\ Gemini.hasImageReference (lit "blend these images") = false.
Proof.
  split; [reflexivity|].
  apply (no_numeral_no_legend (validation := lenient) (lit "blend these images")).
  repeat (constructor; [reflexivity|]). constructor.
Defined.

(** ** Replies in either spelling *)

Lemma opt_default_or_none (a : option jsstring) (d : jsstring) :
  opt_default (opt_or a None) d = opt_default a d
  /\ opt_default (opt_or None a) d = opt_default a d.
Proof. by destruct a as [[|c s]|]. Qed.

Lemma image_data_snake (part : Gemini.Part) :
  camel_part part = true ->
  Gemini.image_data (snake_part part) = Gemini.image_data part.
Proof.
  destruct part as [[[dat mt mt']|] [d'|] t]; try done.
  unfold camel_part, camel_inline. cbn. destruct mt' as [x|]; [done|]. intros _.
  unfold Gemini.image_data, snake_part, snake_inline.
  cbn [Gemini.part_inlineData Gemini.part_inline_data Gemini.inl_data
       Gemini.inl_mimeType Gemini.inl_mime_type fmap option_fmap option_map].
  destruct (opt_truthy dat); [|done]. by destruct mt as [[|c s]|].
Qed.

Lemma read_parts_snake (uuid : nat -> jsstring) (j : nat) (parts : list Gemini.Part) :
  forallb camel_part parts = true ->
  Gemini.read_parts uuid j (map snake_part parts) = Gemini.read_parts uuid j parts.
Proof.
  revert j. induction parts as [|part parts IH]; intros j; [done|].
  cbn [forallb map Gemini.read_parts]. intros [Hp Hps]%andb_true_iff.
  by rewrite IH, image_data_snake.
Qed.

(** X18.  The Gemini adapter reads a reply the same way whether its
    fields are spelled as the SDK spells them ([inlineData], [mimeType],
    [finishReason]) or as the REST interface does ([inline_data],
    [mime_type], [finish_reason]): the same callbacks fire with the same
    images and texts, and the attempt fails or succeeds alike. *)
Theorem reply_spelling (uuid : nat -> jsstring) (r : Gemini.Response) :
  camel_response r = true ->
  Gemini.read_reply uuid (Gemini.Resolves (snake_response r))
  = Gemini.read_reply uuid (Gemini.Resolves r).
Proof.
  destruct r as [[[|c cs]|]]; try done.
  unfold camel_response. cbn [Gemini.candidates forallb].
  intros [Hc _]%andb_true_iff.
  unfold Gemini.read_reply, snake_response. cbn [Gemini.candidates fmap option_fmap
    option_map map].
  destruct c as [fr fr' content]. unfold camel_candidate in Hc.
  cbn [Gemini.finish_reason Gemini.content] in Hc.
  destruct fr' as [x|]; [done|].
  assert (Gemini.blocked (snake_candidate
            {| Gemini.finishReason := fr; Gemini.finish_reason := None;
               Gemini.content := content |})
          = Gemini.blocked {| Gemini.finishReason := fr; Gemini.finish_reason := None;
                              Gemini.content := content |}) as ->.
  { unfold Gemini.blocked, snake_candidate.
    cbn [Gemini.finishReason Gemini.finish_reason].
    by destruct (opt_default_or_none fr []) as [-> ->]. }
  destruct (Gemini.blocked _); [done|].
  cbn [snake_candidate Gemini.content fmap option_fmap option_map].
  destruct content as [[[parts|]]|]; try done.
  cbn [snake_content Gemini.content_parts fmap option_fmap option_map].
  by rewrite read_parts_snake.
Qed.

Lemma reply_spelling_witness :
  Gemini.read_reply (sample_uuid 0 0) (Gemini.Resolves (snake_response camel_reply))
  = ([CbText (lit "here it is");
      CbImage {| gi_id := sample_uuid 0 0 1; gi_data := lit "data:image/png;base64,AAAA";
                 gi_mimeType := lit "image/png"; gi_status := success |}], None).
Proof.
  rewrite (reply_spelling (sample_uuid 0 0) camel_reply); reflexivity.
Defined.

(** ** Errors of the OpenAI-compatible adapter as they are logged *)

(** X19.  Before logging, the OpenAI-compatible adapter may present an
    error as a [NetworkError], and does nothing else to it: the message
    is kept, the class is kept or becomes [NetworkError], and classifying
    twice is classifying once.  The errors the adapter raises itself
    while reading a reply are logged as they are. *)
Theorem openai_logged_errors (e : Thrown) :
  err_message (OpenAI.classify e) = err_message e
  /\ OpenAI.classify (OpenAI.classify e) = OpenAI.classify e
  /\ (err_class (OpenAI.classify e) = err_class e
      \/ err_class (OpenAI.classify e) = NetworkError)
  /\ (forall uuid response cbs err,
        OpenAI.read_reply uuid (OpenAI.Resolves response) = (cbs, Some err) ->
        OpenAI.classify err = err).
Proof.
  split_and!.
  - unfold OpenAI.classify. by destruct (_ || _).
  - unfold OpenAI.classify.
    destruct (includes (err_message e) (lit "fetch")
              || includes (err_message e) (lit "network")) eqn:E;
      cbn [err_message]; by rewrite E.
  - unfold OpenAI.classify. destruct (_ || _); [by right|by left].
  - intros uuid response cbs err. unfold OpenAI.read_reply.
    destruct (OpenAI.choices response) as [[|choice rest]|];
      try (by intros [= <- <-]).
    destruct (OpenAI.blocked choice); [by intros [= <- <-]|].
    destruct (OpenAI.content_of (OpenAI.message choice)) as [c|];
      [|by intros [= <- <-]].
    destruct (OpenAI.read_content uuid c) as [cbs' found].
    destruct found; [done|]. by intros [= <- <-].
Qed.

Lemma openai_logged_errors_witness :
  OpenAI.classify
    (thrown ImageProcessingError "No image data in response")
  = thrown ImageProcessingError "No image data in response".
Proof.
  apply (proj2 (proj2 (proj2 (openai_logged_errors (thrown ForeignError "x"))))
           (sample_uuid 0 0)
           {| OpenAI.choices :=
                Some [{| OpenAI.finish_reason := None;
                         OpenAI.message :=
                           Some {| OpenAI.msg_content :=
                                     Some (OpenAI.ContentString (lit "no")) |} |}] |}
           [CbText (lit "no")]).
  reflexivity.
Defined.

(** ** Images read by the OpenAI-compatible adapter *)

Lemma split_plain (sep : N) (x : jsstring) :
  Forall (fun c => c <> sep) x -> OpenAI.split sep x = [x].
Proof.
  induction 1 as [|c x Hc _ IH]; [done|]. simpl.
  apply code_eqb_neq in Hc. by rewrite Hc, IH.
Qed.

Lemma split_at (sep : N) (x y : jsstring) :
  Forall (fun c => c <> sep) x ->
  OpenAI.split sep (x ++ sep :: y) = x :: OpenAI.split sep y.
Proof.
  induction 1 as [|c x Hc _ IH]; simpl.
  - by rewrite code_eqb_refl.
  - apply code_eqb_neq in Hc. by rewrite Hc, IH.
Qed.

(** The mime type the adapter reads off a data URI is the one written
    in it. *)
Lemma mime_of_data_uri (mime data : jsstring) :
  Forall (fun c => c <> semicolon) mime ->
  Forall (fun c => c <> colon) mime ->
  OpenAI.mime_of_url (data_uri mime data) = Some mime.
Proof.
  intros Hs Hc. unfold OpenAI.mime_of_url, data_uri.
  change (lit ";base64," ++ data) with (semicolon :: lit "base64," ++ data).
  rewrite app_assoc, split_at.
  2:{ apply Forall_app. split; [|done].
      change (lit "data:") with [100; 97; 116; 97; 58]%N.
      repeat (constructor; [done|]). constructor. }
  cbn [hd].
  change (lit "data:" ++ mime) with (lit "data" ++ colon :: mime).
  rewrite split_at.
  2:{ change (lit "data") with [100; 97; 116; 97]%N.
      repeat (constructor; [done|]). constructor. }
  by rewrite split_plain.
Qed.

Lemma data_uri_here_Some (s u : jsstring) :
  OpenAI.data_uri_here s = Some u ->
  exists m payload rest,
    s = u ++ rest
    /\ u = lit "data:image/" ++ m ++ lit ";base64," ++ payload
    /\ m <> [] /\ Forall (fun c => c <> semicolon) m
    /\ payload <> [] /\ Forall (fun c => is_base64_char c = true) payload.
Proof.
  unfold OpenAI.data_uri_here.
  destruct (strip_prefix (lit "data:image/") s) as [r|] eqn:E1; [|done].
  apply strip_prefix_Some in E1 as ->.
  destruct (span _ r) as [m rest] eqn:E2. apply span_spec in E2 as (-> & Hm & _).
  destruct (truthy m) eqn:E3; [|done].
  destruct (strip_prefix (lit ";base64,") rest) as [d|] eqn:E4; [|done].
  apply strip_prefix_Some in E4 as ->.
  destruct (span is_base64_char d) as [payload tail] eqn:E5.
  apply span_spec in E5 as (-> & Hp & _).
  destruct (truthy payload) eqn:E6; [|done].
  set (u0 := lit "data:image/" ++ m ++ lit ";base64," ++ payload).
  intros [= <-]. unfold u0.
  exists m, payload, tail. split_and!.
  - by rewrite <- !app_assoc.
  - done.
  - by apply truthy_true.
  - apply forallb_all in Hm. eapply Forall_impl; [exact Hm|].
    intros c Hc. by apply negb_true_iff, code_eqb_neq in Hc.
  - by apply truthy_true.
  - by apply forallb_all.
Qed.

Lemma find_data_uri_Some (s u : jsstring) :
  OpenAI.find_data_uri s = Some u ->
  exists a, exists m payload rest,
    s = a ++ u ++ rest
    /\ u = lit "data:image/" ++ m ++ lit ";base64," ++ payload
    /\ m <> [] /\ Forall (fun c => c <> semicolon) m
    /\ payload <> [] /\ Forall (fun c => is_base64_char c = true) payload.
Proof.
  induction s as [|c s IH].
  - cbn [OpenAI.find_data_uri].
    destruct (OpenAI.data_uri_here []) as [x|] eqn:E; [|done]. intros [= ->].
    exists []. by apply data_uri_here_Some.
  - cbn [OpenAI.find_data_uri].
    destruct (OpenAI.data_uri_here (c :: s)) as [x|] eqn:E.
    + intros [= ->]. exists []. by apply data_uri_here_Some.
    + intros H. destruct (IH H) as (a & m & payload & rest & -> & Hrest).
      exists (c :: a), m, payload, rest. by split.
Qed.

(** X20.  When the OpenAI-compatible adapter finds an image in a reply
    that is a plain string, the image it delivers is a piece of that
    string of the form [data:image/...;base64,...] with a non-empty
    subtype and a non-empty payload over the base64 alphabet; the
    adapter's own [extractBase64Data] accepts it, so the image can be
    selected as the input of a later turn; and the mime type delivered
    with it is the one written in the URI, provided the subtype contains
    no colon. *)
Theorem openai_image_in_text (uuid : nat -> jsstring) (s : jsstring)
    (img : GeneratedImage) (cbs : list Callback) (found : bool) :
  OpenAI.read_content uuid (OpenAI.ContentString s) = (cbs, found) ->
  In (CbImage img) cbs ->
  cbs = [CbImage img] /\ found = true
  /\ gi_status img = success
  /\ exists a m payload rest,
       s = a ++ gi_data img ++ rest
       /\ gi_data img = data_uri (lit "image/" ++ m) payload
       /\ m <> [] /\ payload <> []
       /\ Forall (fun c => is_base64_char c = true) payload
       /\ OpenAI.extractBase64Data (gi_data img)
          = Some {| mimeType := lit "image/" ++ m; base64Data := payload |}
       /\ (Forall (fun c => c <> colon) m -> gi_mimeType img = lit "image/" ++ m).
Proof.
  cbn [OpenAI.read_content].
  destruct (OpenAI.find_data_uri s) as [u|] eqn:E.
  2:{ intros [= <- <-] [H|[]]. done. }
  intros [= <- <-] [H|[]]. injection H as <-. cbn [gi_data gi_status gi_mimeType].
  split_and!; try done.
  destruct (find_data_uri_Some s u E) as (a & m & payload & rest & Hs & Hu & Hm & Hsemi
                                           & Hp & Hb64).
  exists a, m, payload, rest.
  assert (u = data_uri (lit "image/" ++ m) payload) as Hu'.
  { rewrite Hu. unfold data_uri. by rewrite <- app_assoc. }
  assert (Forall (fun c => c <> semicolon) (lit "image/" ++ m)) as Hsemi'.
  { apply Forall_app. split; [|done].
    change (lit "image/") with [105; 109; 97; 103; 101; 47]%N.
    repeat (constructor; [done|]). constructor. }
  split_and!; try done.
  - unfold OpenAI.extractBase64Data.
    assert (match_data_uri u = Some (lit "image/" ++ m, payload)) as ->.
    { apply match_data_uri_Some. split_and!; try done.
      eapply Forall_impl; [exact Hb64|]. apply base64_char_not_line_terminator. }
    destruct payload as [|c payload]; [done|]. done.
  - intros Hcolon. rewrite Hu', mime_of_data_uri; [done|done|].
    apply Forall_app. split; [|done].
    change (lit "image/") with [105; 109; 97; 103; 101; 47]%N.
    repeat (constructor; [done|]). constructor.
Qed.

Lemma openai_image_in_text_witness :
  exists a m payload rest,
    lit "Here: data:image/png;base64,AAAA. Enjoy"
    = a ++ lit "data:image/png;base64,AAAA" ++ rest
    /\ lit "data:image/png;base64,AAAA" = data_uri (lit "image/" ++ m) payload
    /\ m <> [] /\ payload <> []
    /\ Forall (fun c => is_base64_char c = true) payload
    /\ OpenAI.extractBase64Data (lit "data:image/png;base64,AAAA")
       = Some {| mimeType := lit "image/" ++ m; base64Data := payload |}
    /\ (Forall (fun c => c <> colon) m -> lit "image/png" = lit "image/" ++ m).
Proof.
  apply (openai_image_in_text (sample_uuid 0 0)
           (lit "Here: data:image/png;base64,AAAA. Enjoy")
           {| gi_id := sample_uuid 0 0 0; gi_data := lit "data:image/png;base64,AAAA";
              gi_mimeType := lit "image/png"; gi_status := success |}
           [CbImage {| gi_id := sample_uuid 0 0 0;
                       gi_data := lit "data:image/png;base64,AAAA";
                       gi_mimeType := lit "image/png"; gi_status := success |}]
           true); [reflexivity|by left].
Defined.

(** X21.  An element of an array-valued reply whose [image_url], given
    as a string or as an object with a [url], is the data URI of a mime
    type and a payload makes the OpenAI-compatible adapter deliver one
    image whose data is that URI and whose mime type is the URI's own;
    the element's text, if any, is not delivered. *)
Theorem openai_image_in_array (uuid : nat -> jsstring) (j : nat)
    (u : OpenAI.ImageUrl) (text : option jsstring) (rest : list OpenAI.ContentPart)
    (mime data : jsstring) :
  OpenAI.image_url_of u = Some (data_uri mime data) ->
  mime <> [] ->
  Forall (fun c => c <> semicolon) mime ->
  Forall (fun c => c <> colon) mime ->
  OpenAI.read_parts uuid j (OpenAI.PartObject (Some u) text :: rest)
  = (CbImage {| gi_id := uuid j; gi_data := data_uri mime data;
                gi_mimeType := mime; gi_status := success |}
       :: fst (OpenAI.read_parts uuid (S j) rest), true).
Proof.
  intros Hu Hne Hsemi Hcolon. cbn [OpenAI.read_parts].
  destruct (OpenAI.read_parts uuid (S j) rest) as [cbs found]. cbn [fst].
  assert (OpenAI.image_url_truthy u = true) as ->.
  { destruct u as [s|o]; [|done]. simpl in Hu. by injection Hu as ->. }
  rewrite Hu. cbn [opt_truthy opt_default].
  assert (truthy (data_uri mime data) = true) as -> by done.
  rewrite mime_of_data_uri by done. cbn [opt_default].
  apply truthy_true in Hne. by rewrite Hne.
Qed.

Lemma openai_image_in_array_witness :
  OpenAI.read_parts (sample_uuid 0 0) 0
    [OpenAI.PartObject (Some (OpenAI.UrlObject (Some (lit "data:image/webp;base64,QUJD"))))
       (Some (lit "caption"))]
  = ([CbImage {| gi_id := sample_uuid 0 0 0;
                 gi_data := lit "data:image/webp;base64,QUJD";
                 gi_mimeType := lit "image/webp"; gi_status := success |}], true).
Proof.
  apply (openai_image_in_array (sample_uuid 0 0) 0
           (OpenAI.UrlObject (Some (lit "data:image/webp;base64,QUJD")))
           (Some (lit "caption")) [] (lit "image/webp") (lit "QUJD"));
    [reflexivity|discriminate| |];
    repeat (constructor; [discriminate|]); constructor.
Defined.

(** ** What goes into the user message *)

Section UserMessage.
Context {validation : Validation}.

Lemma extract_cases (s : jsstring) (imageId : option jsstring) :
  (exists m d,
     s = data_uri m d
     /\ extractBase64Data s imageId = (Some {| mimeType := m; base64Data := d |}, [])
     /\ OpenAI.extractBase64Data s = Some {| mimeType := m; base64Data := d |})
  \/ (extractBase64Data s imageId
      = (None, [image_diag (lit "Invalid image data format" ++ for_image imageId)])
      /\ OpenAI.extractBase64Data s = None).
Proof.
  unfold extractBase64Data, OpenAI.extractBase64Data.
  destruct (match_data_uri s) as [[m d]|] eqn:E; [|by right].
  apply match_data_uri_Some in E as (-> & Hm & _ & Hd & _).
  left. exists m, d. destruct d; [done|]. by destruct m.
Qed.


Lemma image_diag_class (msg : jsstring) :
  diag_context (image_diag msg) = lit "Image Processing"
  /\ err_class (diag_error (image_diag msg)) = ImageProcessingError.
Proof. done. Qed.



Lemma collect_agree (history : list Message) :
  fst (OpenAI.collectSelectedImages history)
  = map (fun i => OpenAI.ImageUrlOut (data_uri (mimeType i) (base64Data i)))
        (fst (Gemini.collectSelectedImages history)).
Proof.
  induction history as [|msg rest IH]; [done|].
  cbn [Gemini.collectSelectedImages OpenAI.collectSelectedImages].
  destruct (Gemini.collectSelectedImages rest) as [sel logs].
  destruct (OpenAI.collectSelectedImages rest) as [sel' logs']. cbn [fst] in IH.
  destruct (selected_image msg) as [img|]; [|done].
  destruct (extract_cases (gi_data img) (Some (gi_id img)))
    as [(m & d & Hs & -> & ->)|[-> ->]]; cbn [base64Data mimeType]; [|done].
  destruct (too_large d); cbn [fst map mimeType base64Data]; [done|].
  by rewrite IH, Hs.
Qed.

Lemma filter_agree (uploads : list UploadedImage) :
  fst (OpenAI.filter_uploads uploads)
  = map (fun i => OpenAI.ImageUrlOut (data_uri (mimeType i) (base64Data i)))
        (fst (Gemini.filter_uploads uploads)).
Proof.
  induction uploads as [|img rest IH]; [done|].
  cbn [Gemini.filter_uploads OpenAI.filter_uploads].
  destruct (Gemini.filter_uploads rest) as [inputs logs].
  destruct (OpenAI.filter_uploads rest) as [parts logs']. cbn [fst] in IH.
  destruct (extract_cases (ui_data img) (Some (ui_id img)))
    as [(m & d & Hs & -> & ->)|[-> ->]]; cbn [base64Data mimeType]; [|done].
  destruct (too_large d); cbn [fst map mimeType base64Data]; [done|].
  by rewrite IH, Hs.
Qed.

Lemma selected_image_model (m : Message) (img : GeneratedImage) :
  selected_image m = Some img -> msg_role m = model.
Proof. unfold selected_image. by destruct (msg_role m). Qed.

Lemma find_never (l : list GeneratedImage) :
  List.find (fun img => id_eqb (gi_id img) None) l = None.
Proof. by induction l. Qed.

Lemma history_parts_current (m : Message) :
  selection_named m ->
  GeminiPrev.history_parts m
  = match selected_image m with
    | None => ([], [])
    | Some img =>
        match extractBase64Data (gi_data img) (Some (gi_id img)) with
        | (Some d, l) => ([InlineDataPart (mimeType d) (base64Data d)], l)
        | (None, l) => ([], l)
        end
    end.
Proof.
  unfold selection_named, GeminiPrev.history_parts, selected_image.
  destruct (msg_role m); [done|].
  destruct (msg_selectedImageId m) as [[|c s]|] eqn:E; [done| |].
  - cbn [opt_truthy truthy]. destruct (msg_images m) as [[|i l]|]; [done| |done].
    destruct (List.find _ (i :: l)) as [sel|]; [|done].
    by destruct (gi_status sel).
  - cbn [opt_truthy]. destruct (msg_images m) as [[|i l]|]; [done| |done].
    by rewrite find_never.
Qed.
End UserMessage.


(** X23.  The two adapters send the same images in the same order.  The
    OpenAI-compatible adapter passes on the data URIs of exactly those
    selected images and uploads whose mime type and payload the Gemini
    adapter sends, and each URI it passes on is the data URI of that
    mime type and payload. *)
Theorem adapters_send_same_images {validation : Validation}
    (history : list Message) (uploads : list UploadedImage) :
  fst (OpenAI.collectSelectedImages history)
  = map (fun i => OpenAI.ImageUrlOut (data_uri (mimeType i) (base64Data i)))
        (fst (Gemini.collectSelectedImages history))
  /\ fst (OpenAI.filter_uploads uploads)
     = map (fun i => OpenAI.ImageUrlOut (data_uri (mimeType i) (base64Data i)))
           (fst (Gemini.filter_uploads uploads)).
Proof. split; [apply collect_agree|apply filter_agree]. Qed.

(** X24.  Compared with the previous revision of the Gemini adapter, the
    current one sends the same selected images in the same order and
    logs the same diagnostics for them; it only moves them from
    model-role history entries of one part each into the user message.
    This holds for every history in which no message names the empty
    string as its selection and no selected image is over the size
    limit (the previous revision did not check the size of selected
    images). *)
Theorem revisions_carry_same_images {validation : Validation} (history : list Message) :
  Forall selection_named history ->
  Forall selection_fits history ->
  concat (map out_parts (fst (GeminiPrev.buildHistory history)))
  = map (fun i => InlineDataPart (mimeType i) (base64Data i))
        (fst (Gemini.collectSelectedImages history))
  /\ snd (GeminiPrev.buildHistory history) = snd (Gemini.collectSelectedImages history)
  /\ Forall (fun c => out_role c = model /\ length (out_parts c) = 1)
            (fst (GeminiPrev.buildHistory history)).
Proof.
  induction 1 as [|msg rest Hnamed _ IH]; [done|].
  intros Hfits. apply Forall_cons in Hfits as [Hfit Hfits].
  destruct (IH Hfits) as (IH1 & IH2 & IH3). clear IH.
  cbn [GeminiPrev.buildHistory Gemini.collectSelectedImages].
  destruct (GeminiPrev.buildHistory rest) as [hist logs].
  destruct (Gemini.collectSelectedImages rest) as [sel logs']. cbn [fst snd] in *.
  rewrite (history_parts_current msg Hnamed).
  destruct (selected_image msg) as [img|] eqn:Hsel; [|done].
  destruct (extract_cases (gi_data img) (Some (gi_id img)))
    as [(m & d & Hs & -> & Hext)|[-> _]]; cbn [length Nat.ltb Nat.leb fst snd app].
  - rewrite (Hfit img _ Hsel Hext). cbn [fst snd map concat out_parts app].
    split_and!; [by rewrite IH1|by rewrite IH2|].
    constructor; [|done]. split; [|done]. by apply (selected_image_model msg img).
  - cbn [fst snd]. split_and!; [done|by rewrite IH2|done].
Qed.

Lemma revisions_carry_same_images_witness :
  concat (map out_parts (fst (GeminiPrev.buildHistory [earlier_turn "a red fox"])))
  = map (fun i => InlineDataPart (mimeType i) (base64Data i))
        (fst (Gemini.collectSelectedImages (validation := lenient)
                [earlier_turn "a red fox"])).
Proof.
  apply (revisions_carry_same_images (validation := lenient) [earlier_turn "a red fox"]).
  - repeat constructor. discriminate.
  - repeat constructor. intros img d [= <-] [= <-]. reflexivity.
Defined.

(** X25.  The request the Gemini adapter sends through the SDK and the
    one it sends through a proxy carry the same parts in the same order,
    differing only in how the image parts are spelled: the text, if
    there is a prompt, comes first and is the only text part; the
    selected images of earlier turns follow, then the uploads.  An
    accepted call always has at least one part, and what was logged on
    the way are the diagnostics of the images left out. *)
Theorem gemini_user_message {validation : Validation} (key prompt : jsstring)
    (history : list Message) (uploadedImages : option (list UploadedImage))
    (logs : list Diagnostic) (prepared : Gemini.Prepared) :
  Gemini.prepare key prompt history uploadedImages = (logs, Ok prepared) ->
  Gemini.userPartsProxy prepared = map proxy_form (Gemini.userParts prepared)
  /\ Gemini.userParts prepared <> []
  /\ Gemini.userParts prepared
     = (if truthy prompt
        then [TextPart
                (Gemini.enhancePrompt prompt
                   (length (fst (Gemini.collectSelectedImages history)
                            ++ fst (Gemini.filter_uploads (supplied uploadedImages)))))]
        else [])
       ++ map (fun img => InlineDataPart (mimeType img) (base64Data img))
              (fst (Gemini.collectSelectedImages history)
               ++ fst (Gemini.filter_uploads (supplied uploadedImages)))
  /\ logs = snd (Gemini.collectSelectedImages history)
            ++ snd (Gemini.filter_uploads (supplied uploadedImages)).
Proof.
  unfold Gemini.prepare.
  destruct (validateApiKey key); [done|].
  destruct (if truthy prompt then validatePrompt prompt else None); [done|].
  destruct (Gemini.collectSelectedImages history) as [selected logs1].
  assert (match uploadedImages with
          | Some ((_ :: _) as imgs) => Gemini.filter_uploads imgs
          | _ => ([], [])
          end = Gemini.filter_uploads (supplied uploadedImages)) as ->
    by (by destruct uploadedImages as [[|? ?]|]).
  destruct (Gemini.filter_uploads (supplied uploadedImages)) as [inputs logs2].
  cbn [fst snd]. destruct (_ && _); [done|].
  set (text := if truthy prompt then _ else _).
  destruct (length _ =? 0) eqn:Hlen; [done|]. intros [= <- <-].
  cbn [Gemini.userParts Gemini.userPartsProxy]. split_and!; try done.
  - rewrite (map_app proxy_form), map_map. f_equal. unfold text. by destruct (truthy prompt).
  - intros E. by rewrite E in Hlen.
Qed.

Lemma gemini_user_message_witness :
  Gemini.userPartsProxy
    {| Gemini.userParts :=
         [TextPart (Gemini.legend 2 ++ lit "put image 1 on image 2");
          InlineDataPart (lit "image/png") (lit "AAAA");
          InlineDataPart (lit "image/jpeg") (lit "BBBB")];
       Gemini.userPartsProxy :=
         [TextPart (Gemini.legend 2 ++ lit "put image 1 on image 2");
          Inline_dataPart (lit "image/png") (lit "AAAA");
          Inline_dataPart (lit "image/jpeg") (lit "BBBB")] |}
  = map proxy_form
      [TextPart (Gemini.legend 2 ++ lit "put image 1 on image 2");
       InlineDataPart (lit "image/png") (lit "AAAA");
       InlineDataPart (lit "image/jpeg") (lit "BBBB")].
Proof.
  apply (gemini_user_message (validation := lenient) (lit "key")
           (lit "put image 1 on image 2") [] (Some [first_upload; second_upload]) []).
  reflexivity.
Defined.

(** ** The worker pool: slots are started in order *)

Section PoolOrder.
Context {adapter : Adapter}.
Variable k : nat.

Lemma started_app (a b : list Event) : started (a ++ b) = started a ++ started b.
Proof. apply omap_app. Qed.

Lemma started_callbacks (i a : nat) : started (callbacks i a) = [].
Proof.
  unfold callbacks. induction (fst (attempt_result i a)) as [|c l IH]; [done|].
  by destruct c.
Qed.

Lemma started_log_entry (w i a : nat) : started (log_entry w i a) = [].
Proof. unfold log_entry. by destruct (snd (attempt_result i a)). Qed.

Lemma claim_started (q : Pool) :
  started (events q) ++ taskQueue q = seq 0 k ->
  started (events (fst (claim q))) ++ taskQueue (fst (claim q)) = seq 0 k
  /\ workers (fst (claim q)) = workers q
  /\ (forall i a, snd (claim q) = Sleeping i a -> 1 <= a).
Proof.
  intros H. unfold claim. destruct (taskQueue q) as [|j rest] eqn:Hq.
  { cbn [fst snd]. by rewrite Hq. }
  destruct (aborted q).
  { cbn [fst snd]. by rewrite Hq. }
  pool. split_and!; [|done|done].
  rewrite started_app. cbn. by rewrite <- app_assoc.
Qed.

Lemma ordered_update (p p' : Pool) (w : nat) (y : Worker) :
  Ordered k p ->
  started (events p') ++ taskQueue p' = seq 0 k ->
  workers p' = workers p ->
  (forall i a, y = Sleeping i a -> 1 <= a) ->
  Ordered k (set_workers (<[w:=y]> (workers p')) p').
Proof.
  intros [_ Hsleep] Hev Hws Hy. split; [done|]. pool. rewrite Hws.
  intros w' i a Hw'. destruct (Nat.eq_dec w' w) as [->|Hne].
  - apply list_lookup_insert_Some in Hw' as [(_ & Hy' & _)|[? _]]; [|done].
    by eapply Hy.
  - rewrite list_lookup_insert_ne in Hw' by done. by eapply Hsleep.
Qed.

Lemma ordered_claim (p q : Pool) (w : nat) :
  Ordered k p ->
  started (events q) ++ taskQueue q = seq 0 k ->
  workers q = workers p ->
  Ordered k (let '(p', y) := claim q in set_workers (<[w:=y]> (workers p')) p').
Proof.
  intros Hp Hq Hws. destruct (claim_started q Hq) as (H1 & H2 & H3).
  destruct (claim q) as [p' y]. cbn [fst snd] in *.
  apply (ordered_update p); [done|done|congruence|done].
Qed.

Lemma step_ordered (t : Tick) (p : Pool) : Ordered k p -> Ordered k (step k t p).
Proof.
  intros Hp. destruct t as [w|]; [|done]. unfold step.
  destruct (workers p !! w) as [x|] eqn:Hw; [|done].
  pose proof Hp as [Hev Hsleep].
  destruct (aborted p) eqn:Hab.
  - rewrite resume_aborted by done.
    apply (ordered_update p); [done| |by destruct x|done].
    destruct x as [i a|i a|]; pool; try done.
    by rewrite started_app, started_callbacks, app_nil_r.
  - rewrite resume_live by done. destruct x as [i a|i a|].
    + destruct (fails i a).
      * destruct (S a <=? MAX_RETRIES).
        -- apply (ordered_update p); [done| |done|intros ? ? [= _ <-]; lia].
           pool. by rewrite !started_app, started_callbacks, started_log_entry, app_nil_r.
        -- apply (ordered_claim p); [done| |done]. pool.
           by rewrite !started_app, started_callbacks, started_log_entry, app_nil_r.
      * apply (ordered_claim p); [done| |done]. pool.
        by rewrite !started_app, started_callbacks, app_nil_r.
    + pose proof (Hsleep w i a Hw) as Ha. destruct (a <=? MAX_RETRIES).
      * apply (ordered_update p); [done| |done|done].
        pool. rewrite started_app. destruct a; [lia|]. by rewrite app_nil_r.
      * apply (ordered_claim p); [done| |done]. pool.
        by rewrite started_app, app_nil_r.
    + apply (ordered_update p); done.
Qed.

Lemma run_ordered (sched : list Tick) (p : Pool) :
  Ordered k p -> Ordered k (run k sched p).
Proof.
  revert p. induction sched as [|t s IH]; intros p Hp; [done|].
  change (run k (t :: s) p) with (run k s (step k t p)).
  by apply IH, step_ordered.
Qed.

Lemma spawn_ordered (p : Pool) : Ordered k p -> Ordered k (spawn p).
Proof.
  intros [Hev Hsleep]. unfold spawn.
  destruct (claim_started p Hev) as (H1 & H2 & H3).
  destruct (claim p) as [p' y]. cbn [fst snd] in *. split; [done|]. pool.
  intros w i a Hw. apply lookup_app_Some in Hw as [Hw|[_ Hw]].
  - rewrite H2 in Hw. by eapply Hsleep.
  - apply list_lookup_singleton_Some in Hw as [_ Hy]. by eapply H3.
Qed.

Lemma start_ordered (signal : bool) : Ordered k (start k signal).
Proof.
  unfold start. induction (numWorkers k) as [|n IH]; [by split|].
  rewrite Nat.iter_succ. by apply spawn_ordered.
Qed.
End PoolOrder.

(** X26.  The slots of a batch are started in order and each of them
    once.  In every state a batch can reach, the slots that have been
    sent to the provider for the first time are 0, 1, ..., m-1, in this
    order in the log, and the queue holds the others, m, ..., k-1: no
    slot is skipped, none is started twice, and a slot is only started
    when all slots before it have been. *)
Theorem slots_start_in_order {adapter : Adapter} (k : nat) (signal : bool)
    (sched : list Tick) :
  exists m,
    m <= k
    /\ started (events (run k sched (start k signal))) = seq 0 m
    /\ taskQueue (run k sched (start k signal)) = seq m (k - m).
Proof.
  destruct (run_ordered k sched _ (start_ordered k signal)) as [Hev _].
  destruct (reachable_core k signal sched) as [ph HC].
  destruct (core_queue _ _ _ HC) as (m & Hm & Hq & _).
  exists m. split_and!; [done| |done].
  assert (seq 0 k = seq 0 m ++ seq m (k - m)) as E.
  { rewrite <- seq_app. f_equal. lia. }
  rewrite Hq, E in Hev. by apply app_inv_tail in Hev.
Qed.

(** ** Calls that are rejected before any request *)

(** X27.  When the validators accept the key and the prompt, the Gemini
    adapter rejects a call before any request exactly when uploads were
    given and none of them can be used, or when there is neither a
    prompt nor a usable image; the OpenAI-compatible adapter rejects it
    exactly when there is neither a prompt nor a usable image.  A key or
    a prompt that a validator refuses is rejected by both adapters with
    the validator's error, before anything is read or logged. *)
Theorem preflight_rejections {validation : Validation} (key prompt : jsstring)
    (history : list Message) (uploadedImages : option (list UploadedImage)) :
  (forall e,
     validateApiKey key = Some e ->
     Gemini.prepare key prompt history uploadedImages = ([], Throw e)
     /\ OpenAI.prepare key prompt history uploadedImages = ([], Throw e))
  /\ (forall e,
        validateApiKey key = None -> prompt <> [] -> validatePrompt prompt = Some e ->
        Gemini.prepare key prompt history uploadedImages = ([], Throw e)
        /\ OpenAI.prepare key prompt history uploadedImages = ([], Throw e))
  /\ (validateApiKey key = None -> validatePrompt prompt = None ->
      ((exists e, snd (Gemini.prepare key prompt history uploadedImages) = Throw e)
       <-> (supplied uploadedImages <> []
            /\ fst (Gemini.filter_uploads (supplied uploadedImages)) = [])
           \/ (prompt = [] /\ fst (Gemini.collectSelectedImages history) = []
               /\ supplied uploadedImages = [])))
  /\ (validateApiKey key = None -> validatePrompt prompt = None ->
      ((exists e, snd (OpenAI.prepare key prompt history uploadedImages) = Throw e)
       <-> prompt = [] /\ fst (OpenAI.collectSelectedImages history) = []
           /\ fst (OpenAI.filter_uploads (supplied uploadedImages)) = [])).
Proof.
  split_and!.
  - intros e He. unfold Gemini.prepare, OpenAI.prepare. by rewrite He.
  - intros e Hk Hne He. unfold Gemini.prepare, OpenAI.prepare.
    apply truthy_true in Hne. by rewrite Hk, Hne, He.
  - apply gemini_prepare_rejects.
  - apply openai_prepare_rejects.
Qed.

Lemma preflight_rejections_witness :
  (exists e,
     snd (Gemini.prepare (validation := lenient) (lit "key") (lit "a cat") []
            (Some [broken_upload])) = Throw e)
  <-> (supplied (Some [broken_upload]) <> []
       /\ fst (Gemini.filter_uploads (validation := lenient)
                 (supplied (Some [broken_upload]))) = [])
      \/ (lit "a cat" = [] /\ fst (Gemini.collectSelectedImages (validation := lenient) []) = []
          /\ supplied (Some [broken_upload]) = []).
Proof.
  apply (proj1 (proj2 (proj2 (preflight_rejections (validation := lenient) (lit "key")
                                (lit "a cat") [] (Some [broken_upload])))));
    reflexivity.
Defined.

(** ** The generation settings in every request *)


